(** * svelte-hypercommands: the palette engine of [src/lib/palette/create.ts]

    A shallow embedding of [createPalette]'s closure state and of the
    functions that act on it: the search pipeline, the selection cursor,
    close resolution, the resolution of actionable and navigable items,
    item registration and its reversal callback, unregistration and the
    input handler.

    Conventions.
    - The closure variables of [createPalette] form one record, [Palette];
      every function of the closure is a computation in a state and
      exception monad over it.  A thrown exception keeps the state reached
      so far, as in JavaScript.
    - A [WritableExposed] store is modelled by its [value]; subscribers and
      [sync] notifications are not part of the model.
    - An item is a record of its fields.  [oid] stands for the identity of
      the JavaScript object ([===]); an item is taken not to be mutated by
      its owner while it is registered.
    - [await] is sequential: a hook is represented by the outcome of
      awaiting it, and one resolution runs to completion.  A hook that is
      called without [await] ([onError], [onUnregister]) is represented
      by the outcome of the call itself: what it throws synchronously is
      raised where the call is made, and the promise it may return is
      dropped.  Each such call is recorded in a call log.
    - The functions a mode is configured with ([mapToSearch], the mapper
      and the sorter of its sort) and a predicate given to
      [unregisterItem] are total: they return a value.
    - DOM work (the input element, key bindings on [window], [tick]) is
      left out, except for the table [_shorcuts_cleanup]. *)

From Stdlib Require Import List String Ascii ZArith Bool Lia Arith Permutation Sorted.
From Stdlib Require OrderedTypeEx DecimalString.
Import ListNotations.

Local Open Scope string_scope.
Local Open Scope Z_scope.
Local Open Scope list_scope.

Set Implicit Arguments.

(** ** Values of the platform *)

(** A thrown value. [HyperPaletteError] is the class [create.ts] imports
    from [errors.js] and throws; [DuplicatedIdError] is the subclass
    declared beside it, which carries an id; [TypeError] is what
    dereferencing [undefined] raises; [Thrown] is any value thrown by
    user code. *)
Inductive Exn :=
| HyperPaletteError (message : string)
| DuplicatedIdError (message : string) (dup_id : option string)
| TypeError (message : string)
| Thrown (payload : string).

(** A value returned by [onRequest]: [false] vetoes the action. *)
Inductive JsValue :=
| JsFalse
| JsUndefined
| JsOther (tag : string).

(** The outcome of calling (and awaiting) user code. *)
Inductive Outcome (A : Type) :=
| Returns (a : A)
| Throws (e : Exn).
Arguments Returns {A} a.
Arguments Throws {A} e.

(** ** Constants *)

(** Modelled from the spec: [HYPER_ITEM_TYPE] of [constants.ts], which is
    not among the sources; the members are the ones [create.ts] refers to. *)
Inductive HyperItemType := ACTIONABLE | NAVIGABLE | SEARCHABLE.

(** Modelled from the spec: the values of [closeOn], from the missing
    [constants.ts]. *)
Inductive CloseOn :=
| ALWAYS | NEVER | ON_TRIGGER | ON_CANCEL | ON_SUCCESS | ON_ERROR.

(** Modelled from the spec: [NO_RESULTS_MODE] of the missing
    [constants.ts]; [EMPTY_OTHER] is any value outside the three. *)
Inductive NoResultsMode :=
| EMPTY_ALL | EMPTY_HISTORY | EMPTY_NONE | EMPTY_OTHER (v : string).

(** Modelled from the spec: [SORT_MODE] of the missing [constants.ts]. *)
Inductive SortMode := SORTED | REVERSED | UNSORTED.

(** Modelled from the spec: [PALETTE_CLOSE_ACTION] of the missing
    [constants.ts]. *)
Inductive PaletteCloseAction := NO_ACTION | RESET | KEEP_CLOSE | RESET_CLOSE.

Definition CloseOn_eqb (a b : CloseOn) : bool :=
  match a, b with
  | ALWAYS, ALWAYS | NEVER, NEVER | ON_TRIGGER, ON_TRIGGER
  | ON_CANCEL, ON_CANCEL | ON_SUCCESS, ON_SUCCESS | ON_ERROR, ON_ERROR => true
  | _, _ => false
  end.

(** [item.closeOn === c], where [item.closeOn] may be [undefined]. *)
Definition closeOn_is (o : option CloseOn) (c : CloseOn) : bool :=
  match o with
  | Some a => CloseOn_eqb a c
  | None => false
  end.

(** ** Items *)

Inductive ItemRequestSource :=
| SrcSubmit
| SrcShortcut (shortcut : string)
| SrcClick.

(** [AnyHyperItem]. [shortcut = None] is an item without the field, so
    that ['shortcut' in item] is [shortcut <> None]; [onError] and
    [onUnregister] are [None] on an item without the hook.  The hooks
    take the item among their arguments: the item a hook belongs to is
    left implicit, so that [onUnregister] is the outcome of
    [item.onUnregister(item)]. *)
Record HyperItem := {
  oid : nat;
  type : HyperItemType;
  id : string;
  name : string;
  hcache_sort : string;
  shortcut : option (list string);
  closeOn : option CloseOn;
  onRequest : ItemRequestSource -> Outcome JsValue;
  onAction : ItemRequestSource -> JsValue -> Outcome unit;
  onError : option (Exn -> ItemRequestSource -> Outcome unit);
  onUnregister : option (Outcome unit);
  external : bool;
  url : string
}.

(** [new_item.hcache.sort = key]. *)
Definition set_hcache_sort (key : string) (it : HyperItem) : HyperItem :=
  {| oid := oid it; type := type it; id := id it; name := name it;
     hcache_sort := key; shortcut := shortcut it; closeOn := closeOn it;
     onRequest := onRequest it; onAction := onAction it;
     onError := onError it; onUnregister := onUnregister it;
     external := external it; url := url it |}.

(** What the JavaScript runtime and the [Searcher] helper contribute.
    [searcher_search mapper contents pattern] is the ranked answer of
    [Searcher.search], which is not among the sources: the ranking is
    left open. *)
Class Runtime := {
  toLowerCase : string -> string;
  localeCompare : string -> string -> Z;
  searcher_search : (HyperItem -> string) -> list HyperItem -> string -> list HyperItem
}.

(** ** Arrays *)

Section Arrays.
Variable A : Type.

(** [arr[i]]: [None] is [undefined]. *)
Definition array_get (l : list A) (i : Z) : option A :=
  if i <? 0 then None else nth_error l (Z.to_nat i).

(** The first index whose element satisfies [p]: the loops
    [for (i = 0; ...) if (...) { idx = i; break; }]. *)
Fixpoint find_index (p : A -> bool) (l : list A) : option nat :=
  match l with
  | [] => None
  | x :: r => if p x then Some O
              else match find_index p r with
                   | Some i => Some (S i)
                   | None => None
                   end
  end.

(** [arr.splice(i, 1)]. *)
Fixpoint splice1 (i : nat) (l : list A) : list A :=
  match l, i with
  | [], _ => []
  | _ :: r, O => r
  | x :: r, S j => x :: splice1 j r
  end.

(** [arr[i] = x] for an index inside the array.  (Outside, JavaScript
    pads the array with holes, for which a list has no value; the
    indices written here come from a search in an array of the same
    length.) *)
Fixpoint array_set (i : nat) (x : A) (l : list A) : list A :=
  match l, i with
  | [], _ => []
  | _ :: r, O => x :: r
  | y :: r, S j => y :: array_set j x r
  end.

(** All the indices whose element satisfies [p], ascending. *)
Fixpoint find_indices (p : A -> bool) (from : nat) (l : list A) : list nat :=
  match l with
  | [] => []
  | x :: r => if p x then from :: find_indices p (S from) r
              else find_indices p (S from) r
  end.
End Arrays.

(** ** Strings *)

(** [s.startsWith(p)]. *)
Definition startsWith (s p : string) : bool := String.prefix p s.

(** [s.slice(n)] for [0 <= n]. *)
Definition slice (n : nat) (s : string) : string :=
  String.substring n (String.length s - n) s.

(** [!s] on a string: true on the empty string only. *)
Definition falsy (s : string) : bool :=
  match s with
  | EmptyString => true
  | _ => false
  end.

(** ** The state of a mode and of the palette *)

(** [PaletteModeSort]: the strategy chosen by [getModes]. *)
Inductive PaletteModeSort :=
| SortSearch (mapper : HyperItem -> string)
| SortKeys (mapper : HyperItem -> string)
| SortCustom (sorter : list HyperItem -> list HyperItem).

(** The mode configuration built by [getModes]; the navigation hooks are
    present on navigable modes only. *)
Record ModeConfig := {
  cfg_type : HyperItemType;
  prefix : string;
  mapToSearch : HyperItem -> string;
  emptyMode : NoResultsMode;
  cfg_shortcut : list string;
  sortMode : SortMode;
  onExternal : option (string -> Outcome unit);
  onLocal : option (string -> Outcome unit);
  onNavigation : option (HyperItem -> Outcome unit);
  cfg_onError : option (Exn -> HyperItem -> ItemRequestSource -> Outcome unit)
}.

(** [PaletteModeState]. [searcher] is the content of the mode's
    [Searcher], in the order of the [add] calls. *)
Record PaletteModeState := {
  mode : string;
  sort : PaletteModeSort;
  config : ModeConfig;
  items : list HyperItem;
  results : list HyperItem;
  history : list string;
  searcher : list HyperItem;
  current : option HyperItem;
  rawAll : list HyperItem;
  rawAllSorted : list HyperItem;
  lastInput : string
}.

Record PaletteSelected := {
  el : option nat;
  sel_id : option string;
  idx : Z
}.

(** [PaletteError]. *)
Record PaletteError := {
  err_error : Exn;
  err_item : HyperItem;
  err_source : ItemRequestSource;
  err_mode : string
}.

(** A call of a hook that is not awaited. *)
Inductive HookCall :=
| CallOnError (item_id : string) (e : Exn) (source : ItemRequestSource)
| CallOnUnregister (item_id : string).

(** The variables of the closure of [createPalette].
    - [modes] is the [Map] [_modes], in insertion order.
    - [mode_state] is the key of the entry [_mode_state] points to.
    - [debounce_id] holds the query of the pending [setTimeout], if any.
    - [shorcuts_cleanup] maps an item id to the shortcuts bound for it. *)
Record Palette := {
  modes : list (string * PaletteModeState);
  mode_state : string;
  open : bool;
  searchText : string;
  paletteMode : string;
  closeAction : PaletteCloseAction;
  debounce : Z;
  resetOnOpen : bool;
  error : option PaletteError;
  selected : PaletteSelected;
  debounce_id : option string;
  shorcuts_cleanup : list (string * list string);
  calls : list HookCall
}.

(** *** Field updates *)

Definition with_items v (m : PaletteModeState) :=
  {| mode := mode m; sort := sort m; config := config m; items := v;
     results := results m; history := history m; searcher := searcher m;
     current := current m; rawAll := rawAll m;
     rawAllSorted := rawAllSorted m; lastInput := lastInput m |}.
Definition with_results v (m : PaletteModeState) :=
  {| mode := mode m; sort := sort m; config := config m; items := items m;
     results := v; history := history m; searcher := searcher m;
     current := current m; rawAll := rawAll m;
     rawAllSorted := rawAllSorted m; lastInput := lastInput m |}.
Definition with_history v (m : PaletteModeState) :=
  {| mode := mode m; sort := sort m; config := config m; items := items m;
     results := results m; history := v; searcher := searcher m;
     current := current m; rawAll := rawAll m;
     rawAllSorted := rawAllSorted m; lastInput := lastInput m |}.
Definition with_searcher v (m : PaletteModeState) :=
  {| mode := mode m; sort := sort m; config := config m; items := items m;
     results := results m; history := history m; searcher := v;
     current := current m; rawAll := rawAll m;
     rawAllSorted := rawAllSorted m; lastInput := lastInput m |}.
Definition with_current v (m : PaletteModeState) :=
  {| mode := mode m; sort := sort m; config := config m; items := items m;
     results := results m; history := history m; searcher := searcher m;
     current := v; rawAll := rawAll m;
     rawAllSorted := rawAllSorted m; lastInput := lastInput m |}.
Definition with_rawAll v (m : PaletteModeState) :=
  {| mode := mode m; sort := sort m; config := config m; items := items m;
     results := results m; history := history m; searcher := searcher m;
     current := current m; rawAll := v;
     rawAllSorted := rawAllSorted m; lastInput := lastInput m |}.
Definition with_rawAllSorted v (m : PaletteModeState) :=
  {| mode := mode m; sort := sort m; config := config m; items := items m;
     results := results m; history := history m; searcher := searcher m;
     current := current m; rawAll := rawAll m;
     rawAllSorted := v; lastInput := lastInput m |}.
Definition with_lastInput v (m : PaletteModeState) :=
  {| mode := mode m; sort := sort m; config := config m; items := items m;
     results := results m; history := history m; searcher := searcher m;
     current := current m; rawAll := rawAll m;
     rawAllSorted := rawAllSorted m; lastInput := v |}.

Definition with_modes v (p : Palette) :=
  {| modes := v; mode_state := mode_state p; open := open p;
     searchText := searchText p; paletteMode := paletteMode p;
     closeAction := closeAction p; debounce := debounce p;
     resetOnOpen := resetOnOpen p; error := error p;
     selected := selected p; debounce_id := debounce_id p;
     shorcuts_cleanup := shorcuts_cleanup p; calls := calls p |}.
Definition with_mode_state v (p : Palette) :=
  {| modes := modes p; mode_state := v; open := open p;
     searchText := searchText p; paletteMode := paletteMode p;
     closeAction := closeAction p; debounce := debounce p;
     resetOnOpen := resetOnOpen p; error := error p;
     selected := selected p; debounce_id := debounce_id p;
     shorcuts_cleanup := shorcuts_cleanup p; calls := calls p |}.
Definition with_open v (p : Palette) :=
  {| modes := modes p; mode_state := mode_state p; open := v;
     searchText := searchText p; paletteMode := paletteMode p;
     closeAction := closeAction p; debounce := debounce p;
     resetOnOpen := resetOnOpen p; error := error p;
     selected := selected p; debounce_id := debounce_id p;
     shorcuts_cleanup := shorcuts_cleanup p; calls := calls p |}.
Definition with_searchText v (p : Palette) :=
  {| modes := modes p; mode_state := mode_state p; open := open p;
     searchText := v; paletteMode := paletteMode p;
     closeAction := closeAction p; debounce := debounce p;
     resetOnOpen := resetOnOpen p; error := error p;
     selected := selected p; debounce_id := debounce_id p;
     shorcuts_cleanup := shorcuts_cleanup p; calls := calls p |}.
Definition with_paletteMode v (p : Palette) :=
  {| modes := modes p; mode_state := mode_state p; open := open p;
     searchText := searchText p; paletteMode := v;
     closeAction := closeAction p; debounce := debounce p;
     resetOnOpen := resetOnOpen p; error := error p;
     selected := selected p; debounce_id := debounce_id p;
     shorcuts_cleanup := shorcuts_cleanup p; calls := calls p |}.
Definition with_error v (p : Palette) :=
  {| modes := modes p; mode_state := mode_state p; open := open p;
     searchText := searchText p; paletteMode := paletteMode p;
     closeAction := closeAction p; debounce := debounce p;
     resetOnOpen := resetOnOpen p; error := v;
     selected := selected p; debounce_id := debounce_id p;
     shorcuts_cleanup := shorcuts_cleanup p; calls := calls p |}.
Definition with_selected v (p : Palette) :=
  {| modes := modes p; mode_state := mode_state p; open := open p;
     searchText := searchText p; paletteMode := paletteMode p;
     closeAction := closeAction p; debounce := debounce p;
     resetOnOpen := resetOnOpen p; error := error p;
     selected := v; debounce_id := debounce_id p;
     shorcuts_cleanup := shorcuts_cleanup p; calls := calls p |}.
Definition with_debounce_id v (p : Palette) :=
  {| modes := modes p; mode_state := mode_state p; open := open p;
     searchText := searchText p; paletteMode := paletteMode p;
     closeAction := closeAction p; debounce := debounce p;
     resetOnOpen := resetOnOpen p; error := error p;
     selected := selected p; debounce_id := v;
     shorcuts_cleanup := shorcuts_cleanup p; calls := calls p |}.
Definition with_shorcuts_cleanup v (p : Palette) :=
  {| modes := modes p; mode_state := mode_state p; open := open p;
     searchText := searchText p; paletteMode := paletteMode p;
     closeAction := closeAction p; debounce := debounce p;
     resetOnOpen := resetOnOpen p; error := error p;
     selected := selected p; debounce_id := debounce_id p;
     shorcuts_cleanup := v; calls := calls p |}.
Definition with_calls v (p : Palette) :=
  {| modes := modes p; mode_state := mode_state p; open := open p;
     searchText := searchText p; paletteMode := paletteMode p;
     closeAction := closeAction p; debounce := debounce p;
     resetOnOpen := resetOnOpen p; error := error p;
     selected := selected p; debounce_id := debounce_id p;
     shorcuts_cleanup := shorcuts_cleanup p; calls := v |}.

(** *** The map of modes *)

(** [_modes.get(key)]. *)
Fixpoint modes_get (key : string) (ms : list (string * PaletteModeState))
  : option PaletteModeState :=
  match ms with
  | [] => None
  | (k, m) :: r => if String.eqb k key then Some m else modes_get key r
  end.

(** A mutation of the mode object stored under [key]. *)
Fixpoint modes_update (key : string) (f : PaletteModeState -> PaletteModeState)
  (ms : list (string * PaletteModeState)) : list (string * PaletteModeState) :=
  match ms with
  | [] => []
  | (k, m) :: r => if String.eqb k key then (k, f m) :: r
                   else (k, m) :: modes_update key f r
  end.

(** ** The state and exception monad *)

Inductive Res (A : Type) :=
| Ok (a : A) (p : Palette)
| Throw (e : Exn) (p : Palette).
Arguments Ok {A} a p.
Arguments Throw {A} e p.

Definition M (A : Type) := Palette -> Res A.

Definition ret {A} (a : A) : M A := fun p => Ok a p.
Definition throw {A} (e : Exn) : M A := fun p => Throw e p.
Definition bind {A B} (m : M A) (k : A -> M B) : M B :=
  fun p => match m p with
           | Ok a p' => k a p'
           | Throw e p' => Throw e p'
           end.
Definition get : M Palette := fun p => Ok p p.
Definition modify (f : Palette -> Palette) : M unit := fun p => Ok tt (f p).

Declare Scope palette_scope.
Delimit Scope palette_scope with palette.
Notation "x <- m ;; k" := (bind m (fun x => k))
  (at level 61, m at next level, right associativity) : palette_scope.
Notation "m ;; k" := (bind m (fun _ => k))
  (at level 61, right associativity) : palette_scope.
Local Open Scope palette_scope.

(** [if (c) { m }]. *)
Definition when (c : bool) (m : M unit) : M unit := if c then m else ret tt.

(** [try { m } catch (e) { h e }]. *)
Definition try_catch {A} (m : M A) (h : Exn -> M A) : M A :=
  fun p => match m p with
           | Ok a p' => Ok a p'
           | Throw e p' => h e p'
           end.

(** [try { m } finally { f }]: [f] runs on both exits, and an exception
    of [m] goes on after it. *)
Definition try_finally {A} (m : M A) (f : M unit) : M A :=
  fun p => match m p with
           | Ok a p' => (f ;; ret a) p'
           | Throw e p' => (f ;; throw e) p'
           end.

(** [await hook(...)]: a hook that throws or rejects raises at the
    [await]. *)
Definition await {A} (o : Outcome A) : M A :=
  match o with
  | Returns a => ret a
  | Throws e => throw e
  end.

(** [hook(...)] without [await], [o] being the outcome of the call: what
    it throws synchronously is raised, what it returns is dropped. *)
Definition call_sync (o : Outcome unit) : M unit :=
  match o with
  | Returns _ => ret tt
  | Throws e => throw e
  end.

(** Calling a member that may be [undefined]. *)
Definition call_member {A B} (what : string) (f : option (A -> Outcome B)) (a : A)
  : Outcome B :=
  match f with
  | Some g => g a
  | None => Throws (TypeError (what ++ " is not a function")%string)
  end.

(** Dereferencing [_mode_state]; it is [undefined] when the key names no
    mode. *)
Definition the_mode_state : M PaletteModeState :=
  fun p => match modes_get (mode_state p) (modes p) with
           | Some m => Ok m p
           | None => Throw (TypeError "_mode_state is undefined") p
           end.

(** A mutation of the object [_mode_state] points to. *)
Definition update_mode_state (f : PaletteModeState -> PaletteModeState) : M unit :=
  _ <- the_mode_state ;;
  modify (fun p => with_modes (modes_update (mode_state p) f (modes p)) p).

(** [_modes.get(key)] followed by a use of the result; [undefined] raises
    at the first dereference. *)
Definition the_mode (key : string) : M PaletteModeState :=
  fun p => match modes_get key (modes p) with
           | Some m => Ok m p
           | None => Throw (TypeError "_mode is undefined") p
           end.

(** A mutation of the mode object stored under [key]. *)
Definition update_mode (key : string) (f : PaletteModeState -> PaletteModeState)
  : M unit :=
  _ <- the_mode key ;;
  modify (fun p => with_modes (modes_update key f (modes p)) p).

(** [Map.set] and [Map.delete] on [_shorcuts_cleanup]. *)
Fixpoint map_set {V} (k : string) (v : V) (l : list (string * V)) : list (string * V) :=
  match l with
  | [] => [(k, v)]
  | (k', v') :: r => if String.eqb k' k then (k', v) :: r
                     else (k', v') :: map_set k v r
  end.

Fixpoint map_delete {V} (k : string) (l : list (string * V)) : list (string * V) :=
  match l with
  | [] => []
  | (k', v') :: r => if String.eqb k' k then r else (k', v') :: map_delete k r
  end.

(** ** Sorting *)

(** [Array.prototype.sort(cmp)]: the stable sort, [a] before [b] when
    [cmp a b <= 0] and [a] came first. *)
Section ArraySort.
Variable A : Type.
Variable cmp : A -> A -> Z.

Fixpoint sort_insert (x : A) (l : list A) : list A :=
  match l with
  | [] => [x]
  | y :: r => if cmp x y <=? 0 then x :: y :: r else y :: sort_insert x r
  end.

Fixpoint array_sort (l : list A) : list A :=
  match l with
  | [] => []
  | x :: r => sort_insert x (array_sort r)
  end.
End ArraySort.

(** Modelled from the spec: [Searcher.add] of [$lib/internal/helpers],
    which is not among the sources, indexes one more item. *)
Definition searcher_add (x : HyperItem) (contents : list HyperItem) : list HyperItem :=
  contents ++ [x].

(** Modelled from the spec: [Searcher.remove], missing as well, drops the
    entry that is this very object. *)
Fixpoint searcher_remove (x : HyperItem) (contents : list HyperItem) : list HyperItem :=
  match contents with
  | [] => []
  | y :: r => if Nat.eqb (oid y) (oid x) then r else y :: searcher_remove x r
  end.

(** [it.id === i]. *)
Definition has_id (i : string) (it : HyperItem) : bool := String.eqb (id it) i.

(** The first entry with this id, dropped: the loop
    [for (...) if (arr[i].id === id) { arr.splice(i, 1); break; }]. *)
Definition remove_by_id (i : string) (l : list HyperItem) : list HyperItem :=
  match find_index (has_id i) l with
  | Some k => splice1 k l
  | None => l
  end.

(** [should_reset] and [should_close] of [_resolve_close_action]. *)
Definition should_reset (a : PaletteCloseAction) : bool :=
  match a with RESET | RESET_CLOSE => true | _ => false end.

Definition should_close (a : PaletteCloseAction) : bool :=
  match a with KEEP_CLOSE | RESET_CLOSE => true | _ => false end.

Section Engine.
Context {RT : Runtime}.

(** [defaultItemSorter]. *)
Definition defaultItemSorter (l : list HyperItem) : list HyperItem :=
  array_sort (fun a b => localeCompare (hcache_sort a) (hcache_sort b)) l.

(** [sort.sorter]. *)
Definition sorter (s : PaletteModeSort) : list HyperItem -> list HyperItem :=
  match s with
  | SortSearch _ => defaultItemSorter
  | SortKeys _ => defaultItemSorter
  | SortCustom f => f
  end.

(** [(sort.type === 'custom' ? '' : sort.mapper(item)).toLowerCase()]. *)
Definition sort_key (s : PaletteModeSort) (it : HyperItem) : string :=
  toLowerCase match s with
              | SortSearch mapper => mapper it
              | SortKeys mapper => mapper it
              | SortCustom _ => ""
              end.

(** *** The search pipeline *)

Definition clear_selection (keep_el : bool) (s : PaletteSelected) : PaletteSelected :=
  {| el := if keep_el then el s else None; sel_id := None; idx := -1 |}.

Definition _set_empty_results : M unit :=
  update_mode_state (with_results []) ;;
  modify (fun p => with_selected (clear_selection false (selected p)) p).

(** The [HISTORY] branch: for each id of the history, the first item of
    [rawAll] that bears it. *)
Fixpoint history_results (h : list string) (raw : list HyperItem) : list HyperItem :=
  match h with
  | [] => []
  | i :: r => match find (has_id i) raw with
              | Some it => it :: history_results r raw
              | None => history_results r raw
              end
  end.

Definition select_first (rs : list HyperItem) (s : PaletteSelected) : PaletteSelected :=
  match rs with
  | [] => clear_selection true s
  | r0 :: _ => {| el := el s; sel_id := Some (id r0); idx := 0 |}
  end.

Definition _search_and_update (pattern : string) : M unit :=
  ms <- the_mode_state ;;
  rs <- (if String.eqb pattern "" then
           match emptyMode (config ms) with
           | EMPTY_ALL => ret (rawAllSorted ms)
           | EMPTY_HISTORY => ret (history_results (history ms) (rawAll ms))
           | EMPTY_NONE => ret []
           | EMPTY_OTHER v =>
               throw (HyperPaletteError ("Invalid empty mode: " ++ v)%string)
           end
         else
           ret (sorter (sort ms)
                  (searcher_search (mapToSearch (config ms)) (searcher ms) pattern))) ;;
  update_mode_state (with_results rs) ;;
  modify (fun p => with_selected (select_first rs (selected p)) p).

Definition _update_results : M unit :=
  p <- get ;;
  ms <- the_mode_state ;;
  _search_and_update (slice (String.length (prefix (config ms))) (searchText p)).

(** *** Opening and closing *)

Definition _open_palette (mname : string) : M unit :=
  modify (with_mode_state mname) ;;
  modify (with_paletteMode mname) ;;
  modify (with_open true) ;;
  p <- get ;;
  if negb (resetOnOpen p) then ret tt
  else
    update_mode_state (with_current None) ;;
    ms <- the_mode_state ;;
    modify (with_searchText (prefix (config ms))) ;;
    _update_results.

Definition _resolve_close_action : M unit :=
  p <- get ;;
  update_mode_state (with_lastInput (searchText p)) ;;
  when (should_reset (closeAction p))
    (ms <- the_mode_state ;;
     modify (with_searchText (prefix (config ms))) ;;
     _search_and_update "") ;;
  p' <- get ;;
  when (should_close (closeAction p) && negb (open p')) (modify (with_open true)).

Definition _close_palette : M unit :=
  p <- get ;;
  if negb (open p) then ret tt
  else modify (with_open false) ;; _resolve_close_action.

(** *** The selection cursor *)

(** [selected.value.idx = i; selected.value.id = results[i].id]. *)
Definition select_index (rs : list HyperItem) (i : Z) : M unit :=
  modify (fun p => with_selected
    {| el := el (selected p); sel_id := sel_id (selected p); idx := i |} p) ;;
  match array_get rs i with
  | Some it =>
      modify (fun p => with_selected
        {| el := el (selected p); sel_id := Some (id it); idx := i |} p)
  | None => throw (TypeError "Cannot read properties of undefined (reading 'id')")
  end.

Definition _select_next_result : M unit :=
  ms <- the_mode_state ;;
  let rs := results ms in
  let len := Z.of_nat (List.length rs) in
  if len =? 0 then ret tt
  else
    p <- get ;;
    let selectedIdx := idx (selected p) in
    if selectedIdx =? -1 then select_index rs 0
    else select_index rs (Z.rem (selectedIdx + 1) len).

Definition _select_previous_result : M unit :=
  ms <- the_mode_state ;;
  let rs := results ms in
  let len := Z.of_nat (List.length rs) in
  if len =? 0 then ret tt
  else
    p <- get ;;
    let selectedIdx := idx (selected p) in
    if selectedIdx =? -1 then select_index rs (len - 1)
    else select_index rs (Z.rem (selectedIdx - 1 + len) len).

(** *** Resolution of an item *)

(** How a [try] statement is left: by falling through or by [return]. *)
Inductive Flow := Continue | Return.

Definition record_error (e : Exn) (item : HyperItem) (source : ItemRequestSource)
  : M unit :=
  ms <- the_mode_state ;;
  modify (with_error (Some {| err_error := e; err_item := item;
                              err_source := source; err_mode := mode ms |})).

(** The call log grows by one call. *)
Definition fire (c : HookCall) : M unit :=
  modify (fun p => with_calls (calls p ++ [c]) p).

(** [_mode_state.history.value.unshift(item.id)]. *)
Definition history_unshift (i : string) : M unit :=
  update_mode_state (fun m => with_history (i :: history m) m).

Definition _resolve_actionable (item : HyperItem) (source : ItemRequestSource)
  : M unit :=
  update_mode_state (with_current (Some item)) ;;
  when (closeOn_is (closeOn item) ON_TRIGGER) _resolve_close_action ;;
  preAction <- await (onRequest item source) ;;
  match preAction with
  | JsFalse =>
      when (closeOn_is (closeOn item) ON_CANCEL || closeOn_is (closeOn item) ALWAYS)
        (_resolve_close_action ;; update_mode_state (with_current None))
  | _ =>
      flow <- try_finally
        (try_catch
           (await (onAction item source preAction) ;;
            modify (with_error None) ;;
            ret Continue)
           (fun e =>
              record_error e item source ;;
              match onError item with
              | Some hook =>
                  fire (CallOnError (id item) e source) ;; call_sync (hook e source)
              | None => ret tt
              end ;;
              if closeOn_is (closeOn item) ON_ERROR || closeOn_is (closeOn item) ALWAYS
              then _resolve_close_action ;;
                   update_mode_state (with_current None) ;;
                   ret Return
              else ret Continue))
        (history_unshift (id item)) ;;
      match flow with
      | Return => ret tt
      | Continue =>
          when (closeOn_is (closeOn item) ON_SUCCESS || closeOn_is (closeOn item) ALWAYS)
            _resolve_close_action ;;
          update_mode_state (with_current None)
      end
  end.

(** The hook a navigable item runs: [onNavigation] when the mode has
    one, else [onExternal] or [onLocal] with the url. *)
Definition navigate (config : ModeConfig) (item : HyperItem) : Outcome unit :=
  match onNavigation config with
  | Some f => f item
  | None =>
      if external item
      then call_member "config.onExternal" (onExternal config) (url item)
      else call_member "config.onLocal" (onLocal config) (url item)
  end.

Definition _resolve_navigable (item : HyperItem) (source : ItemRequestSource)
  : M unit :=
  update_mode_state (with_current (Some item)) ;;
  ms <- the_mode_state ;;
  let config := config ms in
  when (closeOn_is (closeOn item) ON_TRIGGER) _resolve_close_action ;;
  flow <- try_finally
    (try_catch
       (await (navigate config item) ;;
        modify (with_error None) ;;
        ret Continue)
       (fun e =>
          record_error e item source ;;
          match cfg_onError config with
          | Some hook =>
              fire (CallOnError (id item) e source) ;; call_sync (hook e item source)
          | None => ret tt
          end ;;
          if closeOn_is (closeOn item) ON_ERROR || closeOn_is (closeOn item) ALWAYS
          then _resolve_close_action ;;
               update_mode_state (with_current None) ;;
               ret Return
          else ret Continue))
    (history_unshift (id item)) ;;
  match flow with
  | Return => ret tt
  | Continue =>
      when (closeOn_is (closeOn item) ON_SUCCESS || closeOn_is (closeOn item) ALWAYS)
        (_resolve_close_action ;; update_mode_state (with_current None))
  end.

Definition _resolve_searchable (item : HyperItem) (source : ItemRequestSource)
  : M unit :=
  throw (HyperPaletteError
           "Unimplemented searchable item: [object Object] source: [object Object]").

(** *** Registration *)

Definition _register_shortcut (item : HyperItem) : M unit :=
  match shortcut item with
  | None | Some [] => ret tt
  | Some shortcuts =>
      modify (fun p => with_shorcuts_cleanup
                         (map_set (id item) shortcuts (shorcuts_cleanup p)) p)
  end.

Definition _unregister_shortcut (item : HyperItem) : M unit :=
  modify (fun p => with_shorcuts_cleanup (map_delete (id item) (shorcuts_cleanup p)) p).

(** [if ('onUnregister' in x) x.onUnregister?.(x)]. *)
Definition call_onUnregister (x : HyperItem) : M unit :=
  match onUnregister x with
  | Some o => fire (CallOnUnregister (id x)) ;; call_sync o
  | None => ret tt
  end.

(** The teardown of an item that leaves a mode:
    [if ('shortcut' in x) _unregister_shortcut(x);
     if ('onUnregister' in x) x.onUnregister?.(x)]. *)
Definition teardown (x : HyperItem) : M unit :=
  when (match shortcut x with Some _ => true | None => false end)
    (_unregister_shortcut x) ;;
  call_onUnregister x.

Definition duplicate_message (i : string) : string :=
  ("Item with id " ++ i ++
   " already exists in the palette, current [object Object] new [object Object]")%string.

(** The loop of [_register_item] over [unsafe_items]; it returns
    [new_items] and [removed_items]. *)
Fixpoint register_loop (mname : string) (override silent : bool)
  (unsafe_items new_items removed_items : list HyperItem)
  : M (list HyperItem * list HyperItem) :=
  match unsafe_items with
  | [] => ret (new_items, removed_items)
  | unsafe_item :: rest =>
      _mode <- the_mode mname ;;
      let found_idx := find_index (has_id (id unsafe_item)) (rawAll _mode) in
      let new_item := set_hcache_sort (sort_key (sort _mode) unsafe_item) unsafe_item in
      match found_idx with
      | None =>
          update_mode mname (fun m =>
            with_searcher (searcher_add new_item (searcher m))
              (with_items (items m ++ [new_item])
                 (with_rawAll (rawAll m ++ [new_item]) m))) ;;
          when (match shortcut new_item with Some _ => true | None => false end)
            (_register_shortcut new_item) ;;
          register_loop mname override silent rest (new_items ++ [new_item]) removed_items
      | Some i =>
          if override then
            match nth_error (rawAll _mode) i with
            | None => throw (TypeError "removed is undefined")
            | Some removed =>
                when (match shortcut removed with Some _ => true | None => false end)
                  (_unregister_shortcut removed) ;;
                call_onUnregister removed ;;
                update_mode mname (fun m =>
                  with_searcher (searcher_remove removed (searcher m)) m) ;;
                update_mode mname (fun m => with_rawAll (array_set i new_item (rawAll m)) m) ;;
                when (match shortcut new_item with Some _ => true | None => false end)
                  (_register_shortcut new_item) ;;
                update_mode mname (fun m => with_items (array_set i new_item (items m)) m) ;;
                update_mode mname (fun m =>
                  with_searcher (searcher_add new_item (searcher m)) m) ;;
                register_loop mname override silent rest new_items
                  (removed_items ++ [removed])
            end
          else if silent then
            register_loop mname override silent rest new_items removed_items
          else throw (HyperPaletteError (duplicate_message (id unsafe_item)))
      end
  end.

(** [rawAllSorted = [...rawAll]], sorted unless [UNSORTED], reversed
    when [REVERSED]. *)
Definition sorted_view (s : PaletteModeSort) (sm : SortMode) (raw : list HyperItem)
  : list HyperItem :=
  match sm with
  | UNSORTED => raw
  | SORTED => sorter s raw
  | REVERSED => rev (sorter s raw)
  end.

(** [if (_open.value && _mode_state.mode === mode) _update_results()]. *)
Definition refresh_if_active (mname : string) : M unit :=
  p <- get ;;
  if open p then
    ms <- the_mode_state ;;
    when (String.eqb (mode ms) mname) _update_results
  else ret tt.

(** [_register_item]; the result stands for the closure it returns,
    which captures the mode name and [new_items]. *)
Definition _register_item (mname : string) (item : list HyperItem)
  (override silent : bool) : M (list HyperItem) :=
  r <- register_loop mname override silent item [] [] ;;
  update_mode mname (fun m =>
    with_rawAllSorted (sorted_view (sort m) (sortMode (config m)) (rawAll m)) m) ;;
  refresh_if_active mname ;;
  ret (fst r).

(** One turn of the loop of the reversal callback. *)
Definition unregister_new_item (mname : string) (new_item : HyperItem) : M unit :=
  _mode <- the_mode mname ;;
  match find_index (has_id (id new_item)) (rawAll _mode) with
  | None => ret tt
  | Some i =>
      update_mode mname (fun m => with_rawAll (splice1 i (rawAll m)) m) ;;
      update_mode mname (fun m => with_items (splice1 i (items m)) m) ;;
      update_mode mname (fun m => with_searcher (searcher_remove new_item (searcher m)) m) ;;
      teardown new_item ;;
      update_mode mname (fun m =>
        with_rawAllSorted (remove_by_id (id new_item) (rawAllSorted m)) m)
  end.

Fixpoint unregister_new_items (mname : string) (new_items : list HyperItem) : M unit :=
  match new_items with
  | [] => ret tt
  | new_item :: rest =>
      unregister_new_item mname new_item ;; unregister_new_items mname rest
  end.

(** The closure returned by [_register_item]. *)
Definition reversal (mname : string) (new_items : list HyperItem) : M unit :=
  p <- get ;;
  match modes_get mname (modes p) with
  | None => ret tt
  | Some _ =>
      unregister_new_items mname new_items ;;
      refresh_if_active mname
  end.

(** *** Unregistration *)

Inductive ItemMatcher :=
| MatchId (i : string)
| MatchPredicate (f : HyperItem -> bool)
| MatchItem (x : HyperItem).

(** The indices [to_remove] collected for one selector. *)
Definition to_remove (selector : ItemMatcher) (raw : list HyperItem) : list nat :=
  match selector with
  | MatchId i =>
      match find_index (has_id i) raw with Some k => [k] | None => [] end
  | MatchPredicate f => find_indices f O raw
  | MatchItem x =>
      match find_index (fun it => Nat.eqb (oid it) (oid x)) raw with
      | Some k => [k]
      | None => []
      end
  end.

(** The body of the loop [for (i = to_remove.length - 1; i >= 0; i--)]. *)
Definition unregister_at (mname : string) (i : nat) : M unit :=
  _mode <- the_mode mname ;;
  match nth_error (rawAll _mode) i with
  | None => throw (TypeError "removed is undefined")
  | Some removed =>
      update_mode mname (fun m => with_rawAll (splice1 i (rawAll m)) m) ;;
      update_mode mname (fun m => with_items (splice1 i (items m)) m) ;;
      update_mode mname (fun m => with_searcher (searcher_remove removed (searcher m)) m) ;;
      teardown removed ;;
      update_mode mname (fun m =>
        with_rawAllSorted (remove_by_id (id removed) (rawAllSorted m)) m)
  end.

Fixpoint unregister_indices (mname : string) (descending : list nat) : M unit :=
  match descending with
  | [] => ret tt
  | i :: rest => unregister_at mname i ;; unregister_indices mname rest
  end.

(** The loop over the selectors; it returns [removed_count]. *)
Fixpoint unregister_loop (mname : string) (selectors : list ItemMatcher)
  (removed_count : nat) : M nat :=
  match selectors with
  | [] => ret removed_count
  | selector :: rest =>
      _mode <- the_mode mname ;;
      let indices := to_remove selector (rawAll _mode) in
      unregister_indices mname (rev indices) ;;
      unregister_loop mname rest (removed_count + List.length indices)%nat
  end.

Definition _unregister_item (mname : string) (selector : list ItemMatcher) : M unit :=
  removed_count <- unregister_loop mname selector O ;;
  if Nat.eqb removed_count O then ret tt
  else refresh_if_active mname.

(** *** The helpers handed to the caller *)

Definition unknown_mode (mname : string) : Exn :=
  HyperPaletteError ("Custom mode " ++ mname ++ " was not registered")%string.

Definition registerItem (mname : string) (item : list HyperItem)
  (override silent : bool) : M (list HyperItem) :=
  p <- get ;;
  match modes_get mname (modes p) with
  | None => throw (unknown_mode mname)
  | Some _ => _register_item mname item override silent
  end.

Definition unregisterItem (mname : string) (selector : list ItemMatcher) : M unit :=
  p <- get ;;
  match modes_get mname (modes p) with
  | None => throw (unknown_mode mname)
  | Some _ => _unregister_item mname selector
  end.

(** *** The input handler *)

(** The scan [for (const mode of _modes.values())
    if (query.startsWith(mode.config.prefix)) { ...; break; }]. *)
Definition scan_modes (query : string) (ms : list (string * PaletteModeState))
  : option PaletteModeState :=
  option_map snd (find (fun km => startsWith query (prefix (config (snd km)))) ms).

(** The end of [on_input], from [clearTimeout(debounce_id)] on. A
    deferred search is recorded in [debounce_id]. *)
Definition on_input_search (raw_value : string) (force_search : bool) : M unit :=
  modify (with_debounce_id None) ;;
  ms <- the_mode_state ;;
  let query := slice (String.length (prefix (config ms))) raw_value in
  if force_search then _search_and_update query
  else modify (with_debounce_id (Some query)).

(** [on_input] with [raw_value] the text of the input element. *)
Definition on_input (raw_value : string) : M unit :=
  modify (with_searchText raw_value) ;;
  p <- get ;;
  let query := raw_value in
  let force_search := debounce p <=? 0 in
  ms <- the_mode_state ;;
  let newInputMode :=
    if negb (startsWith query (prefix (config ms))) || falsy (prefix (config ms))
    then match scan_modes query (modes p) with
         | Some m => mode m
         | None => paletteMode p
         end
    else paletteMode p in
  if negb (String.eqb newInputMode (paletteMode p)) then
    match modes_get newInputMode (modes p) with
    | None => _set_empty_results
    | Some _ =>
        modify (with_mode_state newInputMode) ;;
        modify (with_paletteMode newInputMode) ;;
        on_input_search raw_value true
    end
  else on_input_search raw_value force_search.

(** The callback of [setTimeout(_search_and_update, debounce, query)]. *)
Definition on_timeout : M unit :=
  p <- get ;;
  match debounce_id p with
  | None => ret tt
  | Some query => modify (with_debounce_id None) ;; _search_and_update query
  end.

End Engine.

(** * Vocabulary of the statements *)

(** The state a computation ends in, by return or by exception. *)
Definition state_of {A} (r : Res A) : Palette :=
  match r with
  | Ok _ p => p
  | Throw _ p => p
  end.

(** The palette once [rs] is stored as the results of the active mode and
    the selection is put on its first item. *)
Definition show_results (rs : list HyperItem) (p : Palette) : Palette :=
  with_selected (select_first rs (selected p))
    (with_modes (modes_update (mode_state p) (with_results rs) (modes p)) p).

(** An [emptyMode] among the three of [NO_RESULTS_MODE]. *)
Definition valid_empty_mode (e : NoResultsMode) : Prop :=
  match e with
  | EMPTY_OTHER _ => False
  | _ => True
  end.

(** The history ids that some item of [raw] bears, in history order. *)
Definition registered_history (h : list string) (raw : list HyperItem) : list string :=
  filter (fun i => existsb (has_id i) raw) h.









(** The call of [onUnregister] on [x], if [x] has the hook, comes back. *)
Definition unregisters_quietly (x : HyperItem) : Prop :=
  match onUnregister x with
  | Some (Throws _) => False
  | _ => True
  end.


(** The map of modes as [getModes] builds it: the keys are distinct and
    each mode is stored under its own name. *)
Definition modes_wf (ms : list (string * PaletteModeState)) : Prop :=
  NoDup (map fst ms) /\ Forall (fun km => mode (snd km) = fst km) ms.



(** No two items of one mode share an id. *)
Definition ids_unique_within_modes (p : Palette) : Prop :=
  Forall (fun km => NoDup (map id (rawAll (snd km)))) (modes p).





Definition preserves {RT : Runtime} {A} (c : M A) : Prop :=
  forall p, ids_unique_within_modes p -> ids_unique_within_modes (state_of (c p)).


(** The value a computation returned, [d] if it threw. *)
Definition value_of {A} (d : A) (r : Res A) : A :=
  match r with
  | Ok a _ => a
  | Throw _ _ => d
  end.

(** The computation returned rather than threw. *)
Definition returned {A} (r : Res A) : bool :=
  match r with
  | Ok _ _ => true
  | Throw _ _ => false
  end.

(** ** Running a computation *)

Ltac run_monad :=
  unfold update_mode_state, update_mode, when;
  unfold bind, ret, get, modify, throw, the_mode_state, the_mode; cbn beta iota.

(** What a step leaves alone is stated through an observation [F] of the
    palette that has the same value before and after. *)
Definition keeps {A B} (F : Palette -> B) (c : M A) : Prop :=
  forall p, F (state_of (c p)) = F p.

(** A field of every mode, mode by mode. *)
Definition per_mode {B} (g : PaletteModeState -> B) (p : Palette)
  : list (string * B) :=
  map (fun km => (fst km, g (snd km))) (modes p).

(** The palette that close resolution starts from: the search text is
    remembered in [lastInput] of the active mode. *)
Definition remember_input (p : Palette) : Palette :=
  with_modes (modes_update (mode_state p) (with_lastInput (searchText p)) (modes p)) p.

Definition reopen (c : bool) (p : Palette) : Palette :=
  if c && negb (open p) then with_open true p else p.


(** ** Resolution of an item *)



Ltac mstep R := unfold bind at 1; rewrite R; cbn beta iota.


(** A comparator that orders its arguments: any two are comparable, and
    the order is transitive. *)
Definition orders {A} (cmp : A -> A -> Z) : Prop :=
  (forall a b, cmp a b <= 0 \/ cmp b a <= 0) /\
  (forall a b c, cmp a b <= 0 -> cmp b c <= 0 -> cmp a c <= 0).

(** A sort whose output, once some items are taken away, is the sorted
    rest. *)
Definition removal_stable {A} (s : list A -> list A) : Prop :=
  (forall l, Permutation (s l) l) /\
  (forall f l, filter f (s l) = s (filter f l)).

(** The four collections of a mode that registration maintains:
    [rawAll], [items], the content of the searcher and [rawAllSorted]. *)
Definition Registry : Type :=
  (list HyperItem * list HyperItem * list HyperItem * list HyperItem)%type.

Definition registry_of (m : PaletteModeState) : Registry :=
  (rawAll m, items m, searcher m, rawAllSorted m).

(** What one turn of the loop of [_register_item] does to them. *)
Definition add_new (x : HyperItem) (c : Registry) : Registry :=
  let '(raw, its, se, so) := c in
  (raw ++ [x], its ++ [x], searcher_add x se, so).

Definition replace_at (i : nat) (old x : HyperItem) (c : Registry) : Registry :=
  let '(raw, its, se, so) := c in
  (array_set i x raw, array_set i x its, searcher_add x (searcher_remove old se), so).

(** The loop of [_register_item] on the collections; [None] is a throw. *)
Fixpoint registered_by {RT : Runtime} (s : PaletteModeSort) (override silent : bool)
  (unsafe_items : list HyperItem) (c : Registry) (new_items : list HyperItem)
  : option (Registry * list HyperItem) :=
  match unsafe_items with
  | [] => Some (c, new_items)
  | x :: rest =>
      let new_item := set_hcache_sort (sort_key s x) x in
      match find_index (has_id (id x)) (fst (fst (fst c))) with
      | None =>
          registered_by s override silent rest (add_new new_item c)
            (new_items ++ [new_item])
      | Some i =>
          if override then
            match nth_error (fst (fst (fst c))) i with
            | None => None
            | Some removed =>
                registered_by s override silent rest (replace_at i removed new_item c)
                  new_items
            end
          else if silent then registered_by s override silent rest c new_items
          else None
      end
  end.

(** What one turn of the loop of the reversal callback does to them. *)
Definition remove_new (x : HyperItem) (c : Registry) : Registry :=
  let '(raw, its, se, so) := c in
  match find_index (has_id (id x)) raw with
  | None => c
  | Some i => (splice1 i raw, splice1 i its, searcher_remove x se, remove_by_id (id x) so)
  end.

Definition reversed_by (new_items : list HyperItem) (c : Registry) : Registry :=
  fold_left (fun c x => remove_new x c) new_items c.

(** The items [acc] are new to [raw]: their ids are distinct and none is
    an id of [raw]. *)
Definition fresh_over (raw acc : list HyperItem) : Prop :=
  NoDup (map id acc) /\ Forall (fun x => ~ In (id x) (map id raw)) acc.

(** [x] is an item of [batch], up to its cached sort key. *)
Definition from_batch (batch : list HyperItem) (x : HyperItem) : Prop :=
  exists b, In b batch /\ oid x = oid b /\ id x = id b.

(** Two records of one object bear one id. *)
Definition one_id_per_object (l : list HyperItem) : Prop :=
  forall a b, In a l -> In b l -> oid a = oid b -> id a = id b.

(** The view [rawAllSorted] is computed by. *)
Definition view_stable (v : list HyperItem -> list HyperItem) : Prop :=
  (forall l, List.length (v l) = List.length l) /\
  (forall f l, filter f (v l) = v (filter f l)).

(** The items of [batch] whose id some item of [raw] bears: those that
    replace an item under [override]. *)
Definition replacing (raw batch : list HyperItem) : list HyperItem :=
  filter (fun x => existsb (has_id (id x)) raw) batch.

(** The collections [c1] are the collections [c0] with the one item [x]
    more, at one place in [rawAll] and [items] and somewhere in the
    searcher; no other item shares its id or is the same object. *)
Definition one_more (x : HyperItem) (c1 c0 : Registry) : Prop :=
  exists A B IA IB SA SB so1 so0,
    c1 = (A ++ x :: B, IA ++ x :: IB, SA ++ x :: SB, so1) /\
    c0 = (A ++ B, IA ++ IB, SA ++ SB, so0) /\
    List.length IA = List.length A /\
    ~ In (id x) (map id (A ++ B)) /\
    Forall (fun y => oid y <> oid x) (A ++ B) /\
    Forall (fun y => oid y <> oid x) (SA ++ SB).

(** The collections but [rawAllSorted], which the loops of registration
    do not read. *)
Definition triple (c : Registry) : list HyperItem * list HyperItem * list HyperItem :=
  let '(raw, its, se, _) := c in (raw, its, se).

(** What identifies an item: the object and its id. *)
Definition key (x : HyperItem) : nat * string := (oid x, id x).

(** The collections [c] and the batch fit together: [items] is as long
    as [rawAll], the searcher indexes ids of [rawAll] only, and no object
    bears two ids. *)
Definition fits (c : Registry) (batch : list HyperItem) : Prop :=
  let '(raw, its, se, _) := c in
  List.length its = List.length raw /\
  incl (map id se) (map id raw) /\
  one_id_per_object (raw ++ se ++ batch).

(** What registration never writes in a mode. *)
Definition static_of (m : PaletteModeState) : string * PaletteModeSort * ModeConfig :=
  (mode m, sort m, config m).

(** The mode [mname] as registration sees it. *)
Definition registry_view (mname : string) (p : Palette) :=
  option_map (fun m => (static_of m, registry_of m)) (modes_get mname (modes p)).

(** What decides whether the refresh after a registration runs, and
    whether it returns. *)
Definition control (p : Palette) :=
  (open p, mode_state p, searchText p,
   option_map (fun m => (mode m, config m)) (modes_get (mode_state p) (modes p))).

(** No [onUnregister] that registering [batch] over [raw] may call
    throws: without [override] none is called. *)
Definition registers_quietly (override : bool) (raw batch : list HyperItem) : Prop :=
  override = false \/ Forall unregisters_quietly (raw ++ batch).

(** A step that returns and writes neither the modes nor the fields read
    by the refresh. *)
Definition quiet (c : M unit) : Prop :=
  forall p, exists p', c p = Ok tt p' /\ modes p' = modes p /\ open p' = open p /\
                       mode_state p' = mode_state p /\ searchText p' = searchText p.

(** The run [r] of a loop of registration from [p] does what the
    computation [o] on the collections says: it returns the new items
    and leaves the collections [o] gives, or throws when [o] is [None];
    it may throw as well when the hooks it calls do not all come back,
    that is when [quietly] fails. *)
Definition runs_as (mname : string) (st : string * PaletteModeSort * ModeConfig)
  (p : Palette) (r : Res (list HyperItem * list HyperItem))
  (o : option (Registry * list HyperItem)) (quietly : Prop) : Prop :=
  match o with
  | Some (c', news) =>
      (exists removed p',
         r = Ok (news, removed) p' /\
         registry_view mname p' = Some (st, c') /\
         control p' = control p) \/
      (~ quietly /\ exists e p', r = Throw e p')
  | None => exists e p', r = Throw e p'
  end.

(** The collections of a mode agree with one another: [items] is as long
    as [rawAll], the searcher holds the items of [rawAll], and
    [rawAllSorted] is the sorted view of [rawAll]. *)
Definition in_sync {RT : Runtime} (m : PaletteModeState) : Prop :=
  List.length (items m) = List.length (rawAll m) /\
  Permutation (searcher m) (rawAll m) /\
  rawAllSorted m = sorted_view (sort m) (sortMode (config m)) (rawAll m).

(** An [emptyMode] outside the three of [NO_RESULTS_MODE]. *)
Definition is_other (e : NoResultsMode) : bool :=
  match e with EMPTY_OTHER _ => true | _ => false end.

(** The collections with [rawAllSorted] computed anew, as
    [_register_item] does after its loop. *)
Definition resorted {RT : Runtime} (st : string * PaletteModeSort * ModeConfig)
  (c : Registry) : Registry :=
  let '(_, s, cfg) := st in
  let '(raw, its, se, _) := c in
  (raw, its, se, sorted_view s (sortMode cfg) raw).


(** The selection [s] points at a result of [rs]: it is cleared, or
    [idx] is the place of an item of [rs] and [id] is the id of that item. *)
Definition selection_on (rs : list HyperItem) (s : PaletteSelected) : Prop :=
  (idx s = -1 /\ sel_id s = None) \/
  (exists it, array_get rs (idx s) = Some it /\ sel_id s = Some (id it)).

(** The selection of the palette points at a result of the active mode. *)
Definition selection_ok (p : Palette) : Prop :=
  exists ms, modes_get (mode_state p) (modes p) = Some ms /\
             selection_on (results ms) (selected p).

(** The results a search for [pattern] finds in the mode [ms]; [None]
    when the pattern is empty and [emptyMode] is none of the three of
    [NO_RESULTS_MODE]. *)
Definition search_results {RT : Runtime} (pattern : string) (ms : PaletteModeState)
  : option (list HyperItem) :=
  if String.eqb pattern "" then
    match emptyMode (config ms) with
    | EMPTY_ALL => Some (rawAllSorted ms)
    | EMPTY_HISTORY => Some (history_results (history ms) (rawAll ms))
    | EMPTY_NONE => Some []
    | EMPTY_OTHER _ => None
    end
  else Some (sorter (sort ms)
               (searcher_search (mapToSearch (config ms)) (searcher ms) pattern)).

(** [c], [k] times in a row. *)
Fixpoint times (k : nat) (c : M unit) : M unit :=
  match k with
  | O => ret tt
  | S k' => c ;; times k' c
  end.

(** The refresh after a registration has nothing to throw: the palette is
    closed, or the active mode exists and its [emptyMode] is valid. *)
Definition refresh_safe (p : Palette) : Prop :=
  open p = false \/
  exists ma, modes_get (mode_state p) (modes p) = Some ma /\
             valid_empty_mode (emptyMode (config ma)).

(** What the body of the loop of [_unregister_item] does to the
    collections at the index [k]; [None] when there is no such index. *)
Definition remove_at (k : nat) (c : Registry) : option Registry :=
  let '(raw, its, se, so) := c in
  match nth_error raw k with
  | None => None
  | Some x => Some (splice1 k raw, splice1 k its, searcher_remove x se,
                    remove_by_id (id x) so)
  end.

(** * The handlers of the form and of an item element *)

(** A call of an [async] function whose promise is dropped: the caller
    goes on whatever the outcome, and a rejection is not raised in it.
    The call runs to its end here: no other handler runs in between. *)
Definition detached (m : M unit) : M unit :=
  fun p => match m p with
           | Ok _ p' => Ok tt p'
           | Throw _ p' => Ok tt p'
           end.

(** The dispatch on [item.type] that ends [on_submit] and [on_click]. *)
Definition resolve_item {RT : Runtime} (item : HyperItem) (source : ItemRequestSource)
  : M unit :=
  match type item with
  | ACTIONABLE => _resolve_actionable item source
  | NAVIGABLE => _resolve_navigable item source
  | SEARCHABLE => _resolve_searchable item source
  end.

(** A number in a template literal. *)
Definition number_text (i : Z) : string :=
  DecimalString.NilZero.string_of_int (Z.to_int i).

(** [on_submit] of the form. *)
Definition on_submit {RT : Runtime} : M unit :=
  ms <- the_mode_state ;;
  if Nat.eqb (List.length (results ms)) 0 then ret tt
  else
    p <- get ;;
    chosen <- (if idx (selected p) <? 0 then
                 match array_get (results ms) 0 with
                 | Some item =>
                     modify (fun p => with_selected
                       {| el := el (selected p); sel_id := Some (id item); idx := 0 |} p) ;;
                     ret (0, Some item)
                 | None =>
                     throw (TypeError "Cannot read properties of undefined (reading 'id')")
                 end
               else ret (idx (selected p), array_get (results ms) (idx (selected p)))) ;;
    match snd chosen with
    | None =>
        throw (HyperPaletteError
                 ("Invalid selected index: " ++ number_text (fst chosen)
                  ++ " for [object Object]")%string)
    | Some item => detached (resolve_item item SrcSubmit)
    end.

(** [on_click] of an item element; [attr] is its [data-hyper-id]
    attribute, [None] when [getAttribute] gives [null]. *)
Definition on_click {RT : Runtime} (attr : option string) : M unit :=
  ms <- the_mode_state ;;
  match match attr with
        | Some i => find_index (has_id i) (results ms)
        | None => None
        end with
  | None =>
      throw (HyperPaletteError
               ("Invalid item id: " ++ match attr with Some i => i | None => "null" end)%string)
  | Some k =>
      match nth_error (results ms) k with
      | None => throw (HyperPaletteError "Invalid item: undefined mode: [object Object]")
      | Some item => detached (resolve_item item SrcClick)
      end
  end.

(** [on_keydown] of the input; [Escape] and [Tab] write nothing. *)
Definition on_keydown (key : string) : M unit :=
  if String.eqb key "ArrowDown" then _select_next_result
  else if String.eqb key "ArrowUp" then _select_previous_result
  else ret tt.


(** * Construction: [getModes], [getInitialMode] and the first state *)

(** What the browser contributes to [getModes]: [String.prototype.trim],
    the string value of a property of an item ([None] when the item has
    no such property or its value is no string), and the two default
    navigation hooks, [window.open(url, '_blank')] and
    [window.location.href = url]. *)
Class Browser := {
  trim : string -> string;
  item_field : string -> HyperItem -> option string;
  window_open : string -> Outcome unit;
  location_assign : string -> Outcome unit
}.

(** [sortBy] of the options of a mode: missing (or falsy), a function, an
    array of keys, or anything else, with the text it prints as. *)
Inductive SortBy :=
| SortByNone
| SortByFunction (f : list HyperItem -> list HyperItem)
| SortByKeys (keys : list string)
| SortByOther (text : string).

(** The options of one mode, as [getModes] reads them; a missing member
    is [None].  [opt_type] is the item type, or the text of any other
    value. *)
Record ModeOptions := {
  opt_type : HyperItemType + string;
  opt_prefix : string;
  opt_mapToSearch : HyperItem -> string;
  opt_emptyMode : option NoResultsMode;
  opt_shortcut : option (list string);
  opt_sortBy : SortBy;
  opt_sortMode : option SortMode;
  opt_onExternal : option (string -> Outcome unit);
  opt_onLocal : option (string -> Outcome unit);
  opt_onNavigation : option (HyperItem -> Outcome unit);
  opt_onError : option (Exn -> HyperItem -> ItemRequestSource -> Outcome unit)
}.

(** [a ?? b]. *)
Definition nullish {A} (a : option A) (b : A) : A :=
  match a with Some v => v | None => b end.

(** [mode_config] of [getModes].  Its members [closeOn] and [sortBy],
    which nothing reads once the mode is built, have no field in
    [ModeConfig]. *)
Definition mode_config_of {BR : Browser} (options : ModeOptions) : Exn + ModeConfig :=
  match opt_type options with
  | inl ACTIONABLE =>
      inr {| cfg_type := ACTIONABLE; prefix := opt_prefix options;
             mapToSearch := opt_mapToSearch options;
             emptyMode := nullish (opt_emptyMode options) EMPTY_ALL;
             cfg_shortcut := nullish (opt_shortcut options) [];
             sortMode := nullish (opt_sortMode options) SORTED;
             onExternal := None; onLocal := None; onNavigation := None;
             cfg_onError := None |}
  | inl NAVIGABLE =>
      inr {| cfg_type := NAVIGABLE; prefix := opt_prefix options;
             mapToSearch := opt_mapToSearch options;
             emptyMode := nullish (opt_emptyMode options) EMPTY_ALL;
             cfg_shortcut := nullish (opt_shortcut options) [];
             sortMode := nullish (opt_sortMode options) SORTED;
             onExternal := Some (nullish (opt_onExternal options) window_open);
             onLocal := Some (nullish (opt_onLocal options) location_assign);
             onNavigation := opt_onNavigation options;
             cfg_onError := opt_onError options |}
  | inl SEARCHABLE =>
      inr {| cfg_type := SEARCHABLE; prefix := opt_prefix options;
             mapToSearch := opt_mapToSearch options;
             emptyMode := nullish (opt_emptyMode options) EMPTY_ALL;
             cfg_shortcut := nullish (opt_shortcut options) [];
             sortMode := nullish (opt_sortMode options) SORTED;
             onExternal := None; onLocal := None; onNavigation := None;
             cfg_onError := None |}
  | inr text => inl (HyperPaletteError ("Invalid item type: '" ++ text ++ "'")%string)
  end.

(** The mapper of a mode sorted by keys: the trimmed string values of
    the properties of the item named by the keys, one after the other. *)
Definition keys_mapper {BR : Browser} (keys : list string) (item : HyperItem) : string :=
  fold_left (fun result key =>
               match item_field key item with
               | Some value => (result ++ trim value)%string
               | None => result
               end) keys ""%string.

(** [modeSort] of [getModes]. *)
Definition mode_sort_of {BR : Browser} (options : ModeOptions) : Exn + PaletteModeSort :=
  match opt_sortBy options with
  | SortByNone => inr (SortSearch (opt_mapToSearch options))
  | SortByFunction f => inr (SortCustom f)
  | SortByKeys [] => inl (HyperPaletteError "Invalid sortBy: ''")
  | SortByKeys keys => inr (SortKeys (keys_mapper keys))
  | SortByOther text => inl (HyperPaletteError ("Invalid sortBy: '" ++ text ++ "'")%string)
  end.

(** The state a mode starts in. *)
Definition new_mode (name : string) (s : PaletteModeSort) (cfg : ModeConfig)
  : PaletteModeState :=
  {| mode := name; sort := s; config := cfg; items := []; results := [];
     history := []; searcher := []; current := None; rawAll := [];
     rawAllSorted := []; lastInput := "" |}.

(** The loop of [getModes] over the entries of the [modes] option, an
    object whose values are objects; [modes] and [prefixes] are the map
    and the set built so far. *)
Fixpoint getModes_loop {BR : Browser} (entries : list (string * ModeOptions))
  (modes : list (string * PaletteModeState)) (prefixes : list string)
  : Exn + list (string * PaletteModeState) :=
  match entries with
  | [] => inr modes
  | (name, options) :: rest =>
      match modes_get name modes with
      | Some _ => inl (HyperPaletteError ("Duplicate mode: '" ++ name ++ "'")%string)
      | None =>
          if existsb (String.eqb (opt_prefix options)) prefixes
          then inl (HyperPaletteError
                      ("Duplicate prefix: '" ++ opt_prefix options ++ "'")%string)
          else
            match mode_config_of options with
            | inl e => inl e
            | inr cfg =>
                match mode_sort_of options with
                | inl e => inl e
                | inr s =>
                    getModes_loop rest (modes ++ [(name, new_mode name s cfg)])
                      (prefixes ++ [opt_prefix options])
                end
            end
      end
  end.

Definition getModes {BR : Browser} (entries : list (string * ModeOptions))
  : Exn + list (string * PaletteModeState) :=
  getModes_loop entries [] [].

(** [getInitialMode]; an [initial] that is missing is [None]. *)
Definition getInitialMode (modes : list (string * PaletteModeState)) (search : string)
  (initial : option string) : Exn + PaletteModeState :=
  let found :=
    if negb (falsy search) then inr (scan_modes search modes)
    else
      match initial with
      | Some name =>
          if falsy name then inr None
          else
            match modes_get name modes with
            | Some m => inr (Some m)
            | None =>
                inl (HyperPaletteError
                       ("Invalid initial mode: '" ++ name ++ "', expected one of '"
                        ++ String.concat "," (map fst modes) ++ "'")%string)
            end
      | None => inr None
      end in
  match found with
  | inl e => inl e
  | inr (Some m) => inr m
  | inr None =>
      match modes with
      | (_, m) :: _ => inr m
      | [] =>
          inl (HyperPaletteError
                 ("Initial mode couldn't be resolved from default search '" ++ search
                  ++ "' and default mode '" ++ nullish initial "undefined" ++ "'")%string)
      end
  end.

(** The options of [createPalette] that the engine reads; a missing one
    is [None] and takes the default of [defaults].  [o_open] is the value
    of the [open] store handed in, if one is. *)
Record PaletteOptions := {
  o_modes : list (string * ModeOptions);
  o_closeAction : option PaletteCloseAction;
  o_debounce : option Z;
  o_resetOnOpen : option bool;
  o_open : option bool;
  o_default_open : option bool;
  o_default_search : option string;
  o_default_mode : option string
}.

(** The closure state [createPalette] starts from. *)
Definition createPalette {BR : Browser} (o : PaletteOptions) : Exn + Palette :=
  match getModes (o_modes o) with
  | inl e => inl e
  | inr ms =>
      match getInitialMode ms (nullish (o_default_search o) "") (o_default_mode o) with
      | inl e => inl e
      | inr m =>
          inr {| modes := ms; mode_state := mode m;
                 open := nullish (o_open o) (nullish (o_default_open o) false);
                 searchText := nullish (o_default_search o) "";
                 paletteMode := mode m;
                 closeAction := nullish (o_closeAction o) RESET;
                 debounce := nullish (o_debounce o) 150;
                 resetOnOpen := nullish (o_resetOnOpen o) false;
                 error := None;
                 selected := {| el := None; sel_id := None; idx := -1 |};
                 debounce_id := None; shorcuts_cleanup := []; calls := [] |}
      end
  end.

(** A mode as [getModes] builds it: stored under its own name, with
    empty collections. *)
Definition brand_new (km : string * PaletteModeState) : Prop :=
  mode (snd km) = fst km /\
  items (snd km) = [] /\ results (snd km) = [] /\ history (snd km) = [] /\
  searcher (snd km) = [] /\ current (snd km) = None /\ rawAll (snd km) = [] /\
  rawAllSorted (snd km) = [] /\ lastInput (snd km) = "".

(** What the loop of [_unregister_item] over the indices [ks] does to
    the collections. *)
Fixpoint removed_at (ks : list nat) (c : Registry) : option Registry :=
  match ks with
  | [] => Some c
  | k :: rest =>
      match remove_at k c with
      | Some c' => removed_at rest c'
      | None => None
      end
  end.

(** [l] after the entries at the indices [ks] are spliced out, one after
    the other. *)
Definition splice_all {A} (ks : list nat) (l : list A) : list A :=
  fold_left (fun l k => splice1 k l) ks l.

(** Each of the indices [ks] is an index of the list it is spliced out
    of. *)
Fixpoint in_range {A} (ks : list nat) (l : list A) : bool :=
  match ks with
  | [] => true
  | k :: rest => (k <? List.length l)%nat && in_range rest (splice1 k l)
  end.

(** The [onUnregister] of each item taken away at the indices [ks], one
    after the other, comes back. *)
Fixpoint removed_quietly (ks : list nat) (l : list HyperItem) : Prop :=
  match ks with
  | [] => True
  | k :: rest =>
      (forall x, nth_error l k = Some x -> unregisters_quietly x) /\
      removed_quietly rest (splice1 k l)
  end.

(** * A small palette

    Two modes and a few items, on which the statements below are
    exercised. *)

Module Scenario.

(** A runtime in which lowering the case does nothing, strings compare by
    their characters and a search keeps the items whose text starts
    with the pattern. *)
Definition runtime : Runtime :=
  {| toLowerCase := fun s => s;
     localeCompare := fun a b =>
       match String.compare a b with Lt => -1 | Eq => 0 | Gt => 1 end;
     searcher_search := fun mapper contents pattern =>
       filter (fun it => String.prefix pattern (mapper it)) contents |}.

(** An actionable item whose hooks succeed. *)
Definition item (n : nat) (i : string) : HyperItem :=
  {| oid := n; type := ACTIONABLE; id := i; name := i; hcache_sort := i;
     shortcut := None; closeOn := None;
     onRequest := fun _ => Returns JsUndefined;
     onAction := fun _ _ => Returns tt;
     onError := None; onUnregister := None;
     external := false; url := "" |}.



(** An item whose [onUnregister] throws. *)
Definition clinging_item (n : nat) (i : string) : HyperItem :=
  {| oid := n; type := ACTIONABLE; id := i; name := i; hcache_sort := i;
     shortcut := Some ["ctrl+k"]; closeOn := None;
     onRequest := fun _ => Returns JsUndefined;
     onAction := fun _ _ => Returns tt;
     onError := None; onUnregister := Some (Throws (Thrown "stay"));
     external := false; url := "" |}.


Definition mode_config (pre : string) (e : NoResultsMode) : ModeConfig :=
  {| cfg_type := ACTIONABLE; prefix := pre; mapToSearch := name;
     emptyMode := e; cfg_shortcut := []; sortMode := SORTED;
     onExternal := None; onLocal := None; onNavigation := None;
     cfg_onError := None |}.


(** A mode holding [raw], every collection in step with it. *)
Definition mode_with (n pre : string) (e : NoResultsMode) (raw : list HyperItem)
  : PaletteModeState :=
  {| mode := n; sort := SortSearch name; config := mode_config pre e;
     items := raw; results := raw; history := []; searcher := raw;
     current := None; rawAll := raw; rawAllSorted := raw; lastInput := "" |}.

Definition palette_of (ms : list (string * PaletteModeState)) (active : string)
  (sel : PaletteSelected) : Palette :=
  {| modes := ms; mode_state := active; open := true; searchText := "";
     paletteMode := active; closeAction := RESET; debounce := 150;
     resetOnOpen := false; error := None; selected := sel;
     debounce_id := None; shorcuts_cleanup := []; calls := [] |}.

Definition abc : list HyperItem := [item 1 "a"; item 2 "b"; item 3 "c"].

Definition commands : PaletteModeState := mode_with "commands" ">" EMPTY_ALL abc.
Definition pages : PaletteModeState := mode_with "default" "" EMPTY_ALL [].

(** [commands] is active and its first result is selected. *)
Definition on_first : Palette :=
  palette_of [("commands", commands); ("default", pages)] "commands"
    {| el := None; sel_id := Some "a"; idx := 0 |}.

(** A mode that shows its history on an empty query; one id of the
    history is no longer registered. *)
Definition recent : PaletteModeState :=
  with_history ["c"; "gone"; "a"] (mode_with "commands" ">" EMPTY_HISTORY abc).

Definition with_recent : Palette :=
  palette_of [("commands", recent); ("default", pages)] "commands"
    {| el := None; sel_id := None; idx := -1 |}.

(** A mode that holds an item whose [onUnregister] throws, with its
    shortcut bound. *)
Definition clung : PaletteModeState :=
  mode_with "commands" ">" EMPTY_ALL [clinging_item 1 "k"; item 2 "b"].

Definition sticky : Palette :=
  with_shorcuts_cleanup [("k", ["ctrl+k"])]
    (palette_of [("commands", clung); ("default", pages)] "commands"
       {| el := None; sel_id := Some "k"; idx := 0 |}).






(** Two modes without items. *)
Definition fresh : Palette :=
  palette_of [("commands", mode_with "commands" ">" EMPTY_ALL []); ("default", pages)]
    "commands" {| el := None; sel_id := None; idx := -1 |}.

(** [on_first] after a registration that threw on its second item: the
    first item is in [rawAll], and [rawAllSorted] was not recomputed. *)
Definition stale : Palette :=
  state_of (@registerItem runtime "commands" [item 4 "d"; item 1 "a"] false false
              on_first).

(** The same palette with the selection cleared. *)
Definition cleared : Palette :=
  palette_of [("commands", commands); ("default", pages)] "commands"
    {| el := None; sel_id := None; idx := -1 |}.

End Scenario.

(** * Properties *)

Lemma modes_get_update_same key f ms :
  modes_get key (modes_update key f ms) = option_map f (modes_get key ms).
Proof.
  induction ms as [|[k m] r IH]; cbn; [reflexivity|].
  destruct (String.eqb k key) eqn:E; cbn; rewrite E; auto.
Qed.

Lemma modes_get_update_other key key' f ms :
  key <> key' ->
  modes_get key' (modes_update key f ms) = modes_get key' ms.
Proof.
  intros Hne. induction ms as [|[k m] r IH]; cbn; [reflexivity|].
  destruct (String.eqb k key) eqn:E; cbn.
  - apply String.eqb_eq in E. subst k.
    destruct (String.eqb key key') eqn:E'; [apply String.eqb_eq in E'; contradiction|reflexivity].
  - destruct (String.eqb k key'); auto.
Qed.

Lemma modes_update_update key f g ms :
  modes_update key g (modes_update key f ms) = modes_update key (fun m => g (f m)) ms.
Proof.
  induction ms as [|[k m] r IH]; cbn; [reflexivity|].
  destruct (String.eqb k key) eqn:E; cbn; rewrite E; [reflexivity|].
  now rewrite IH.
Qed.

Lemma array_get_nth A (l : list A) (i : Z) :
  0 <= i < Z.of_nat (List.length l) ->
  exists x, array_get l i = Some x.
Proof.
  intros Hi. unfold array_get.
  destruct (i <? 0) eqn:E; [apply Z.ltb_lt in E; lia|].
  destruct (nth_error l (Z.to_nat i)) eqn:N; [eauto|].
  apply nth_error_None in N. lia.
Qed.

(** [select_index] at an index inside [rs]. *)
Lemma select_index_inside rs i it p :
  array_get rs i = Some it ->
  select_index rs i p =
  Ok tt (with_selected {| el := el (selected p); sel_id := Some (id it); idx := i |} p).
Proof.
  intros H. unfold select_index. run_monad. rewrite H. reflexivity.
Qed.

(** ** The selection cursor *)

Section SelectionCursor.
Variable p : Palette.
Variable ms : PaletteModeState.
Hypothesis active : modes_get (mode_state p) (modes p) = Some ms.

Local Abbreviation n := (Z.of_nat (List.length (results ms))).

Lemma select_next_empty : results ms = [] -> _select_next_result p = Ok tt p.
Proof.
  intros E. unfold _select_next_result. run_monad. rewrite active, E. reflexivity.
Qed.

Lemma select_previous_empty : results ms = [] -> _select_previous_result p = Ok tt p.
Proof.
  intros E. unfold _select_previous_result. run_monad. rewrite active, E. reflexivity.
Qed.

Lemma results_length_pos : results ms <> [] -> 0 < n.
Proof. unfold n. destruct (results ms); [congruence|cbn; lia]. Qed.

Lemma select_next_from i :
  results ms <> [] -> 0 <= i -> idx (selected p) = i ->
  exists it, array_get (results ms) ((i + 1) mod n) = Some it /\
    _select_next_result p =
    Ok tt (with_selected {| el := el (selected p); sel_id := Some (id it);
                            idx := (i + 1) mod n |} p).
Proof.
  intros Hne Hi Hidx. pose proof (results_length_pos Hne) as Hn.
  destruct (@array_get_nth _ (results ms) ((i + 1) mod n)) as [it Hit].
  { fold n. apply Z.mod_pos_bound. lia. }
  exists it. split; [exact Hit|].
  unfold _select_next_result. run_monad. rewrite active. fold n.
  destruct (n =? 0) eqn:E0; [apply Z.eqb_eq in E0; lia|].
  rewrite Hidx.
  destruct (i =? -1) eqn:E1; [apply Z.eqb_eq in E1; lia|].
  rewrite Z.rem_mod_nonneg by lia.
  apply select_index_inside. exact Hit.
Qed.

Lemma select_previous_from i :
  results ms <> [] -> 0 <= i -> idx (selected p) = i ->
  exists it, array_get (results ms) ((i - 1 + n) mod n) = Some it /\
    _select_previous_result p =
    Ok tt (with_selected {| el := el (selected p); sel_id := Some (id it);
                            idx := (i - 1 + n) mod n |} p).
Proof.
  intros Hne Hi Hidx. pose proof (results_length_pos Hne) as Hn.
  destruct (@array_get_nth _ (results ms) ((i - 1 + n) mod n)) as [it Hit].
  { fold n. apply Z.mod_pos_bound. lia. }
  exists it. split; [exact Hit|].
  unfold _select_previous_result. run_monad. rewrite active. fold n.
  destruct (n =? 0) eqn:E0; [apply Z.eqb_eq in E0; lia|].
  rewrite Hidx.
  destruct (i =? -1) eqn:E1; [apply Z.eqb_eq in E1; lia|].
  rewrite Z.rem_mod_nonneg by lia.
  apply select_index_inside. exact Hit.
Qed.

Lemma select_next_cleared :
  forall r0 rest, results ms = r0 :: rest -> idx (selected p) = -1 ->
  _select_next_result p =
  Ok tt (with_selected {| el := el (selected p); sel_id := Some (id r0); idx := 0 |} p).
Proof.
  intros r0 rest E Hidx. unfold _select_next_result. run_monad.
  rewrite active. cbn beta iota. rewrite E. cbn [List.length].
  destruct (Z.of_nat (S (List.length rest)) =? 0) eqn:E0; [apply Z.eqb_eq in E0; lia|].
  rewrite Hidx. cbn [Z.eqb Pos.eqb]. apply select_index_inside. reflexivity.
Qed.

Lemma select_previous_cleared :
  forall it, results ms <> [] -> array_get (results ms) (n - 1) = Some it ->
  idx (selected p) = -1 ->
  _select_previous_result p =
  Ok tt (with_selected {| el := el (selected p); sel_id := Some (id it);
                          idx := n - 1 |} p).
Proof.
  intros it Hne Hit Hidx. pose proof (results_length_pos Hne) as Hn.
  unfold _select_previous_result. run_monad. rewrite active. fold n.
  destruct (n =? 0) eqn:E0; [apply Z.eqb_eq in E0; lia|].
  rewrite Hidx. cbn [Z.eqb Pos.eqb]. apply select_index_inside. exact Hit.
Qed.
End SelectionCursor.

(** C5. [selectNext] and [selectPrevious] do nothing on empty results;
    from a selected index [i] they move to [(i + 1) mod n] and to
    [(i - 1 + n) mod n], [n] the number of results, and set the selected id
    to the id of the item there.  With three results and index 0, three
    [selectNext] in a row come back to index 0 and one [selectPrevious]
    lands on index 2. *)
Theorem selection_cycles (p : Palette) (ms : PaletteModeState)
  (active : modes_get (mode_state p) (modes p) = Some ms) :
  let n := Z.of_nat (List.length (results ms)) in
  (results ms = [] ->
     _select_next_result p = Ok tt p /\ _select_previous_result p = Ok tt p) /\
  (forall i, results ms <> [] -> 0 <= i -> idx (selected p) = i ->
     (exists it, array_get (results ms) ((i + 1) mod n) = Some it /\
        _select_next_result p =
        Ok tt (with_selected {| el := el (selected p); sel_id := Some (id it);
                                idx := (i + 1) mod n |} p)) /\
     (exists it, array_get (results ms) ((i - 1 + n) mod n) = Some it /\
        _select_previous_result p =
        Ok tt (with_selected {| el := el (selected p); sel_id := Some (id it);
                                idx := (i - 1 + n) mod n |} p))) /\
  (forall a b c, results ms = [a; b; c] -> idx (selected p) = 0 ->
     (exists p3,
        (_select_next_result ;; _select_next_result ;; _select_next_result)%palette p
        = Ok tt p3 /\
        idx (selected p3) = 0 /\ sel_id (selected p3) = Some (id a)) /\
     (exists p1,
        _select_previous_result p = Ok tt p1 /\
        idx (selected p1) = 2 /\ sel_id (selected p1) = Some (id c))).
Proof.
  intros n. split; [|split].
  - intros E. split; [eapply select_next_empty|eapply select_previous_empty]; eauto.
  - intros i Hne Hi Hidx. split.
    + eapply select_next_from; eauto.
    + eapply select_previous_from; eauto.
  - intros a b c E Hidx.
    assert (Hne : results ms <> []) by (rewrite E; discriminate).
    split.
    + destruct (select_next_from p active Hne (i := 0) ltac:(lia) Hidx) as (i1 & G1 & R1).
      rewrite E in G1. cbn in G1. injection G1 as <-.
      rewrite E in R1. cbn [List.length Z.of_nat] in R1.
      set (p1 := with_selected _ p) in R1.
      destruct (select_next_from p1 (ms := ms) active Hne (i := 1) ltac:(lia) eq_refl)
        as (i2 & G2 & R2).
      rewrite E in G2. cbn in G2. injection G2 as <-.
      rewrite E in R2. cbn [List.length Z.of_nat] in R2.
      set (p2 := with_selected _ p1) in R2.
      destruct (select_next_from p2 (ms := ms) active Hne (i := 2) ltac:(lia) eq_refl)
        as (i3 & G3 & R3).
      rewrite E in G3. cbn in G3. injection G3 as <-.
      rewrite E in R3. cbn [List.length Z.of_nat] in R3.
      eexists. split.
      * unfold bind at 1. rewrite R1. unfold bind. rewrite R2. exact R3.
      * split; reflexivity.
    + destruct (select_previous_from p active Hne (i := 0) ltac:(lia) Hidx) as (i1 & G1 & R1).
      rewrite E in G1. cbn in G1. injection G1 as <-.
      rewrite E in R1. eexists. split; [exact R1|]. split; reflexivity.
Qed.

Lemma selection_cycles_witness :
  modes_get (mode_state Scenario.on_first) (modes Scenario.on_first)
  = Some Scenario.commands /\
  exists p1, _select_previous_result Scenario.on_first = Ok tt p1 /\
             idx (selected p1) = 2 /\ sel_id (selected p1) = Some "c".
Proof.
  split; [reflexivity|].
  exact (proj2 (proj2 (proj2 (selection_cycles Scenario.on_first eq_refl))
                  (Scenario.item 1 "a") (Scenario.item 2 "b") (Scenario.item 3 "c")
                  eq_refl eq_refl)).
Defined.

(** C10. With the selection cleared (index -1) and results that are not
    empty, [selectNext] selects index 0 and [selectPrevious] the last
    index, each with the id of the item there; for [selectPrevious] this
    is not what the modular decrement gives as soon as there are two
    results. *)
Theorem selection_from_cleared (p : Palette) (ms : PaletteModeState)
  (active : modes_get (mode_state p) (modes p) = Some ms)
  (nonempty : results ms <> [])
  (cleared : idx (selected p) = -1) :
  let n := Z.of_nat (List.length (results ms)) in
  (exists first, array_get (results ms) 0 = Some first /\
     _select_next_result p =
     Ok tt (with_selected {| el := el (selected p); sel_id := Some (id first);
                             idx := 0 |} p)) /\
  (exists final, array_get (results ms) (n - 1) = Some final /\
     _select_previous_result p =
     Ok tt (with_selected {| el := el (selected p); sel_id := Some (id final);
                             idx := n - 1 |} p)) /\
  (2 <= n -> n - 1 <> Z.rem (idx (selected p) - 1 + n) n).
Proof.
  intros n. pose proof (results_length_pos ms nonempty) as Hn. fold n in Hn.
  split; [|split].
  - destruct (results ms) as [|r0 rest] eqn:E; [congruence|].
    exists r0. split; [reflexivity|].
    eapply select_next_cleared; eauto.
  - destruct (@array_get_nth _ (results ms) (n - 1)) as [it Hit]; [fold n; lia|].
    exists it. split; [exact Hit|].
    eapply select_previous_cleared; eauto.
  - intros H2. rewrite cleared.
    replace (-1 - 1 + n) with (n - 2) by lia.
    rewrite Z.rem_mod_nonneg by lia. rewrite Z.mod_small by lia. lia.
Qed.

Lemma selection_from_cleared_witness :
  exists final, array_get (results Scenario.commands) 2 = Some final /\
    _select_previous_result Scenario.cleared =
    Ok tt (with_selected {| el := None; sel_id := Some (id final); idx := 2 |}
             Scenario.cleared).
Proof.
  exact (proj1 (proj2 (@selection_from_cleared Scenario.cleared Scenario.commands
                         eq_refl ltac:(discriminate) eq_refl))).
Defined.

(** ** The empty query *)

Lemma modes_get_show_results rs p ms :
  modes_get (mode_state p) (modes p) = Some ms ->
  modes_get (mode_state p) (modes (show_results rs p)) = Some (with_results rs ms).
Proof.
  intros H. unfold show_results. cbn. rewrite modes_get_update_same, H. reflexivity.
Qed.

Lemma search_and_update_shows {RT : Runtime} pattern p ms rs :
  modes_get (mode_state p) (modes p) = Some ms ->
  (if String.eqb pattern "" then
     match emptyMode (config ms) with
     | EMPTY_ALL => Some (rawAllSorted ms)
     | EMPTY_HISTORY => Some (history_results (history ms) (rawAll ms))
     | EMPTY_NONE => Some []
     | EMPTY_OTHER _ => None
     end
   else Some (sorter (sort ms)
                (searcher_search (mapToSearch (config ms)) (searcher ms) pattern)))
  = Some rs ->
  _search_and_update pattern p = Ok tt (show_results rs p).
Proof.
  intros active Hrs. unfold _search_and_update. run_monad. rewrite active. cbn beta iota.
  destruct (String.eqb pattern "").
  - destruct (emptyMode (config ms)); try discriminate; injection Hrs as <-;
      cbn; rewrite active; reflexivity.
  - injection Hrs as <-. cbn. rewrite active. reflexivity.
Qed.

Lemma search_and_update_invalid {RT : Runtime} p ms v :
  modes_get (mode_state p) (modes p) = Some ms ->
  emptyMode (config ms) = EMPTY_OTHER v ->
  _search_and_update "" p = Throw (HyperPaletteError ("Invalid empty mode: " ++ v)%string) p.
Proof.
  intros active E. unfold _search_and_update. run_monad. rewrite active. cbn beta iota.
  cbn [String.eqb]. rewrite E. reflexivity.
Qed.

Lemma history_results_ids h raw :
  map id (history_results h raw) = registered_history h raw.
Proof.
  induction h as [|i r IH]; [reflexivity|]. cbn [history_results registered_history filter].
  destruct (find (has_id i) raw) as [it|] eqn:F.
  - assert (existsb (has_id i) raw = true) as ->.
    { apply existsb_exists. apply find_some in F. exists it. exact F. }
    cbn [map]. f_equal; [|exact IH].
    apply find_some in F. destruct F as [_ F]. now apply String.eqb_eq in F.
  - assert (existsb (has_id i) raw = false) as ->; [|exact IH].
    destruct (existsb (has_id i) raw) eqn:X; [|reflexivity].
    apply existsb_exists in X. destruct X as (x & Hx & Hi).
    apply (find_none _ _ F) in Hx. congruence.
Qed.

Lemma history_results_first h raw :
  Forall (fun it => find (has_id (id it)) raw = Some it) (history_results h raw).
Proof.
  induction h as [|i r IH]; [constructor|]. cbn [history_results].
  destruct (find (has_id i) raw) as [it|] eqn:F; [|exact IH].
  constructor; [|exact IH].
  pose proof (find_some _ _ F) as [_ Hi]. apply String.eqb_eq in Hi.
  rewrite Hi. exact F.
Qed.

(** C6. On an empty query, [ALL] shows [rawAllSorted] as it is, [HISTORY]
    shows, in history order, the first item of [rawAll] bearing each
    history id and skips the ids no item bears, [NONE] shows nothing, and
    any other [emptyMode] throws; a search text that is just the prefix
    reaches this case. *)
Theorem empty_query_policy {RT : Runtime} (p : Palette) (ms : PaletteModeState)
  (active : modes_get (mode_state p) (modes p) = Some ms) :
  (emptyMode (config ms) = EMPTY_ALL ->
     _search_and_update "" p = Ok tt (show_results (rawAllSorted ms) p)) /\
  (emptyMode (config ms) = EMPTY_HISTORY ->
     exists rs,
       _search_and_update "" p = Ok tt (show_results rs p) /\
       map id rs = registered_history (history ms) (rawAll ms) /\
       Forall (fun it => find (has_id (id it)) (rawAll ms) = Some it) rs) /\
  (emptyMode (config ms) = EMPTY_NONE ->
     _search_and_update "" p = Ok tt (show_results [] p)) /\
  (forall v, emptyMode (config ms) = EMPTY_OTHER v ->
     _search_and_update "" p
     = Throw (HyperPaletteError ("Invalid empty mode: " ++ v)%string) p) /\
  (slice (String.length (prefix (config ms))) (searchText p) = "" ->
     _update_results p = _search_and_update "" p) /\
  (forall rs, option_map results (modes_get (mode_state p) (modes (show_results rs p)))
              = Some rs).
Proof.
  repeat split.
  - intros E. eapply search_and_update_shows; eauto. cbn. now rewrite E.
  - intros E. exists (history_results (history ms) (rawAll ms)). split; [|split].
    + eapply search_and_update_shows; eauto. cbn. now rewrite E.
    + apply history_results_ids.
    + apply history_results_first.
  - intros E. eapply search_and_update_shows; eauto. cbn. now rewrite E.
  - intros v E. eapply search_and_update_invalid; eauto.
  - intros E. unfold _update_results. run_monad. rewrite active. cbn beta iota.
    rewrite E. reflexivity.
  - intros rs. erewrite modes_get_show_results by eauto. reflexivity.
Qed.

Lemma empty_query_policy_witness :
  exists rs,
    @_search_and_update Scenario.runtime "" Scenario.with_recent
    = Ok tt (show_results rs Scenario.with_recent) /\
    map id rs = ["c"; "a"].
Proof.
  destruct (proj1 (proj2 (@empty_query_policy Scenario.runtime Scenario.with_recent
                            Scenario.recent eq_refl)) eq_refl) as (rs & R & I & _).
  exists rs. split; [exact R|exact I].
Defined.

(** ** Close resolution *)

Lemma keeps_ret {A B} (F : Palette -> B) (a : A) : keeps F (ret a).
Proof. intros p. reflexivity. Qed.

Lemma keeps_throw {A B} (F : Palette -> B) e : keeps F (@throw A e).
Proof. intros p. reflexivity. Qed.

Lemma keeps_get {B} (F : Palette -> B) : keeps F get.
Proof. intros p. reflexivity. Qed.

Lemma keeps_bind {A A' B} (F : Palette -> B) (c : M A) (k : A -> M A') :
  keeps F c -> (forall a, keeps F (k a)) -> keeps F (bind c k).
Proof.
  intros Hc Hk p. unfold bind. specialize (Hc p).
  destruct (c p) as [a p'|e p']; cbn in *; [|exact Hc].
  rewrite Hk. exact Hc.
Qed.

Lemma keeps_modify {B} (F : Palette -> B) f :
  (forall p, F (f p) = F p) -> keeps F (modify f).
Proof. intros H p. apply H. Qed.

Lemma keeps_when {B} (F : Palette -> B) c m : keeps F m -> keeps F (when c m).
Proof. intros H. destruct c; [exact H|apply keeps_ret]. Qed.

Lemma keeps_the_mode_state {B} (F : Palette -> B) : keeps F the_mode_state.
Proof. intros p. unfold the_mode_state. destruct (modes_get _ _); reflexivity. Qed.

Lemma keeps_the_mode {B} (F : Palette -> B) k : keeps F (the_mode k).
Proof. intros p. unfold the_mode. destruct (modes_get _ _); reflexivity. Qed.

Lemma keeps_try_catch {A B} (F : Palette -> B) (m : M A) h :
  keeps F m -> (forall e, keeps F (h e)) -> keeps F (try_catch m h).
Proof.
  intros Hm Hh p. unfold try_catch. specialize (Hm p).
  destruct (m p) as [a p'|e p']; cbn in *; [exact Hm|].
  rewrite Hh. exact Hm.
Qed.

Lemma keeps_await {A B} (F : Palette -> B) (o : Outcome A) : keeps F (await o).
Proof. destruct o; [apply keeps_ret|apply keeps_throw]. Qed.

Lemma per_mode_update {B} (g : PaletteModeState -> B) key f ms :
  (forall m, g (f m) = g m) ->
  map (fun km => (fst km, g (snd km))) (modes_update key f ms)
  = map (fun km => (fst km, g (snd km))) ms.
Proof.
  intros H. induction ms as [|[k m] r IH]; [reflexivity|]. cbn.
  destruct (String.eqb k key); cbn; [now rewrite H|now rewrite IH].
Qed.

Lemma per_mode_get {B} (g : PaletteModeState -> B) p p' key :
  per_mode g p' = per_mode g p ->
  option_map g (modes_get key (modes p')) = option_map g (modes_get key (modes p)).
Proof.
  unfold per_mode. generalize (modes p) (modes p').
  induction l as [|[k m] r IH]; intros [|[k' m'] r']; cbn; try discriminate; auto.
  intros H. injection H as -> Hg Hr.
  destruct (String.eqb k key); cbn; [now rewrite Hg|auto].
Qed.

Lemma keeps_update_mode_state {B} (g : PaletteModeState -> B) f :
  (forall m, g (f m) = g m) -> keeps (per_mode g) (update_mode_state f).
Proof.
  intros H. unfold update_mode_state. apply keeps_bind; [apply keeps_the_mode_state|].
  intros _. apply keeps_modify. intros p. unfold per_mode. cbn.
  now apply per_mode_update.
Qed.


(** The search pipeline writes [results] and the selection only. *)
Lemma keeps_search_and_update {RT : Runtime} {B} (g : PaletteModeState -> B) pattern :
  (forall rs m, g (with_results rs m) = g m) ->
  keeps (per_mode g) (_search_and_update pattern).
Proof.
  intros H. unfold _search_and_update.
  apply keeps_bind; [apply keeps_the_mode_state|]. intros ms.
  apply keeps_bind.
  { destruct (String.eqb pattern ""); [|apply keeps_ret].
    destruct (emptyMode (config ms)); try apply keeps_ret. apply keeps_throw. }
  intros rs. apply keeps_bind; [apply keeps_update_mode_state; auto|].
  intros _. apply keeps_modify. reflexivity.
Qed.

Lemma keeps_resolve_close_action {RT : Runtime} {B} (g : PaletteModeState -> B) :
  (forall rs m, g (with_results rs m) = g m) ->
  (forall s m, g (with_lastInput s m) = g m) ->
  keeps (per_mode g) _resolve_close_action.
Proof.
  intros Hr Hl. unfold _resolve_close_action.
  apply keeps_bind; [apply keeps_get|]. intros p.
  apply keeps_bind; [apply keeps_update_mode_state; auto|]. intros _.
  apply keeps_bind.
  { apply keeps_when. apply keeps_bind; [apply keeps_the_mode_state|]. intros ms.
    apply keeps_bind; [apply keeps_modify; reflexivity|]. intros _.
    apply keeps_search_and_update; auto. }
  intros _. apply keeps_bind; [apply keeps_get|]. intros p'.
  apply keeps_when. apply keeps_modify. reflexivity.
Qed.

Lemma resolve_close_action_eq {RT : Runtime} p ms :
  modes_get (mode_state p) (modes p) = Some ms ->
  _resolve_close_action p =
  match (if should_reset (closeAction p)
         then _search_and_update "" (with_searchText (prefix (config ms)) (remember_input p))
         else Ok tt (remember_input p)) with
  | Ok _ p2 => Ok tt (reopen (should_close (closeAction p)) p2)
  | Throw e p2 => Throw e p2
  end.
Proof.
  intros active. unfold _resolve_close_action. run_monad. rewrite active. cbn beta iota.
  fold (remember_input p).
  assert (G : modes_get (mode_state (remember_input p)) (modes (remember_input p))
              = Some (with_lastInput (searchText p) ms)).
  { unfold remember_input. cbn. rewrite modes_get_update_same, active. reflexivity. }
  destruct (closeAction p); cbn [should_reset should_close].
  - unfold reopen. cbn. reflexivity.
  - rewrite G. cbn beta iota.
    destruct (_search_and_update "" _) as [[] p2|e p2]; [|reflexivity].
    unfold reopen. cbn. reflexivity.
  - unfold reopen. destruct (negb (open (remember_input p))); reflexivity.
  - rewrite G. cbn beta iota.
    destruct (_search_and_update "" _) as [[] p2|e p2]; [|reflexivity].
    unfold reopen. destruct (negb (open p2)); reflexivity.
Qed.

Lemma keeps_update_mode_state_field {B} (F : Palette -> B) f :
  (forall v p, F (with_modes v p) = F p) -> keeps F (update_mode_state f).
Proof.
  intros H. unfold update_mode_state. apply keeps_bind; [apply keeps_the_mode_state|].
  intros _. apply keeps_modify. intros p. apply H.
Qed.

Lemma keeps_update_mode_field {B} (F : Palette -> B) key f :
  (forall v p, F (with_modes v p) = F p) -> keeps F (update_mode key f).
Proof.
  intros H. unfold update_mode. apply keeps_bind; [apply keeps_the_mode|].
  intros _. apply keeps_modify. intros p. apply H.
Qed.

Lemma keeps_search_and_update_field {RT : Runtime} {B} (F : Palette -> B) pattern :
  (forall v p, F (with_modes v p) = F p) ->
  (forall v p, F (with_selected v p) = F p) ->
  keeps F (_search_and_update pattern).
Proof.
  intros Hm Hs. unfold _search_and_update.
  apply keeps_bind; [apply keeps_the_mode_state|]. intros ms.
  apply keeps_bind.
  { destruct (String.eqb pattern ""); [|apply keeps_ret].
    destruct (emptyMode (config ms)); try apply keeps_ret. apply keeps_throw. }
  intros rs. apply keeps_bind; [apply keeps_update_mode_state_field; auto|].
  intros _. apply keeps_modify. intros p. apply Hs.
Qed.

Lemma search_and_update_empty_ok {RT : Runtime} p ms :
  modes_get (mode_state p) (modes p) = Some ms ->
  valid_empty_mode (emptyMode (config ms)) ->
  exists rs, _search_and_update "" p = Ok tt (show_results rs p).
Proof.
  intros active V.
  destruct (emptyMode (config ms)) eqn:E; try contradiction.
  - exists (rawAllSorted ms). eapply search_and_update_shows; eauto. cbn. now rewrite E.
  - exists (history_results (history ms) (rawAll ms)).
    eapply search_and_update_shows; eauto. cbn. now rewrite E.
  - exists []. eapply search_and_update_shows; eauto. cbn. now rewrite E.
Qed.

Lemma modes_get_remember_input p ms :
  modes_get (mode_state p) (modes p) = Some ms ->
  modes_get (mode_state (remember_input p)) (modes (remember_input p))
  = Some (with_lastInput (searchText p) ms).
Proof.
  intros active. unfold remember_input. cbn.
  rewrite modes_get_update_same, active. reflexivity.
Qed.

Lemma resolve_close_action_returns {RT : Runtime} p ms :
  modes_get (mode_state p) (modes p) = Some ms ->
  should_reset (closeAction p) = false \/ valid_empty_mode (emptyMode (config ms)) ->
  exists p', _resolve_close_action p = Ok tt p'.
Proof.
  intros active H. rewrite (resolve_close_action_eq p active).
  destruct (should_reset (closeAction p)) eqn:SR.
  - assert (V : valid_empty_mode (emptyMode (config ms))).
    { destruct H as [E|V]; [discriminate|exact V]. }
    destruct (@search_and_update_empty_ok RT
                (with_searchText (prefix (config ms)) (remember_input p))
                (with_lastInput (searchText p) ms)) as [rs Hrs].
    + cbn. apply (modes_get_remember_input p active).
    + exact V.
    + rewrite Hrs. eauto.
  - eauto.
Qed.

(** C7. Close resolution with [KEEP_CLOSE] or [RESET_CLOSE] sets [open]
    to true when it was false and leaves it as it is otherwise (and the
    other two actions never touch it); with [RESET] or [RESET_CLOSE] the
    search text becomes the prefix of the mode and the pipeline runs on
    the empty query; the [current] item of every mode is what it was. *)
Theorem close_resolution {RT : Runtime} (p : Palette) (ms : PaletteModeState)
  (active : modes_get (mode_state p) (modes p) = Some ms) :
  let r := _resolve_close_action p in
  (forall p', r = Ok tt p' ->
     (closeAction p = KEEP_CLOSE \/ closeAction p = RESET_CLOSE ->
        (open p = false -> open p' = true) /\ (open p = true -> open p' = open p)) /\
     (closeAction p = NO_ACTION \/ closeAction p = RESET -> open p' = open p)) /\
  (closeAction p = RESET \/ closeAction p = RESET_CLOSE ->
     searchText (state_of r) = prefix (config ms) /\
     r = (_search_and_update "" ;;
          modify (reopen (should_close (closeAction p))))%palette
           (with_searchText (prefix (config ms)) (remember_input p))) /\
  (closeAction p = NO_ACTION \/ closeAction p = KEEP_CLOSE \/
   valid_empty_mode (emptyMode (config ms)) -> exists p', r = Ok tt p') /\
  per_mode current (state_of r) = per_mode current p.
Proof.
  intros r. subst r. split; [|split; [|split]].
  - intros p' R. rewrite (resolve_close_action_eq p active) in R.
    assert (O : forall p2,
      (if should_reset (closeAction p)
       then _search_and_update "" (with_searchText (prefix (config ms)) (remember_input p))
       else Ok tt (remember_input p)) = Ok tt p2 -> open p2 = open p).
    { intros p2 H2. destruct (should_reset (closeAction p)).
      - pose proof (@keeps_search_and_update_field RT _ open ""
                      ltac:(reflexivity) ltac:(reflexivity)
                      (with_searchText (prefix (config ms)) (remember_input p))) as K.
        rewrite H2 in K. exact K.
      - injection H2 as <-. reflexivity. }
    destruct (if should_reset (closeAction p) then _ else _) as [[] p2|e p2];
      [|discriminate].
    injection R as <-. specialize (O p2 eq_refl). unfold reopen.
    split.
    + intros [E|E]; rewrite E; cbn [should_close andb]; rewrite O;
        destruct (open p); cbn; split; congruence.
    + intros [E|E]; rewrite E; cbn [should_close andb]; exact O.
  - intros Hreset. rewrite (resolve_close_action_eq p active).
    assert (should_reset (closeAction p) = true) as -> by (destruct Hreset as [E|E]; now rewrite E).
    pose proof (@keeps_search_and_update_field RT _ searchText ""
                  ltac:(reflexivity) ltac:(reflexivity)
                  (with_searchText (prefix (config ms)) (remember_input p))) as K.
    unfold bind, modify.
    destruct (_search_and_update "" _) as [[] p2|e p2]; cbn in K |- *.
    + split; [|reflexivity]. unfold reopen.
      destruct (should_close (closeAction p) && negb (open p2)); exact K.
    + split; [exact K|reflexivity].
  - intros H. eapply resolve_close_action_returns; eauto.
    destruct (closeAction p); cbn; auto; destruct H as [E|[E|V]]; auto; discriminate.
  - apply keeps_resolve_close_action; reflexivity.
Qed.

Lemma close_resolution_witness :
  exists p', @_resolve_close_action Scenario.runtime Scenario.on_first = Ok tt p'.
Proof.
  exact (proj1 (proj2 (proj2 (@close_resolution Scenario.runtime Scenario.on_first
                                Scenario.commands eq_refl)))
           (or_intror (or_intror I))).
Defined.























Lemma on_input_search_forced {RT : Runtime} text p m :
  modes_get (mode_state p) (modes p) = Some m ->
  on_input_search text true p =
  _search_and_update (slice (String.length (prefix (config m))) text)
    (with_debounce_id None p).
Proof.
  intros A. unfold on_input_search. run_monad. cbn. rewrite A. reflexivity.
Qed.

Lemma on_input_search_deferred {RT : Runtime} text p m :
  modes_get (mode_state p) (modes p) = Some m ->
  on_input_search text false p =
  Ok tt (with_debounce_id
           (Some (slice (String.length (prefix (config m))) text)) p).
Proof.
  intros A. unfold on_input_search. run_monad. cbn. rewrite A. reflexivity.
Qed.



Lemma search_and_update_returns {RT : Runtime} pattern p ms :
  modes_get (mode_state p) (modes p) = Some ms ->
  valid_empty_mode (emptyMode (config ms)) ->
  exists rs, _search_and_update pattern p = Ok tt (show_results rs p).
Proof.
  intros A V. destruct (String.eqb pattern "") eqn:E.
  - apply String.eqb_eq in E. subst. eapply search_and_update_empty_ok; eauto.
  - eexists. eapply search_and_update_shows; eauto. rewrite E. reflexivity.
Qed.

(** ** The input handler *)




(** ** Registration *)

(** *** Searching an array by id *)

Lemma find_index_none A (f : A -> bool) l :
  find_index f l = None <-> forall x, In x l -> f x = false.
Proof.
  induction l as [|y r IH]; cbn.
  - split; [intros _ x []|reflexivity].
  - destruct (f y) eqn:E.
    + split; [discriminate|]. intros H. specialize (H y (or_introl eq_refl)). congruence.
    + destruct (find_index f r) eqn:F.
      * split; [discriminate|]. intros H.
        assert (N : Some n = None) by (apply IH; intros x Hx; apply H; now right).
        discriminate N.
      * split; [|reflexivity]. intros _ x [<-|Hx]; [exact E|].
        now apply IH.
Qed.

Lemma find_index_some A (f : A -> bool) l k :
  find_index f l = Some k ->
  exists x, nth_error l k = Some x /\ f x = true /\
            forall j y, (j < k)%nat -> nth_error l j = Some y -> f y = false.
Proof.
  revert k. induction l as [|y r IH]; cbn; [discriminate|]. intros k.
  destruct (f y) eqn:E.
  - intros H. injection H as <-. exists y. repeat split; auto. intros j z Hj. lia.
  - destruct (find_index f r) as [i|]; [|discriminate].
    intros H. injection H as <-. destruct (IH i eq_refl) as (x & N & Fx & B).
    exists x. repeat split; auto. intros [|j] z Hj; cbn.
    + intros H. injection H as <-. exact E.
    + apply B. lia.
Qed.

Lemma find_index_id_none i l :
  find_index (has_id i) l = None <-> ~ In i (map id l).
Proof.
  rewrite find_index_none. split.
  - intros H Hin. apply in_map_iff in Hin. destruct Hin as (x & <- & Hx).
    specialize (H x Hx). unfold has_id in H. rewrite String.eqb_refl in H. discriminate.
  - intros H x Hx. unfold has_id. destruct (String.eqb (id x) i) eqn:E; [|reflexivity].
    apply String.eqb_eq in E. exfalso. apply H. rewrite <- E. now apply in_map.
Qed.

(** *** Ids stay unique within a mode *)


Lemma modes_get_In k m ms : modes_get k ms = Some m -> In (k, m) ms.
Proof.
  induction ms as [|[k' m'] r IH]; cbn; [discriminate|].
  destruct (String.eqb k' k) eqn:E.
  - apply String.eqb_eq in E. intros H. injection H as ->. subst. now left.
  - intros H. right. auto.
Qed.



Section Preservation.
Context {RT : Runtime}.

Lemma preserves_ret A (a : A) : preserves (ret a).
Proof. intros p U. exact U. Qed.




Lemma preserves_when c m : preserves m -> preserves (when c m).
Proof. intros H. destruct c; [exact H|apply preserves_ret]. Qed.













Lemma keeps_update_results {B} (g : PaletteModeState -> B) :
  (forall rs m, g (with_results rs m) = g m) -> keeps (per_mode g) _update_results.
Proof.
  intros H. unfold _update_results. apply keeps_bind; [apply keeps_get|]. intros p.
  apply keeps_bind; [apply keeps_the_mode_state|]. intros ms.
  now apply keeps_search_and_update.
Qed.

Lemma keeps_refresh_if_active {B} (g : PaletteModeState -> B) mname :
  (forall rs m, g (with_results rs m) = g m) ->
  keeps (per_mode g) (refresh_if_active mname).
Proof.
  intros H. unfold refresh_if_active. apply keeps_bind; [apply keeps_get|]. intros p.
  destruct (open p); [|apply keeps_ret].
  apply keeps_bind; [apply keeps_the_mode_state|]. intros ms.
  apply keeps_when. now apply keeps_update_results.
Qed.

Lemma NoDup_ids_splice1 i (l : list HyperItem) :
  NoDup (map id l) -> NoDup (map id (splice1 i l)).
Proof.
  revert i. induction l as [|x r IH]; intros i ND; [destruct i; exact ND|].
  inversion ND as [|? ? Hn ND']; subst. destruct i as [|j]; cbn; [exact ND'|].
  constructor; [|auto]. intros Hin. apply Hn. clear - Hin.
  revert j Hin. induction r as [|y r IH]; intros j Hin; [destruct j; exact Hin|].
  destruct j as [|j]; cbn in *; [now right|].
  destruct Hin as [E|Hin]; [now left|right; eauto].
Qed.

Lemma ids_array_set i j (x : HyperItem) l :
  find_index (has_id j) l = Some i -> id x = j ->
  map id (array_set i x l) = map id l.
Proof.
  revert i. induction l as [|y r IH]; intros i; cbn; [discriminate|].
  unfold has_id at 1. destruct (String.eqb (id y) j) eqn:E.
  - intros H Hx. injection H as <-. cbn. apply String.eqb_eq in E. congruence.
  - destruct (find_index (has_id j) r) as [k|]; [|discriminate].
    intros H Hx. injection H as <-. cbn. f_equal. auto.
Qed.

Lemma NoDup_ids_append (x : HyperItem) l :
  find_index (has_id (id x)) l = None ->
  NoDup (map id l) -> NoDup (map id (l ++ [x])).
Proof.
  intros F ND. rewrite map_app. cbn. apply find_index_id_none in F.
  apply NoDup_app; [exact ND|repeat constructor; intros []|].
  intros a Ha [<-|[]]. contradiction.
Qed.








End Preservation.




(** ** Sorting and removal *)

Section StableSort.
Variable A : Type.
Variable cmp : A -> A -> Z.
Hypothesis cmp_orders : orders cmp.

Local Abbreviation le := (fun a b => cmp a b <= 0).

Lemma sort_insert_perm x l : Permutation (sort_insert cmp x l) (x :: l).
Proof.
  induction l as [|y r IH]; cbn; [reflexivity|].
  destruct (cmp x y <=? 0); [reflexivity|].
  rewrite IH. apply perm_swap.
Qed.

Lemma array_sort_perm l : Permutation (array_sort cmp l) l.
Proof.
  induction l as [|x r IH]; cbn; [reflexivity|].
  rewrite sort_insert_perm. now constructor.
Qed.

Lemma sort_insert_sorted x l :
  StronglySorted le l -> StronglySorted le (sort_insert cmp x l).
Proof.
  destruct cmp_orders as [total trans].
  induction l as [|y r IH]; cbn; intros S.
  - repeat constructor.
  - inversion S as [|? ? Sr Fy]; subst.
    destruct (cmp x y <=? 0) eqn:E.
    + apply Z.leb_le in E. constructor; [exact S|].
      constructor; [exact E|].
      eapply Forall_impl; [|exact Fy]. intros z Hz. eapply trans; eauto.
    + apply Z.leb_gt in E. constructor; [auto|].
      assert (Hyx : le y x) by (destruct (total x y); [lia|assumption]).
      eapply Permutation_Forall; [symmetry; apply sort_insert_perm|].
      constructor; assumption.
Qed.

Lemma array_sort_sorted l : StronglySorted le (array_sort cmp l).
Proof.
  induction l as [|x r IH]; cbn; [constructor|]. now apply sort_insert_sorted.
Qed.

Lemma sort_insert_head x l : Forall (le x) l -> sort_insert cmp x l = x :: l.
Proof.
  intros F. destruct l as [|y r]; [reflexivity|]. cbn.
  inversion F; subst. cbn beta in *.
  destruct (cmp x y <=? 0) eqn:E; [reflexivity|]. apply Z.leb_gt in E. lia.
Qed.

Lemma filter_sort_insert f x l :
  StronglySorted le l ->
  filter f (sort_insert cmp x l)
  = if f x then sort_insert cmp x (filter f l) else filter f l.
Proof.
  destruct cmp_orders as [total trans].
  induction l as [|y r IH]; intros S.
  - cbn. destruct (f x); reflexivity.
  - inversion S as [|? ? Sr Fy]; subst. cbn [sort_insert].
    destruct (cmp x y <=? 0) eqn:E.
    + cbn [filter]. destruct (f x) eqn:Fx; [|reflexivity].
      symmetry. apply sort_insert_head.
      apply Z.leb_le in E.
      assert (Fall : Forall (le x) (y :: r)).
      { constructor; [exact E|].
        eapply Forall_impl; [|exact Fy]. intros z Hz. eapply trans; eauto. }
      rewrite Forall_forall in *. intros z Hz. apply Fall.
      change (In z (filter f (y :: r))) in Hz.
      apply filter_In in Hz. tauto.
    + cbn [filter]. rewrite (IH Sr).
      destruct (f y) eqn:Fy'; destruct (f x) eqn:Fx; try reflexivity.
      cbn [sort_insert]. rewrite E. reflexivity.
Qed.

Lemma filter_array_sort f l :
  filter f (array_sort cmp l) = array_sort cmp (filter f l).
Proof.
  induction l as [|x r IH]; [reflexivity|]. cbn [array_sort filter].
  rewrite filter_sort_insert by apply array_sort_sorted. rewrite IH.
  destruct (f x); reflexivity.
Qed.

Lemma array_sort_removal_stable : removal_stable (array_sort cmp).
Proof. split; [apply array_sort_perm|apply filter_array_sort]. Qed.
End StableSort.

Lemma defaultItemSorter_removal_stable {RT : Runtime} :
  orders localeCompare -> removal_stable defaultItemSorter.
Proof.
  intros [total trans]. apply array_sort_removal_stable. split.
  - intros a b. apply total.
  - intros a b c. apply trans.
Qed.

(** The comparator of [Scenario.runtime] orders the strings. *)
Lemma scenario_compare_orders : orders (@localeCompare Scenario.runtime).
Proof.
  assert (L : forall a b,
    @localeCompare Scenario.runtime a b <= 0 <-> String.compare a b <> Gt).
  { intros a b. cbn. destruct (String.compare a b); split; intros; try lia; congruence. }
  split.
  - intros a b. rewrite !L.
    pose proof (OrderedTypeEx.String_as_OT.cmp_antisym a b) as Anti.
    unfold OrderedTypeEx.String_as_OT.cmp in Anti. rewrite Anti.
    destruct (String.compare b a); cbn; [left|right|left]; congruence.
  - intros a b c. rewrite !L. intros Hab Hbc.
    destruct (String.compare a b) eqn:Eab; [| |congruence].
    + apply OrderedTypeEx.String_as_OT.cmp_eq in Eab. now subst.
    + destruct (String.compare b c) eqn:Ebc; [| |congruence].
      * apply OrderedTypeEx.String_as_OT.cmp_eq in Ebc. subst. rewrite Eab. discriminate.
      * apply OrderedTypeEx.String_as_OT.cmp_lt in Eab, Ebc.
        pose proof (@OrderedTypeEx.String_as_OT.lt_trans _ _ _ Eab Ebc) as Hac.
        apply OrderedTypeEx.String_as_OT.cmp_lt in Hac.
        unfold OrderedTypeEx.String_as_OT.cmp in Hac. rewrite Hac. discriminate.
Qed.

(** ** The round trip on the collections *)

Lemma sorted_view_stable {RT : Runtime} s sm :
  sm = UNSORTED \/ removal_stable (sorter s) -> view_stable (sorted_view s sm).
Proof.
  intros H. destruct sm; unfold view_stable, sorted_view.
  - destruct H as [H|[P F]]; [discriminate|]. split; [|exact F].
    intros l. apply Permutation_length, P.
  - destruct H as [H|[P F]]; [discriminate|]. split.
    + intros l. rewrite length_rev. apply Permutation_length, P.
    + intros f l. rewrite <- F. clear. induction (sorter s l) as [|x r IH]; [reflexivity|].
      cbn. rewrite filter_app, IH. cbn. destruct (f x); [reflexivity|apply app_nil_r].
  - split; reflexivity.
Qed.

Lemma filter_none_negb A (f : A -> bool) l :
  filter f l = [] -> filter (fun y => negb (f y)) l = l.
Proof.
  induction l as [|x r IH]; [reflexivity|]. cbn.
  destruct (f x); [discriminate|]. intros H. cbn. now rewrite IH.
Qed.

Lemma remove_by_id_filter i l :
  (List.length (filter (has_id i) l) <= 1)%nat ->
  remove_by_id i l = filter (fun y => negb (has_id i y)) l.
Proof.
  unfold remove_by_id. induction l as [|y r IH]; [reflexivity|].
  cbn [find_index filter]. destruct (has_id i y) eqn:E; cbn [negb].
  - cbn [List.length splice1]. intros H.
    symmetry. apply filter_none_negb.
    destruct (filter (has_id i) r); [reflexivity|cbn in H; lia].
  - intros H. specialize (IH H).
    destruct (find_index (has_id i) r) as [k|]; cbn [splice1]; now rewrite <- IH.
Qed.

Lemma find_index_app_fresh (x : HyperItem) raw rest :
  ~ In (id x) (map id raw) ->
  find_index (has_id (id x)) (raw ++ x :: rest) = Some (List.length raw).
Proof.
  induction raw as [|y r IH]; cbn; intros H.
  - unfold has_id. now rewrite String.eqb_refl.
  - unfold has_id at 1. destruct (String.eqb (id y) (id x)) eqn:E.
    + apply String.eqb_eq in E. tauto.
    + rewrite IH by tauto. reflexivity.
Qed.

Lemma splice1_app A (raw : list A) x rest :
  splice1 (List.length raw) (raw ++ x :: rest) = raw ++ rest.
Proof. induction raw as [|y r IH]; cbn; [reflexivity|now rewrite IH]. Qed.

Lemma splice1_app_length A (its raw : list A) x rest :
  List.length its = List.length raw ->
  splice1 (List.length raw) (its ++ x :: rest) = its ++ rest.
Proof. intros <-. apply splice1_app. Qed.

Lemma searcher_remove_app x se rest :
  Forall (fun y => oid y <> oid x) se ->
  searcher_remove x (se ++ x :: rest) = se ++ rest.
Proof.
  induction 1 as [|y r Hy F IH]; cbn.
  - now rewrite Nat.eqb_refl.
  - destruct (Nat.eqb (oid y) (oid x)) eqn:E; [apply Nat.eqb_eq in E; contradiction|].
    now rewrite IH.
Qed.

Lemma filter_id_fresh (x : HyperItem) l :
  ~ In (id x) (map id l) -> filter (has_id (id x)) l = [] /\
                            filter (fun y => negb (has_id (id x) y)) l = l.
Proof.
  intros H. assert (E : filter (has_id (id x)) l = []).
  { induction l as [|y r IH]; [reflexivity|]. cbn in *. unfold has_id at 1.
    destruct (String.eqb (id y) (id x)) eqn:E; [apply String.eqb_eq in E; tauto|].
    apply IH. tauto. }
  split; [exact E|now apply filter_none_negb].
Qed.

Lemma remove_by_id_view v (x : HyperItem) raw rest :
  view_stable v ->
  ~ In (id x) (map id raw) -> ~ In (id x) (map id rest) ->
  remove_by_id (id x) (v (raw ++ x :: rest)) = v (raw ++ rest).
Proof.
  intros [L F] Hraw Hrest.
  destruct (filter_id_fresh x raw Hraw) as [R0 R1].
  destruct (filter_id_fresh x rest Hrest) as [T0 T1].
  assert (X : has_id (id x) x = true) by (unfold has_id; apply String.eqb_refl).
  rewrite remove_by_id_filter.
  - rewrite F, filter_app. cbn [filter]. rewrite X. cbn [negb]. now rewrite R1, T1.
  - rewrite F, L, filter_app. cbn [filter]. rewrite X, R0, T0. cbn. lia.
Qed.

(** Taking the new items away again, one by one, from the front. *)
Lemma reversed_by_appended v raw its se news :
  view_stable v ->
  fresh_over raw news ->
  List.length its = List.length raw ->
  Forall (fun x => Forall (fun y => oid y <> oid x) se) news ->
  reversed_by news (raw ++ news, its ++ news, se ++ news, v (raw ++ news))
  = (raw, its, se, v raw).
Proof.
  intros V [ND Fr] Len Oid. induction news as [|x rest IH]; cbn [reversed_by fold_left].
  - now rewrite !app_nil_r.
  - inversion ND as [|? ? Hn ND']; subst. inversion Fr as [|? ? Hx Fr']; subst.
    inversion Oid as [|? ? Ox Oid']; subst.
    unfold remove_new at 2. rewrite (find_index_app_fresh x raw rest Hx).
    rewrite splice1_app, (splice1_app_length its raw x rest Len),
      (searcher_remove_app x rest Ox), (remove_by_id_view x raw rest V Hx Hn).
    apply IH; assumption.
Qed.

(** The loop without [override] appends the items it reports. *)
Lemma registered_by_appends {RT : Runtime} s silent all batch :
  forall raw its se so acc c' news,
    registered_by s false silent batch (raw ++ acc, its ++ acc, se ++ acc, so) acc
    = Some (c', news) ->
    incl batch all ->
    fresh_over raw acc -> Forall (from_batch all) acc ->
    c' = (raw ++ news, its ++ news, se ++ news, so) /\
    fresh_over raw news /\ Forall (from_batch all) news.
Proof.
  induction batch as [|x rest IH]; intros raw its se so acc c' news; cbn [registered_by].
  - intros H _ Fr Fb. injection H as <- <-. auto.
  - cbn [fst]. intros H Hin [ND Fr] Fb.
    assert (Hrest : incl rest all) by (intros y Hy; apply Hin; now right).
    destruct (find_index (has_id (id x)) (raw ++ acc)) as [i|] eqn:F.
    + destruct silent; [|discriminate].
      eapply IH; eauto. split; assumption.
    + apply find_index_id_none in F. rewrite map_app, in_app_iff in F.
      set (x' := set_hcache_sort (sort_key s x) x) in *.
      unfold add_new, searcher_add in H. rewrite <- !app_assoc in H.
      eapply IH; eauto.
      * split.
        -- rewrite map_app. apply NoDup_app; [exact ND|repeat constructor; intros []|].
           intros a Ha [<-|[]]. apply F. now right.
        -- apply Forall_app. split; [exact Fr|]. constructor; [|constructor].
           intros Hx. apply F. now left.
      * apply Forall_app. split; [exact Fb|]. constructor; [|constructor].
        exists x. split; [apply Hin; now left|split; reflexivity].
Qed.

(** The round trip on the collections, without [override]. *)
Lemma registered_then_reversed {RT : Runtime} s sm silent batch raw its se c' news :
  sm = UNSORTED \/ removal_stable (sorter s) ->
  List.length its = List.length raw ->
  Permutation se raw ->
  one_id_per_object (raw ++ batch) ->
  registered_by s false silent batch (raw, its, se, sorted_view s sm raw) []
  = Some (c', news) ->
  let '(raw', its', se', _) := c' in
  reversed_by news (raw', its', se', sorted_view s sm raw')
  = (raw, its, se, sorted_view s sm raw).
Proof.
  intros St Len Pse One H.
  assert (H' : registered_by s false silent batch
                 (raw ++ [], its ++ [], se ++ [], sorted_view s sm raw) []
               = Some (c', news)) by (now rewrite !app_nil_r).
  assert (F0 : fresh_over raw []) by (split; constructor).
  destruct (@registered_by_appends RT s silent batch batch raw its se _ [] c' news H'
              (incl_refl batch) F0 (Forall_nil _)) as (-> & Fr & Fb).
  apply reversed_by_appended; auto.
  - now apply sorted_view_stable.
  - destruct Fr as [_ Fr]. rewrite Forall_forall in *. intros x Hx.
    rewrite Forall_forall. intros y Hy E.
    destruct (Fb x Hx) as (b & Hb & Eo & Ei).
    apply (Fr x Hx). rewrite Ei.
    assert (Hyraw : In y raw) by (eapply Permutation_in; eauto).
    rewrite <- (One y b); [now apply in_map| | |congruence].
    + apply in_or_app. now left.
    + apply in_or_app. now right.
Qed.

(** ** Registration with one item more *)

Lemma find_index_app_left A (f : A -> bool) l r i :
  find_index f l = Some i -> find_index f (l ++ r) = Some i.
Proof.
  revert i. induction l as [|y l IH]; cbn; [discriminate|]. intros i.
  destruct (f y); [auto|].
  destruct (find_index f l) as [k|]; [|discriminate].
  intros H. injection H as <-. now rewrite (IH k eq_refl).
Qed.

Lemma find_index_app_right A (f : A -> bool) l r :
  find_index f l = None ->
  find_index f (l ++ r) = option_map (fun k => (List.length l + k)%nat) (find_index f r).
Proof.
  induction l as [|y l IH]; cbn.
  - intros _. destruct (find_index f r); reflexivity.
  - destruct (f y); [discriminate|].
    destruct (find_index f l); [discriminate|]. intros _. rewrite (IH eq_refl).
    destruct (find_index f r); reflexivity.
Qed.

(** Searching for another id in an array with, or without, [x]. *)
Lemma find_index_one_more (x : HyperItem) i A B :
  id x <> i ->
  find_index (has_id i) (A ++ x :: B)
  = match find_index (has_id i) (A ++ B) with
    | Some k => Some (if (k <? List.length A)%nat then k else S k)
    | None => None
    end.
Proof.
  intros Hne.
  assert (Hx : has_id i x = false) by (unfold has_id; now apply String.eqb_neq).
  destruct (find_index (has_id i) A) as [k|] eqn:FA.
  - rewrite (find_index_app_left _ _ (x :: B) FA), (find_index_app_left _ _ B FA).
    assert (k < List.length A)%nat.
    { destruct (find_index_some _ _ FA) as (y & N & _). apply nth_error_Some. congruence. }
    destruct (Nat.ltb_spec k (List.length A)); [reflexivity|lia].
  - rewrite !find_index_app_right by exact FA. cbn [find_index]. rewrite Hx.
    destruct (find_index (has_id i) B) as [k|]; cbn [option_map]; [|reflexivity].
    destruct (Nat.ltb_spec (List.length A + k) (List.length A)); [lia|].
    f_equal. lia.
Qed.

Lemma nth_error_one_more A (x : A) l r k :
  nth_error (l ++ x :: r) (if (k <? List.length l)%nat then k else S k)
  = nth_error (l ++ r) k.
Proof.
  destruct (Nat.ltb_spec k (List.length l)).
  - now rewrite !nth_error_app1.
  - rewrite !nth_error_app2 by lia.
    replace (S k - List.length l)%nat with (S (k - List.length l)) by lia. reflexivity.
Qed.

Lemma array_set_app1 A (y : A) l r k :
  (k < List.length l)%nat -> array_set k y (l ++ r) = array_set k y l ++ r.
Proof.
  revert k. induction l as [|z l IH]; intros k Hk; cbn in *; [lia|].
  destruct k; cbn; [reflexivity|]. rewrite IH by lia. reflexivity.
Qed.

Lemma array_set_app2 A (y : A) l r k :
  (List.length l <= k)%nat ->
  array_set k y (l ++ r) = l ++ array_set (k - List.length l) y r.
Proof.
  revert k. induction l as [|z l IH]; intros k Hk; cbn in *.
  - now rewrite Nat.sub_0_r.
  - destruct k; [lia|]. cbn. rewrite IH by lia. reflexivity.
Qed.

Lemma array_set_length A (y : A) l k : List.length (array_set k y l) = List.length l.
Proof.
  revert k. induction l as [|z l IH]; intros k; [destruct k; reflexivity|].
  destruct k; cbn; [reflexivity|]. now rewrite IH.
Qed.

(** Writing a slot of an array with, or without, [x]. *)
Lemma array_set_one_more A (x y : A) l r k :
  exists l' r',
    array_set (if (k <? List.length l)%nat then k else S k) y (l ++ x :: r)
    = l' ++ x :: r' /\
    array_set k y (l ++ r) = l' ++ r' /\ List.length l' = List.length l.
Proof.
  destruct (Nat.ltb_spec k (List.length l)).
  - exists (array_set k y l), r. rewrite !array_set_app1 by lia.
    repeat split. apply array_set_length.
  - exists l, (array_set (k - List.length l) y r).
    rewrite !array_set_app2 by lia.
    replace (S k - List.length l)%nat with (S (k - List.length l)) by lia.
    repeat split.
Qed.

(** Removing another object from a searcher with, or without, [x]. *)
Lemma searcher_remove_one_more (x old : HyperItem) SA SB :
  oid x <> oid old ->
  exists SA' SB',
    searcher_remove old (SA ++ x :: SB) = SA' ++ x :: SB' /\
    searcher_remove old (SA ++ SB) = SA' ++ SB' /\
    incl (SA' ++ SB') (SA ++ SB).
Proof.
  intros Hne. induction SA as [|y SA IH]; cbn.
  - assert (Nat.eqb (oid x) (oid old) = false) as -> by now apply Nat.eqb_neq.
    exists [], (searcher_remove old SB). repeat split. cbn.
    clear. induction SB as [|z SB IH]; cbn; [apply incl_refl|].
    destruct (Nat.eqb (oid z) (oid old)); [apply incl_tl, incl_refl|].
    apply incl_cons; [now left|now apply incl_tl].
  - destruct (Nat.eqb (oid y) (oid old)).
    + exists SA, SB. repeat split. apply incl_tl, incl_refl.
    + destruct IH as (SA' & SB' & E1 & E0 & I).
      exists (y :: SA'), SB'. cbn. rewrite E1, E0. repeat split.
      apply incl_cons; [now left|now apply incl_tl].
Qed.

Lemma array_set_In A (y : A) l k z : In z (array_set k y l) -> z = y \/ In z l.
Proof.
  revert k. induction l as [|w l IH]; intros k; [destruct k; intros []|].
  destruct k; cbn.
  - intros [<-|H]; auto.
  - intros [<-|H]; [auto|]. destruct (IH _ H); auto.
Qed.

(** The loop of [_register_item] runs alike with and without one more
    item, as long as the batch has neither its id nor its identity. *)
Lemma registered_by_one_more {RT : Runtime} s override silent x rest :
  forall c1 c0 acc c1' news,
    one_more x c1 c0 ->
    Forall (fun y => id y <> id x /\ oid y <> oid x) rest ->
    registered_by s override silent rest c1 acc = Some (c1', news) ->
    exists c0',
      registered_by s override silent rest c0 acc = Some (c0', news) /\
      one_more x c1' c0'.
Proof.
  induction rest as [|y rest IH]; intros c1 c0 acc c1' news O F H;
    cbn [registered_by] in *.
  - injection H as <- <-. eauto.
  - inversion F as [|? ? [Hid Hoid] F']; subst.
    destruct O as (A & B & IA & IB & SA & SB & so1 & so0 & -> & -> & Len & Nid & Fo & Fs).
    cbn [fst] in *.
    set (y' := set_hcache_sort (sort_key s y) y) in *.
    rewrite (find_index_one_more x A B (not_eq_sym Hid)) in H.
    destruct (find_index (has_id (id y)) (A ++ B)) as [k|] eqn:Fk.
    + destruct override.
      * rewrite nth_error_one_more in H.
        destruct (nth_error (A ++ B) k) as [old|] eqn:Nk; [|discriminate].
        destruct (array_set_one_more x y' A B k) as (A' & B' & EA1 & EA0 & LA).
        destruct (array_set_one_more x y' IA IB k) as (IA' & IB' & EI1 & EI0 & LI).
        assert (Hold : oid x <> oid old).
        { apply nth_error_In in Nk. rewrite Forall_forall in Fo.
          intros E. apply (Fo _ Nk). now symmetry. }
        destruct (@searcher_remove_one_more x old SA SB Hold) as (SA' & SB' & ES1 & ES0 & IS).
        unfold replace_at in H |- *. rewrite Len in EI1.
        rewrite EA1, EI1, ES1 in H. rewrite EA0, EI0, ES0.
        unfold searcher_add in H |- *. rewrite <- app_assoc in H. cbn [app] in H.
        rewrite <- app_assoc.
        eapply IH; [|exact F'|exact H].
        exists A', B', IA', IB', SA', (SB' ++ [y']), so1, so0. repeat split.
        -- congruence.
        -- rewrite <- EA0. erewrite ids_array_set; eauto.
        -- rewrite <- EA0. rewrite Forall_forall in *. intros z Hz.
           destruct (array_set_In _ _ _ _ Hz) as [->|Hz']; [exact Hoid|auto].
        -- rewrite app_assoc. apply Forall_app. split.
           ++ rewrite Forall_forall in *. intros z Hz. apply Fs, IS, Hz.
           ++ constructor; [exact Hoid|constructor].
      * destruct silent; [|discriminate].
        eapply IH; [|exact F'|exact H].
        exists A, B, IA, IB, SA, SB, so1, so0. repeat split; auto.
    + unfold add_new, searcher_add in H |- *.
      rewrite <- !app_assoc in H. cbn [app] in H. rewrite <- !app_assoc.
      eapply IH; [|exact F'|exact H].
      exists A, (B ++ [y']), IA, (IB ++ [y']), SA, (SB ++ [y']), so1, so0.
      repeat split; auto.
      * rewrite app_assoc, map_app, in_app_iff. cbn. intros [Hin|[E|[]]]; [auto|].
        apply Hid. exact E.
      * rewrite app_assoc. apply Forall_app. split; [exact Fo|].
        constructor; [exact Hoid|constructor].
      * rewrite app_assoc. apply Forall_app. split; [exact Fs|].
        constructor; [exact Hoid|constructor].
Qed.

(** The accumulator of the loop only grows. *)
Lemma registered_by_acc {RT : Runtime} s override silent batch :
  forall c acc c' news,
    registered_by s override silent batch c acc = Some (c', news) ->
    exists n0, news = acc ++ n0 /\
      forall acc', registered_by s override silent batch c acc' = Some (c', acc' ++ n0).
Proof.
  induction batch as [|x rest IH]; intros c acc c' news H; cbn [registered_by] in *.
  - injection H as <- <-. exists []. split; [now rewrite app_nil_r|].
    intros acc'. now rewrite app_nil_r.
  - destruct (find_index (has_id (id x)) (fst (fst (fst c)))) as [i|].
    + destruct override.
      * destruct (nth_error (fst (fst (fst c))) i); [|discriminate]. eauto.
      * destruct silent; [eauto|discriminate].
    + destruct (IH _ _ _ _ H) as (n0 & -> & G).
      exists (set_hcache_sort (sort_key s x) x :: n0). split.
      * now rewrite <- app_assoc.
      * intros acc'. rewrite G. now rewrite <- app_assoc.
Qed.

Lemma one_more_remove x c1 c0 :
  one_more x c1 c0 -> triple (remove_new x c1) = triple c0.
Proof.
  intros (A & B & IA & IB & SA & SB & so1 & so0 & -> & -> & Len & Nid & Fo & Fs).
  unfold remove_new.
  assert (NA : ~ In (id x) (map id A)).
  { intros H. apply Nid. rewrite map_app, in_app_iff. now left. }
  rewrite (find_index_app_fresh x A B NA), splice1_app, (splice1_app_length IA A x IB Len).
  rewrite searcher_remove_app; [reflexivity|].
  apply Forall_app in Fs. tauto.
Qed.

Lemma remove_new_triple x a b :
  triple a = triple b -> triple (remove_new x a) = triple (remove_new x b).
Proof.
  destruct a as [[[r i] s] o], b as [[[r' i'] s'] o']. cbn. intros H.
  injection H as -> -> ->. destruct (find_index (has_id (id x)) r'); reflexivity.
Qed.

Lemma reversed_by_triple news :
  forall a b, triple a = triple b ->
    triple (reversed_by news a) = triple (reversed_by news b).
Proof.
  induction news as [|x rest IH]; intros a b H; cbn [reversed_by fold_left]; [exact H|].
  apply IH. now apply remove_new_triple.
Qed.

Lemma one_id_incl l l' :
  incl (map key l') (map key l) -> one_id_per_object l -> one_id_per_object l'.
Proof.
  intros I O a b Ha Hb E.
  assert (Ka : In (key a) (map key l)) by (apply I; now apply in_map).
  assert (Kb : In (key b) (map key l)) by (apply I; now apply in_map).
  apply in_map_iff in Ka, Kb.
  destruct Ka as (a0 & Ea & Ha0), Kb as (b0 & Eb & Hb0).
  unfold key in *. injection Ea as Eao Eai. injection Eb as Ebo Ebi.
  rewrite <- Eai, <- Ebi. apply O; auto. congruence.
Qed.

Lemma existsb_has_id_ids i l l' :
  map id l = map id l' -> existsb (has_id i) l = existsb (has_id i) l'.
Proof.
  revert l'. induction l as [|x l IH]; intros [|x' l']; cbn; try discriminate; auto.
  intros H. injection H as Hx Hl. unfold has_id at 1 3. rewrite Hx. f_equal. auto.
Qed.

Lemma existsb_find_index i l :
  existsb (has_id i) l = match find_index (has_id i) l with Some _ => true | None => false end.
Proof.
  induction l as [|x l IH]; [reflexivity|]. cbn.
  destruct (has_id i x); [reflexivity|]. cbn. rewrite IH.
  destruct (find_index (has_id i) l); reflexivity.
Qed.

Lemma searcher_remove_In x se z : In z (searcher_remove x se) -> In z se.
Proof.
  induction se as [|y r IH]; cbn; [tauto|].
  destruct (Nat.eqb (oid y) (oid x)); [now right|].
  intros [E|H]; [now left|right; auto].
Qed.

Lemma replacing_cons raw x rest :
  replacing raw (x :: rest)
  = match find_index (has_id (id x)) raw with
    | Some _ => x :: replacing raw rest
    | None => replacing raw rest
    end.
Proof.
  unfold replacing. cbn [filter]. rewrite existsb_find_index.
  destruct (find_index (has_id (id x)) raw); reflexivity.
Qed.

Lemma replacing_ids raw raw' batch :
  map id raw = map id raw' -> replacing raw batch = replacing raw' batch.
Proof.
  intros H. unfold replacing. apply filter_ext. intros x.
  now apply existsb_has_id_ids.
Qed.

Lemma fits_tail c x rest : fits c (x :: rest) -> fits c rest.
Proof.
  destruct c as [[[raw its] se] so]. intros (L & I & O). split; [exact L|].
  split; [exact I|]. revert O. apply one_id_incl.
  rewrite !map_app. cbn. intros k Hk. rewrite !in_app_iff in *. cbn. tauto.
Qed.

Lemma fits_replace (x' x old : HyperItem) i raw its se so rest :
  key x' = key x ->
  find_index (has_id (id x)) raw = Some i ->
  fits (raw, its, se, so) (x :: rest) ->
  fits (replace_at i old x' (raw, its, se, so)) rest.
Proof.
  intros K F (L & I & O). unfold key in K. injection K as Ko Ki.
  assert (Ids : map id (array_set i x' raw) = map id raw)
    by (now apply (@ids_array_set i (id x))).
  cbn [replace_at fits]. split; [|split].
  - now rewrite !array_set_length.
  - rewrite Ids. unfold searcher_add. rewrite map_app. intros k Hk.
    apply in_app_iff in Hk. destruct Hk as [Hk|[<-|[]]].
    + apply I. apply in_map_iff in Hk. destruct Hk as (z & <- & Hz).
      apply in_map. eapply searcher_remove_In; eauto.
    + rewrite Ki. destruct (find_index_some _ _ F) as (y & N & Hy & _).
      unfold has_id in Hy. apply String.eqb_eq in Hy. rewrite <- Hy.
      apply in_map. eapply nth_error_In; eauto.
  - revert O. apply one_id_incl. intros k Hk. apply in_map_iff in Hk.
    destruct Hk as (z & <- & Hz). unfold searcher_add in Hz.
    rewrite !in_app_iff in Hz. rewrite !map_app. cbn [map]. rewrite !in_app_iff. cbn [In].
    assert (Kx : key x' = key x) by (unfold key; congruence).
    destruct Hz as [Hz|[[Hz|[<-|[]]]|Hz]].
    + apply array_set_In in Hz. destruct Hz as [->|Hz]; [now right; right; left|].
      left. now apply in_map.
    + right. left. apply in_map. eapply searcher_remove_In; eauto.
    + now right; right; left.
    + right. right. right. now apply in_map.
Qed.

(** Registering a batch and taking its new items away again comes to
    registering the items of the batch that replace one: on [rawAll],
    [items] and the searcher. *)
Lemma registered_by_replacing {RT : Runtime} s override silent :
  forall batch c c' news,
    NoDup (map id batch) -> fits c batch ->
    registered_by s override silent batch c [] = Some (c', news) ->
    exists cr,
      registered_by s override silent (replacing (fst (fst (fst c))) batch) c []
      = Some (cr, []) /\
      triple (reversed_by news c') = triple cr.
Proof.
  induction batch as [|x rest IH]; intros c c' news ND Fit H.
  - cbn in H. injection H as <- <-. exists c. split; reflexivity.
  - inversion ND as [|? ? Hn ND']; subst.
    rewrite replacing_cons. cbn [registered_by] in H.
    set (x' := set_hcache_sort (sort_key s x) x) in *.
    destruct (find_index (has_id (id x)) (fst (fst (fst c)))) as [i|] eqn:F.
    + cbn [registered_by]. rewrite F. fold x'. destruct override.
      * destruct (nth_error (fst (fst (fst c))) i) as [old|] eqn:N; [|discriminate].
        destruct c as [[[raw its] se] so]. cbn [fst] in *.
        assert (Fit' : fits (replace_at i old x' (raw, its, se, so)) rest)
          by (apply (@fits_replace x' x old i raw its se so rest);
              [reflexivity|exact F|exact Fit]).
        destruct (IH _ _ _ ND' Fit' H) as (cr & R & T).
        exists cr. split; [|exact T].
        rewrite <- R. f_equal. apply replacing_ids. cbn [replace_at fst].
        symmetry. now apply (@ids_array_set i (id x)).
      * destruct silent; [|discriminate].
        apply IH; auto. eapply fits_tail; eauto.
    + destruct (registered_by_acc _ _ _ _ _ _ H) as (n0 & E & G).
      cbn [app] in E. subst news. specialize (G []). cbn [app] in G.
      destruct c as [[[raw its] se] so]. cbn [fst] in *.
      destruct Fit as (L & I & O).
      apply find_index_id_none in F.
      assert (Kx : forall z, In z (raw ++ se ++ x :: rest) -> oid z = oid x' -> id z = id x).
      { intros z Hz E. apply (O z x); auto.
        rewrite !in_app_iff. cbn. tauto. }
      assert (OM : one_more x' (add_new x' (raw, its, se, so)) (raw, its, se, so)).
      { exists raw, [], its, [], se, [], so, so. rewrite !app_nil_r.
        split; [reflexivity|]. split; [reflexivity|]. split; [exact L|].
        split; [exact F|]. split; apply Forall_forall; intros z Hz E.
        - apply F. rewrite <- (Kx z); [now apply in_map|rewrite !in_app_iff; tauto|exact E].
        - apply F. apply I. rewrite <- (Kx z); [now apply in_map| |exact E].
          rewrite !in_app_iff. tauto. }
      assert (Fr : Forall (fun y => id y <> id x' /\ oid y <> oid x') rest).
      { apply Forall_forall. intros y Hy. split.
        - intros E. apply Hn. cbn in E. rewrite <- E. now apply in_map.
        - intros E. apply Hn. rewrite <- (Kx y); [now apply in_map| |exact E].
          rewrite !in_app_iff. cbn. tauto. }
      destruct (registered_by_one_more _ _ _ _ OM Fr G) as (c0' & G0 & OM').
      assert (Fit' : fits (raw, its, se, so) rest)
        by (apply (@fits_tail _ x); repeat split; assumption).
      destruct (IH _ _ _ ND' Fit' G0) as (cr & R & T).
      exists cr. split; [exact R|].
      cbn [reversed_by fold_left]. rewrite <- T.
      apply reversed_by_triple. now apply one_more_remove.
Qed.

Lemma count_ids_NoDup i l :
  NoDup (map id l) -> (List.length (filter (has_id i) l) <= 1)%nat.
Proof.
  induction l as [|y r IH]; cbn [map filter]; intros ND; [cbn; lia|].
  inversion ND as [|? ? Hn ND']; subst. unfold has_id at 1.
  destruct (String.eqb (id y) i) eqn:E; [|auto].
  apply String.eqb_eq in E. subst i.
  destruct (@filter_id_fresh y r Hn) as [-> _]. cbn. lia.
Qed.

(** Taking an item away leaves [rawAllSorted] the sorted view of
    [rawAll], when ids are unique. *)
Lemma remove_new_sorted v x raw its se :
  view_stable v -> NoDup (map id raw) ->
  exists R I S, remove_new x (raw, its, se, v raw) = (R, I, S, v R) /\
                NoDup (map id R).
Proof.
  intros [L F] ND. cbn [remove_new].
  destruct (find_index (has_id (id x)) raw) as [i|] eqn:E.
  - exists (splice1 i raw), (splice1 i its), (searcher_remove x se).
    split; [|now apply NoDup_ids_splice1]. f_equal.
    rewrite remove_by_id_filter by (rewrite F, L; now apply count_ids_NoDup).
    rewrite F. f_equal.
    rewrite <- remove_by_id_filter by (now apply count_ids_NoDup).
    unfold remove_by_id. now rewrite E.
  - exists raw, its, se. auto.
Qed.

Lemma reversed_by_sorted v news :
  view_stable v ->
  forall raw its se, NoDup (map id raw) ->
    exists R I S, reversed_by news (raw, its, se, v raw) = (R, I, S, v R).
Proof.
  intros V. induction news as [|x rest IH]; intros raw its se ND;
    cbn [reversed_by fold_left].
  - exists raw, its, se. reflexivity.
  - destruct (@remove_new_sorted v x raw its se V ND) as (R & I & S & -> & ND').
    apply IH, ND'.
Qed.

Lemma registered_by_NoDup {RT : Runtime} s override silent batch :
  forall c acc c' news,
    NoDup (map id (fst (fst (fst c)))) ->
    registered_by s override silent batch c acc = Some (c', news) ->
    NoDup (map id (fst (fst (fst c')))).
Proof.
  induction batch as [|x rest IH]; intros c acc c' news ND H; cbn [registered_by] in H.
  - now injection H as <- <-.
  - destruct c as [[[raw its] se] so]. cbn [fst] in *.
    destruct (find_index (has_id (id x)) raw) as [i|] eqn:F.
    + destruct override.
      * destruct (nth_error raw i); [|discriminate].
        apply IH in H; [exact H|]. cbn [replace_at fst].
        rewrite (@ids_array_set i (id x)); [exact ND|exact F|reflexivity].
      * destruct silent; [|discriminate]. exact (IH (raw, its, se, so) _ _ _ ND H).
    + apply IH in H; [exact H|]. cbn [add_new fst].
      now apply (NoDup_ids_append (set_hcache_sort (sort_key s x) x)).
Qed.

Lemma replacing_grows raw x batch :
  replacing (raw ++ [x]) batch = [] -> replacing raw batch = [].
Proof.
  unfold replacing. induction batch as [|y r IH]; [reflexivity|]. cbn [filter].
  rewrite existsb_app. destruct (existsb (has_id (id y)) raw); cbn [orb]; [discriminate|].
  destruct (existsb (has_id (id y)) [x]); [discriminate|]. exact IH.
Qed.

(** A loop that throws at the first id it knows and yet returns has met
    none. *)
Lemma registered_by_loud {RT : Runtime} s batch :
  forall c acc c' news,
    registered_by s false false batch c acc = Some (c', news) ->
    replacing (fst (fst (fst c))) batch = [].
Proof.
  induction batch as [|x rest IH]; intros c acc c' news H; [reflexivity|].
  cbn [registered_by] in H. rewrite replacing_cons.
  destruct (find_index (has_id (id x)) (fst (fst (fst c)))); [discriminate|].
  apply IH in H. destruct c as [[[raw its] se] so]. cbn [add_new fst] in *.
  eapply replacing_grows; eauto.
Qed.

(** A silent loop without [override] skips the ids it knows. *)
Lemma registered_by_skips {RT : Runtime} s raw its se so batch :
  registered_by s false true (replacing raw batch) (raw, its, se, so) []
  = Some ((raw, its, se, so), []).
Proof.
  induction batch as [|x rest IH]; [reflexivity|]. rewrite replacing_cons.
  destruct (find_index (has_id (id x)) raw) as [i|] eqn:F; [|exact IH].
  cbn [registered_by fst]. now rewrite F.
Qed.

(** The round trip on the collections: what is left is what registering
    the replacing items alone leaves, and without [override] what there
    was before. *)
Lemma registered_then_reversed_any {RT : Runtime} s sm override silent batch
  raw its se c' news :
  sm = UNSORTED \/ removal_stable (sorter s) ->
  List.length its = List.length raw ->
  Permutation se raw ->
  one_id_per_object (raw ++ batch) ->
  (override = true -> NoDup (map id raw) /\ NoDup (map id batch)) ->
  registered_by s override silent batch (raw, its, se, sorted_view s sm raw) []
  = Some (c', news) ->
  exists R I S so,
    registered_by s override silent (replacing raw batch)
      (raw, its, se, sorted_view s sm raw) [] = Some ((R, I, S, so), []) /\
    (let '(raw', its', se', _) := c' in
     reversed_by news (raw', its', se', sorted_view s sm raw'))
    = (R, I, S, sorted_view s sm R) /\
    (override = false -> R = raw /\ I = its /\ S = se).
Proof.
  intros St Len Pse One Dis H. destruct override.
  - destruct (Dis eq_refl) as [NDr NDb].
    assert (V : view_stable (sorted_view s sm)) by (now apply sorted_view_stable).
    assert (Fit : fits (raw, its, se, sorted_view s sm raw) batch).
    { split; [exact Len|]. split.
      - intros k Hk. apply in_map_iff in Hk. destruct Hk as (z & <- & Hz).
        apply in_map. eapply Permutation_in; eauto.
      - revert One. apply one_id_incl. rewrite !map_app. intros k Hk.
        rewrite !in_app_iff in *. destruct Hk as [Hk|[Hk|Hk]]; auto.
        left. apply in_map_iff in Hk. destruct Hk as (z & <- & Hz).
        apply in_map. eapply Permutation_in; eauto. }
    destruct (@registered_by_replacing RT s true silent batch _ _ _ NDb Fit H)
      as (cr & R & T).
    cbn [fst] in R.
    pose proof (@registered_by_NoDup RT s true silent batch
                  (raw, its, se, sorted_view s sm raw) _ _ _ NDr H) as ND'.
    destruct c' as [[[raw' its'] se'] so']. cbn [fst] in ND'.
    destruct (@reversed_by_sorted _ news V raw' its' se' ND') as (R0 & I0 & S0 & E).
    assert (T' : triple (reversed_by news (raw', its', se', sorted_view s sm raw'))
                 = triple cr).
    { rewrite <- T. apply reversed_by_triple. reflexivity. }
    rewrite E in T'. destruct cr as [[[Rr Ir] Sr] sor]. cbn [triple] in T'.
    injection T' as -> -> ->.
    exists Rr, Ir, Sr, sor. split; [exact R|]. split; [exact E|discriminate].
  - exists raw, its, se, (sorted_view s sm raw). split; [|split; [|auto]].
    + destruct silent; [apply registered_by_skips|].
      apply registered_by_loud in H. cbn [fst] in H. now rewrite H.
    + pose proof (@registered_then_reversed RT s sm silent batch raw its se c' news
                    St Len Pse One H) as E.
      destruct c' as [[[raw' its'] se'] so']. exact E.
Qed.

(** ** The loops of registration on the state *)

Section RegistrySteps.
Context {RT : Runtime}.
Variable mname : string.

Lemma registry_view_mode p st c :
  registry_view mname p = Some (st, c) ->
  exists m, modes_get mname (modes p) = Some m /\ static_of m = st /\ registry_of m = c.
Proof.
  unfold registry_view. destruct (modes_get mname (modes p)) as [m|]; [|discriminate].
  cbn. intros H. injection H as <- <-. eauto.
Qed.

Lemma update_mode_registry f F p st c :
  (forall m, static_of (f m) = static_of m) ->
  (forall m, registry_of (f m) = F (static_of m) (registry_of m)) ->
  registry_view mname p = Some (st, c) ->
  exists p', update_mode mname f p = Ok tt p' /\
             registry_view mname p' = Some (st, F st c) /\ control p' = control p.
Proof.
  intros Hs Hr V. destruct (registry_view_mode p V) as (m & G & <- & <-).
  eexists. split; [|split].
  - run_monad. rewrite G. reflexivity.
  - unfold registry_view. cbn. rewrite modes_get_update_same, G. cbn.
    now rewrite Hs, Hr.
  - unfold control. cbn. f_equal.
    apply (@per_mode_get _ (fun m => (mode m, config m))
             p (with_modes (modes_update mname f (modes p)) p)).
    unfold per_mode. cbn.
    apply (@per_mode_update _ (fun m => (mode m, config m))). intros m0.
    specialize (Hs m0). unfold static_of in Hs. congruence.
Qed.

Lemma quiet_views c p :
  quiet c ->
  exists p', c p = Ok tt p' /\ registry_view mname p' = registry_view mname p /\
             control p' = control p.
Proof.
  intros Q. destruct (Q p) as (p' & R & Hm & Ho & Hs & Ht). exists p'.
  split; [exact R|]. unfold registry_view, control. now rewrite Hm, Ho, Hs, Ht.
Qed.

Lemma quiet_when b c : quiet c -> quiet (when b c).
Proof. intros Q. destruct b; [exact Q|]. intros p. exists p. cbn. auto. Qed.

Lemma quiet_register_shortcut x : quiet (_register_shortcut x).
Proof.
  intros p. unfold _register_shortcut.
  destruct (shortcut x) as [[|s r]|]; eexists; (split; [reflexivity|]); cbn; auto.
Qed.

Lemma quiet_unregister_shortcut x : quiet (_unregister_shortcut x).
Proof. intros p. eexists. split; [reflexivity|]. cbn. auto. Qed.

Lemma unregisters_quietly_dec x : {unregisters_quietly x} + {~ unregisters_quietly x}.
Proof.
  unfold unregisters_quietly. destruct (onUnregister x) as [[[]|e]|]; auto.
Qed.

(** The call of [onUnregister] comes back, or throws. *)
Lemma quiet_call_onUnregister x (Q : unregisters_quietly x) :
  quiet (call_onUnregister x).
Proof.
  unfold unregisters_quietly, call_onUnregister in *. intros p.
  destruct (onUnregister x) as [[[]|e]|]; [|contradiction|].
  - eexists. split; [reflexivity|]. cbn. auto.
  - exists p. cbn. auto.
Qed.

Lemma loud_call_onUnregister x p (Q : ~ unregisters_quietly x) :
  exists e p', call_onUnregister x p = Throw e p'.
Proof.
  unfold unregisters_quietly, call_onUnregister in *.
  destruct (onUnregister x) as [[[]|e]|]; try (exfalso; apply Q; exact I).
  eexists. eexists. reflexivity.
Qed.

Lemma quiet_teardown x (Q : unregisters_quietly x) : quiet (teardown x).
Proof.
  intros p. unfold teardown.
  destruct (quiet_when (match shortcut x with Some _ => true | None => false end)
              (quiet_unregister_shortcut x) p) as (p1 & R1 & A1 & B1 & C1 & D1).
  destruct (quiet_call_onUnregister x Q p1) as (p2 & R2 & A2 & B2 & C2 & D2).
  exists p2. unfold bind. rewrite R1, R2. repeat split; congruence.
Qed.

Lemma loud_teardown x p (Q : ~ unregisters_quietly x) :
  exists e p', teardown x p = Throw e p'.
Proof.
  unfold teardown.
  destruct (quiet_when (match shortcut x with Some _ => true | None => false end)
              (quiet_unregister_shortcut x) p) as (p1 & R1 & _).
  destruct (loud_call_onUnregister x p1 Q) as (e & p' & L).
  exists e, p'. unfold bind. now rewrite R1, L.
Qed.
End RegistrySteps.

Section RegistryLoops.
Context {RT : Runtime}.
Variable mname : string.

Lemma runs_as_from st p0 p r o (Q Q' : Prop) :
  control p = control p0 -> (Q -> Q') ->
  runs_as mname st p r o Q' -> runs_as mname st p0 r o Q.
Proof.
  intros C W. unfold runs_as. destruct o as [[c' news]|]; [|auto].
  intros [(rm & p' & E & V & C')|(N & T)].
  - left. exists rm, p'. split; [exact E|]. split; [exact V|congruence].
  - right. split; [|exact T]. intros q. apply N, W, q.
Qed.

Lemma runs_as_thrown st p e p' o (Q : Prop) :
  ~ Q -> runs_as mname st p (Throw e p') o Q.
Proof.
  intros N. unfold runs_as. destruct o as [[c' news]|]; [right|]; eauto.
Qed.

Lemma registers_quietly_new raw x x' rest :
  (unregisters_quietly x -> unregisters_quietly x') ->
  registers_quietly true raw (x :: rest) ->
  registers_quietly true (raw ++ [x']) rest.
Proof.
  intros Hx [H|H]; [discriminate|]. right.
  rewrite <- app_assoc. cbn [app].
  apply Forall_app in H. destruct H as [Hr H]. inversion H; subst.
  apply Forall_app. split; [exact Hr|]. constructor; auto.
Qed.

Lemma Forall_array_set A (P : A -> Prop) i y l :
  P y -> Forall P l -> Forall P (array_set i y l).
Proof.
  intros Hy. revert i. induction l as [|z r IH]; intros [|i] F; cbn; auto;
    inversion F; subst; constructor; auto.
Qed.

Lemma registers_quietly_replaced raw i x x' rest :
  (unregisters_quietly x -> unregisters_quietly x') ->
  registers_quietly true raw (x :: rest) ->
  registers_quietly true (array_set i x' raw) rest.
Proof.
  intros Hx [H|H]; [discriminate|]. right.
  apply Forall_app in H. destruct H as [Hr H]. inversion H; subst.
  apply Forall_app. split; [|assumption]. apply Forall_array_set; auto.
Qed.

(** The loop of [_register_item] does to the mode what [registered_by]
    computes: it returns when [registered_by] has a result, and throws
    when it has none. *)
Lemma register_loop_spec override silent n s cfg unsafe_items :
  forall p c new_items removed_items,
    registry_view mname p = Some ((n, s, cfg), c) ->
    runs_as mname (n, s, cfg) p
      (register_loop mname override silent unsafe_items new_items removed_items p)
      (registered_by s override silent unsafe_items c new_items)
      (registers_quietly override (fst (fst (fst c))) unsafe_items).
Proof.
  induction unsafe_items as [|x rest IH]; intros p c news rem V;
    cbn [register_loop registered_by].
  - left. exists rem, p. auto.
  - destruct (registry_view_mode mname p V) as (m & G & S & R).
    injection S as Sn Ss Sc.
    unfold bind at 1. unfold the_mode. rewrite G. cbn beta iota.
    rewrite <- R. cbn [registry_of fst]. rewrite Ss.
    set (x' := set_hcache_sort (sort_key s x) x) in *.
    destruct (find_index (has_id (id x)) (rawAll m)) as [i|] eqn:F.
    + destruct override.
      * destruct (nth_error (rawAll m) i) as [removed|] eqn:N;
          [|eexists; eexists; reflexivity].
        destruct (quiet_views mname p
                    (quiet_when (match shortcut removed with Some _ => true | None => false end)
                       (quiet_unregister_shortcut removed))) as (p1 & R1 & V1 & C1).
        mstep R1.
        destruct (unregisters_quietly_dec removed) as [Q|Q].
        2:{ destruct (loud_call_onUnregister removed p1 Q) as (e & p' & L). mstep L.
            apply runs_as_thrown. intros [H|H]; [discriminate|]. apply Q.
            rewrite Forall_forall in H. apply H, in_or_app. left.
            exact (nth_error_In _ _ N). }
        destruct (quiet_views mname p1 (quiet_call_onUnregister removed Q))
          as (p2 & R2 & V2 & C2).
        mstep R2. rewrite V1, V in V2.
        destruct (@update_mode_registry mname
                    (fun m => with_searcher (searcher_remove removed (searcher m)) m)
                    (fun _ '(raw, its, se, so) => (raw, its, searcher_remove removed se, so))
                    p2 _ _ ltac:(reflexivity) ltac:(reflexivity) V2)
          as (p3 & R3 & V3 & C3).
        mstep R3.
        destruct (@update_mode_registry mname
                    (fun m => with_rawAll (array_set i x' (rawAll m)) m)
                    (fun _ '(raw, its, se, so) => (array_set i x' raw, its, se, so))
                    p3 _ _ ltac:(reflexivity) ltac:(reflexivity) V3)
          as (p4 & R4 & V4 & C4).
        mstep R4.
        destruct (quiet_views mname p4
                    (quiet_when (match shortcut x' with Some _ => true | None => false end)
                       (quiet_register_shortcut x'))) as (p5 & R5 & V5 & C5).
        mstep R5. rewrite V4 in V5.
        destruct (@update_mode_registry mname
                    (fun m => with_items (array_set i x' (items m)) m)
                    (fun _ '(raw, its, se, so) => (raw, array_set i x' its, se, so))
                    p5 _ _ ltac:(reflexivity) ltac:(reflexivity) V5)
          as (p6 & R6 & V6 & C6).
        mstep R6.
        destruct (@update_mode_registry mname
                    (fun m => with_searcher (searcher_add x' (searcher m)) m)
                    (fun _ '(raw, its, se, so) => (raw, its, searcher_add x' se, so))
                    p6 _ _ ltac:(reflexivity) ltac:(reflexivity) V6)
          as (p7 & R7 & V7 & C7).
        mstep R7. rewrite <- R in V7. cbn in V7.
        eapply (@runs_as_from _ p p7); [congruence| |now apply IH].
        cbn [fst]. apply registers_quietly_replaced. auto.
      * destruct silent; [|eexists; eexists; reflexivity].
        rewrite R. eapply (@runs_as_from _ p p); [reflexivity| |now apply IH].
        intros _. now left.
    + destruct (@update_mode_registry mname
                  (fun m => with_searcher (searcher_add x' (searcher m))
                              (with_items (items m ++ [x'])
                                 (with_rawAll (rawAll m ++ [x']) m)))
                  (fun _ '(raw, its, se, so) =>
                     (raw ++ [x'], its ++ [x'], searcher_add x' se, so))
                  p _ _ ltac:(reflexivity) ltac:(reflexivity) V)
        as (p1 & R1 & V1 & C1).
      mstep R1.
      destruct (quiet_views mname p1
                  (quiet_when (match shortcut x' with Some _ => true | None => false end)
                     (quiet_register_shortcut x'))) as (p2 & R2 & V2 & C2).
      mstep R2. rewrite V1 in V2. rewrite <- R in V2. cbn in V2.
      eapply (@runs_as_from _ p p2); [congruence| |now apply IH].
      cbn [fst]. destruct override.
      -- apply registers_quietly_new. auto.
      -- intros _. now left.
Qed.

(** The loop of the reversal callback does to the mode what
    [reversed_by] computes and returns, unless the [onUnregister] of
    one of the items throws. *)
Lemma unregister_new_items_registry st new_items :
  forall p c,
    registry_view mname p = Some (st, c) ->
    (exists p',
       unregister_new_items mname new_items p = Ok tt p' /\
       registry_view mname p' = Some (st, reversed_by new_items c) /\
       control p' = control p) \/
    (~ Forall unregisters_quietly new_items /\
     exists e p', unregister_new_items mname new_items p = Throw e p').
Proof.
  induction new_items as [|x rest IH]; intros p c V;
    cbn [unregister_new_items reversed_by fold_left].
  - left. exists p. auto.
  - destruct (registry_view_mode mname p V) as (m & G & S & R).
    assert (Step :
              (exists p1,
                  unregister_new_item mname x p = Ok tt p1 /\
                  registry_view mname p1 = Some (st, remove_new x c) /\
                  control p1 = control p) \/
              (~ unregisters_quietly x /\
               exists e p', unregister_new_item mname x p = Throw e p')).
    { remember (unregister_new_item mname x p) as r eqn:Er.
      unfold unregister_new_item in Er. unfold bind at 1 in Er. unfold the_mode in Er.
      rewrite G in Er. cbn beta iota in Er. rewrite <- R. cbn [registry_of remove_new].
      destruct (find_index (has_id (id x)) (rawAll m)) as [i|] eqn:F.
      - destruct (@update_mode_registry mname
                    (fun m => with_rawAll (splice1 i (rawAll m)) m)
                    (fun _ '(raw, its, se, so) => (splice1 i raw, its, se, so))
                    p _ _ ltac:(reflexivity) ltac:(reflexivity) V)
          as (p1 & R1 & V1 & C1).
        destruct (@update_mode_registry mname
                    (fun m => with_items (splice1 i (items m)) m)
                    (fun _ '(raw, its, se, so) => (raw, splice1 i its, se, so))
                    p1 _ _ ltac:(reflexivity) ltac:(reflexivity) V1)
          as (p2 & R2 & V2 & C2).
        destruct (@update_mode_registry mname
                    (fun m => with_searcher (searcher_remove x (searcher m)) m)
                    (fun _ '(raw, its, se, so) => (raw, its, searcher_remove x se, so))
                    p2 _ _ ltac:(reflexivity) ltac:(reflexivity) V2)
          as (p3 & R3 & V3 & C3).
        destruct (unregisters_quietly_dec x) as [Q|Q].
        2:{ right. split; [exact Q|]. destruct (loud_teardown x p3 Q) as (e & p' & L).
            exists e, p'. unfold bind in Er. now rewrite R1, R2, R3, L in Er. }
        destruct (quiet_views mname p3 (quiet_teardown x Q)) as (p4 & R4 & V4 & C4).
        rewrite V3 in V4.
        destruct (@update_mode_registry mname
                    (fun m => with_rawAllSorted (remove_by_id (id x) (rawAllSorted m)) m)
                    (fun _ '(raw, its, se, so) => (raw, its, se, remove_by_id (id x) so))
                    p4 _ _ ltac:(reflexivity) ltac:(reflexivity) V4)
          as (p5 & R5 & V5 & C5).
        left. exists p5. unfold bind in Er. rewrite R1, R2, R3, R4, R5 in Er.
        split; [exact Er|]. split; [|congruence].
        rewrite V5, <- R. reflexivity.
      - left. exists p. split; [exact Er|]. split; [|reflexivity].
        rewrite V, <- R. reflexivity. }
    destruct Step as [(p1 & R1 & V1 & C1)|(Q & e & p' & L)].
    2:{ right. split; [intros F; inversion F; auto|].
        exists e, p'. unfold bind. now rewrite L. }
    destruct (IH p1 _ V1) as [(p' & R' & V' & C')|(Q & e & p' & L)].
    + left. exists p'. unfold bind. rewrite R1.
      split; [exact R'|]. split; [exact V'|congruence].
    + right. split; [intros F; inversion F; auto|].
      exists e, p'. unfold bind. now rewrite R1.
Qed.
End RegistryLoops.

(** ** The refresh after a registration *)

Section Refresh.
Context {RT : Runtime}.

Lemma keeps_update_results_field {B} (F : Palette -> B) :
  (forall v p, F (with_modes v p) = F p) ->
  (forall v p, F (with_selected v p) = F p) ->
  keeps F _update_results.
Proof.
  intros Hm Hs. unfold _update_results. apply keeps_bind; [apply keeps_get|]. intros p.
  apply keeps_bind; [apply keeps_the_mode_state|]. intros ms.
  now apply keeps_search_and_update_field.
Qed.

Lemma keeps_refresh_if_active_field {B} (F : Palette -> B) mname :
  (forall v p, F (with_modes v p) = F p) ->
  (forall v p, F (with_selected v p) = F p) ->
  keeps F (refresh_if_active mname).
Proof.
  intros Hm Hs. unfold refresh_if_active. apply keeps_bind; [apply keeps_get|]. intros p.
  destruct (open p); [|apply keeps_ret].
  apply keeps_bind; [apply keeps_the_mode_state|]. intros ms.
  apply keeps_when. now apply keeps_update_results_field.
Qed.

(** The refresh writes results and selection only. *)
Lemma refresh_views mname k p :
  registry_view k (state_of (refresh_if_active mname p)) = registry_view k p /\
  control (state_of (refresh_if_active mname p)) = control p.
Proof.
  pose proof (@keeps_refresh_if_active RT _ (fun m => (static_of m, registry_of m)) mname
                ltac:(reflexivity) p) as K1.
  pose proof (@keeps_refresh_if_active RT _ (fun m => (mode m, config m)) mname
                ltac:(reflexivity) p) as K2.
  pose proof (@keeps_refresh_if_active_field _
                (fun p => (open p, mode_state p, searchText p)) mname
                ltac:(reflexivity) ltac:(reflexivity) p) as K3.
  split.
  - unfold registry_view. apply per_mode_get. exact K1.
  - unfold control. injection K3 as Ko Km Kt. rewrite Ko, Km, Kt. f_equal.
    apply per_mode_get. exact K2.
Qed.

Lemma search_and_update_returned pattern p ms :
  modes_get (mode_state p) (modes p) = Some ms ->
  returned (_search_and_update pattern p)
  = negb (String.eqb pattern "" && is_other (emptyMode (config ms))).
Proof.
  intros A. destruct (String.eqb pattern "") eqn:E.
  - apply String.eqb_eq in E. subst pattern.
    destruct (emptyMode (config ms)) eqn:EM; cbn [is_other andb negb].
    1-3: destruct (@search_and_update_empty_ok RT p ms A) as [rs R];
      [rewrite EM; exact I|rewrite R; reflexivity].
    rewrite (search_and_update_invalid p A EM). reflexivity.
  - cbn [andb negb]. erewrite search_and_update_shows; eauto. rewrite E. reflexivity.
Qed.

(** Whether the refresh returns is decided by [control]. *)
Lemma refresh_returned_control mname pa pb :
  control pa = control pb ->
  returned (refresh_if_active mname pa) = returned (refresh_if_active mname pb).
Proof.
  unfold control. intros H. injection H as Ho Hm Ht Hc.
  unfold refresh_if_active, _update_results. run_monad. rewrite <- Ho.
  destruct (open pa); [|reflexivity].
  destruct (modes_get (mode_state pa) (modes pa)) as [ma|] eqn:Ga;
    destruct (modes_get (mode_state pb) (modes pb)) as [mb|] eqn:Gb;
    try discriminate; [|reflexivity].
  cbn in Hc. injection Hc as Hn Hcfg. rewrite <- Hn.
  destruct (String.eqb (mode ma) mname); [|reflexivity].
  rewrite Ga, Gb. cbn beta iota.
  rewrite (search_and_update_returned _ pa Ga), (search_and_update_returned _ pb Gb).
  now rewrite Hcfg, Ht.
Qed.
End Refresh.

Lemma returned_ok A (r : Res A) :
  returned r = true -> exists a p, r = Ok a p.
Proof. destruct r; [eauto|discriminate]. Qed.

(** [registerItem] on a registered mode: the loop, [rawAllSorted]
    computed anew, then the refresh, whose outcome is the outcome of the
    call; or the exception of an [onUnregister] called by the loop. *)
Lemma registerItem_spec {RT : Runtime} mname item override silent p m :
  modes_get mname (modes p) = Some m ->
  match registered_by (sort m) override silent item (registry_of m) [] with
  | Some (c', news) =>
      (exists pS,
         control pS = control p /\
         registry_view mname pS = Some (static_of m, resorted (static_of m) c') /\
         registerItem mname item override silent p
         = match refresh_if_active mname pS with
           | Ok _ pR => Ok news pR
           | Throw e pR => Throw e pR
           end) \/
      (~ registers_quietly override (rawAll m) item /\
       exists e p', registerItem mname item override silent p = Throw e p')
  | None => exists e p', registerItem mname item override silent p = Throw e p'
  end.
Proof.
  intros G.
  assert (V : registry_view mname p = Some (static_of m, registry_of m)).
  { unfold registry_view. now rewrite G. }
  pose proof (@register_loop_spec RT mname override silent _ _ _ item p _ [] [] V) as L.
  unfold runs_as in L.
  assert (E : registerItem mname item override silent p
              = _register_item mname item override silent p).
  { unfold registerItem. unfold bind at 1. unfold get. cbn beta iota. now rewrite G. }
  rewrite E. clear E. unfold _register_item.
  destruct (registered_by (sort m) override silent item (registry_of m) [])
    as [[c' news]|].
  - destruct L as [(rm & pL & L & VL & CL)|(NQ & e & p' & L)].
    2:{ right. split; [exact NQ|]. exists e, p'. unfold bind at 1. now rewrite L. }
    destruct (@update_mode_registry mname
                (fun m => with_rawAllSorted
                            (sorted_view (sort m) (sortMode (config m)) (rawAll m)) m)
                (fun st c => resorted st c)
                pL _ _ ltac:(reflexivity) ltac:(reflexivity) VL)
      as (pS & RS & VS & CS).
    left. exists pS. split; [congruence|]. split; [exact VS|].
    mstep L. mstep RS. unfold bind, ret.
    destruct (refresh_if_active mname pS) as [[] pR|e pR]; reflexivity.
  - destruct L as (e & p' & L). exists e, p'. unfold bind at 1. now rewrite L.
Qed.

Lemma registered_by_quietly {RT : Runtime} s override silent batch :
  forall c acc c' news,
    registered_by s override silent batch c acc = Some (c', news) ->
    Forall unregisters_quietly batch -> Forall unregisters_quietly acc ->
    Forall unregisters_quietly news.
Proof.
  induction batch as [|x rest IH]; intros c acc c' news; cbn [registered_by].
  - intros H _ Fa. now injection H as _ <-.
  - intros H Fb Fa. inversion Fb as [|? ? Hx Fr]; subst.
    destruct (find_index (has_id (id x)) (fst (fst (fst c)))) as [i|].
    + destruct override.
      * destruct (nth_error (fst (fst (fst c))) i); [|discriminate]. eapply IH; eauto.
      * destruct silent; [|discriminate]. eapply IH; eauto.
    + eapply IH; eauto. apply Forall_app. split; [exact Fa|]. constructor; [exact Hx|constructor].
Qed.

(** *** The reversal callback *)

(** C4, as the code has it. In a mode whose collections agree with one
    another ([items] as long as [rawAll], the searcher holding the items
    of [rawAll], [rawAllSorted] the sorted view of [rawAll] under a sort
    that is stable under removal), with one id per object, no
    [onUnregister] that throws on an item of the mode or of the batch
    and, under [override], distinct ids in [rawAll] and in the batch:
    when [registerItem] returns, the callback it returned returns too, and
    leaves [rawAll], [rawAllSorted], [items] and the content of the
    searcher exactly as registering only the items of the batch that
    replace a registered one leaves them, order included; without
    [override] that is exactly as they were before the registration. *)
Theorem registration_round_trip {RT : Runtime} (p : Palette) (mname : string)
  (m : PaletteModeState) (item : list HyperItem) (override silent : bool)
  (new_items : list HyperItem) (p1 : Palette)
  (registered : modes_get mname (modes p) = Some m)
  (synced : in_sync m)
  (stable : sortMode (config m) = UNSORTED \/ removal_stable (sorter (sort m)))
  (objects : one_id_per_object (rawAll m ++ item))
  (distinct : override = true ->
              NoDup (map id (rawAll m)) /\ NoDup (map id item))
  (quietly : Forall unregisters_quietly (rawAll m ++ item))
  (called : registerItem mname item override silent p = Ok new_items p1) :
  exists p2 m2,
    reversal mname new_items p1 = Ok tt p2 /\
    modes_get mname (modes p2) = Some m2 /\
    (exists pr mr,
        registerItem mname (replacing (rawAll m) item) override silent p = Ok [] pr /\
        modes_get mname (modes pr) = Some mr /\
        registry_of m2 = registry_of mr) /\
    (override = false -> registry_of m2 = registry_of m).
Proof.
  destruct synced as (Len & Pse & Sorted).
  (* the call *)
  pose proof (@registerItem_spec RT mname item override silent p m registered) as Call.
  destruct (registered_by (sort m) override silent item (registry_of m) [])
    as [[c' news]|] eqn:Reg;
    [|destruct Call as (e & p' & E); rewrite E in called; discriminate].
  destruct Call as [(pS & CS & VS & E)|(_ & e & p' & E)];
    [|rewrite E in called; discriminate].
  rewrite E in called. clear E.
  apply Forall_app in quietly. destruct quietly as [Qraw Qitem].
  pose proof (@registered_by_quietly RT _ _ _ _ _ _ _ _ Reg Qitem (Forall_nil _)) as Qnews.
  destruct (refresh_views mname mname pS) as [VR CR].
  destruct (refresh_if_active mname pS) as [[] pR|] eqn:Refresh; [|discriminate].
  cbn [state_of] in VR, CR. injection called as <- <-.
  (* the collections *)
  unfold registry_of in Reg. rewrite Sorted in Reg.
  destruct (@registered_then_reversed_any RT (sort m) (sortMode (config m)) override
              silent item (rawAll m) (items m) (searcher m) c' news
              stable Len Pse objects distinct Reg)
    as (R & I & S & so & Only & Back & Same).
  (* the reversal *)
  rewrite VS in VR.
  destruct (registry_view_mode mname pR VR) as (mR & GR & _ & _).
  destruct (@unregister_new_items_registry mname _ news pR _ VR)
    as [(pU & RU & VU & CU)|(NQ & _)]; [|contradiction].
  assert (Ret : returned (refresh_if_active mname pU) = true).
  { rewrite (@refresh_returned_control RT mname pU pS) by congruence.
    now rewrite Refresh. }
  destruct (returned_ok _ Ret) as ([] & p2 & R2).
  destruct (refresh_views mname mname pU) as [V2 _]. rewrite R2 in V2. cbn [state_of] in V2.
  rewrite VU in V2.
  destruct (registry_view_mode mname p2 V2) as (m2 & G2 & _ & E2).
  assert (E2' : registry_of m2 = (R, I, S, sorted_view (sort m) (sortMode (config m)) R)).
  { rewrite E2. destruct c' as [[[raw' its'] se'] so']. exact Back. }
  (* registering the replacing items alone *)
  pose proof (@registerItem_spec RT mname (replacing (rawAll m) item) override silent
                p m registered) as Alone.
  unfold registry_of in Alone at 1. rewrite Sorted, Only in Alone.
  destruct Alone as [(pS' & CS' & VS' & E')|(NQ & _)].
  2:{ exfalso. apply NQ. right. apply Forall_app. split; [exact Qraw|].
      unfold replacing. rewrite Forall_forall in *. intros y Hy.
      apply filter_In in Hy. apply Qitem, Hy. }
  assert (Ret' : returned (refresh_if_active mname pS') = true).
  { rewrite (@refresh_returned_control RT mname pS' pS) by congruence.
    now rewrite Refresh. }
  destruct (returned_ok _ Ret') as ([] & pr & Rr).
  destruct (refresh_views mname mname pS') as [Vr _]. rewrite Rr in Vr. cbn [state_of] in Vr.
  rewrite VS' in Vr.
  destruct (registry_view_mode mname pr Vr) as (mr & Gr & _ & Er).
  exists p2, m2. split; [|split; [exact G2|split]].
  - unfold reversal. run_monad. rewrite GR. cbn beta iota. rewrite RU. exact R2.
  - exists pr, mr. rewrite E', Rr. split; [reflexivity|]. split; [exact Gr|].
    rewrite E2', Er. reflexivity.
  - intros Ov. destruct (Same Ov) as (-> & -> & ->). rewrite E2'.
    unfold registry_of. now rewrite Sorted.
Qed.

(** With [override], the item that replaced [b] stays after the
    callback: [rawAll] holds the objects 1, 5, 3 and the searcher 1, 3, 5. *)
Lemma registration_round_trip_witness :
  let batch := [Scenario.item 4 "d"; Scenario.item 5 "b"] in
  let r := @registerItem Scenario.runtime "commands" batch true false Scenario.on_first in
  let undone := @reversal Scenario.runtime "commands" (value_of [] r) (state_of r) in
  map id (value_of [] r) = ["d"] /\
  replacing Scenario.abc batch = [Scenario.item 5 "b"] /\
  option_map (fun m => (map oid (rawAll m), map oid (searcher m)))
    (modes_get "commands" (modes (state_of undone)))
  = Some ([1; 5; 3]%nat, [1; 3; 5]%nat) /\
  exists p2 m2,
    undone = Ok tt p2 /\
    modes_get "commands" (modes p2) = Some m2 /\
    (exists pr mr,
        @registerItem Scenario.runtime "commands" [Scenario.item 5 "b"] true false
          Scenario.on_first = Ok [] pr /\
        modes_get "commands" (modes pr) = Some mr /\
        registry_of m2 = registry_of mr) /\
    (true = false -> registry_of m2 = registry_of Scenario.commands).
Proof.
  cbv zeta. split; [vm_compute; reflexivity|]. split; [vm_compute; reflexivity|].
  split; [vm_compute; reflexivity|].
  refine (@registration_round_trip Scenario.runtime Scenario.on_first "commands"
            Scenario.commands [Scenario.item 4 "d"; Scenario.item 5 "b"] true false
            _ _ eq_refl _ _ _ _ _ _).
  - split; [reflexivity|]. split; [apply Permutation_refl|vm_compute; reflexivity].
  - right. apply (@defaultItemSorter_removal_stable Scenario.runtime).
    apply scenario_compare_orders.
  - intros a b Ha Hb. cbn in Ha, Hb.
    repeat (destruct Ha as [<-|Ha]; [|]); try contradiction;
      repeat (destruct Hb as [<-|Hb]; [|]); try contradiction;
      cbn; intros E; try reflexivity; discriminate E.
  - intros _. split; repeat (constructor; [cbn; intuition discriminate|]); constructor.
  - repeat constructor.
  - vm_compute. reflexivity.
Defined.

(** In [Scenario.stale], which a registration that threw left behind,
    [rawAllSorted] lacks an item of [rawAll]; registering one more item
    and calling the reversal callback then leaves [rawAllSorted] with four
    items where it had three before the registration. *)
Lemma registration_round_trip_counterexample :
  let before := Scenario.stale in
  let r := @registerItem Scenario.runtime "commands" [Scenario.item 5 "e"] false true
             before in
  let undone := @reversal Scenario.runtime "commands" (value_of [] r) (state_of r) in
  returned r = true /\ map id (value_of [] r) = ["e"] /\ returned undone = true /\
  option_map (fun m => map id (rawAllSorted m)) (modes_get "commands" (modes before))
  = Some ["a"; "b"; "c"] /\
  option_map (fun m => map id (rawAllSorted m))
    (modes_get "commands" (modes (state_of undone)))
  = Some ["a"; "b"; "c"; "d"] /\
  option_map (fun m => map id (rawAll m)) (modes_get "commands" (modes before))
  = option_map (fun m => map id (rawAll m))
      (modes_get "commands" (modes (state_of undone))).
Proof.
  cbv zeta. repeat split; vm_compute; reflexivity.
Qed.

(** ** A registration that throws midway *)








(** ** The selection stays on the results *)

Lemma array_get_inside A (l : list A) i x :
  array_get l i = Some x -> 0 <= i < Z.of_nat (List.length l).
Proof.
  unfold array_get. destruct (i <? 0) eqn:E; [discriminate|]. intros H.
  apply Z.ltb_ge in E. split; [exact E|].
  assert (N : (Z.to_nat i < List.length l)%nat) by (apply nth_error_Some; congruence).
  lia.
Qed.

Lemma selection_on_first rs s : selection_on rs (select_first rs s).
Proof.
  destruct rs as [|r0 rest]; [left; split; reflexivity|].
  right. exists r0. split; reflexivity.
Qed.

(** A search that returns has stored the results it found and put the
    selection on the first of them. *)
Lemma search_and_update_shown {RT : Runtime} pattern p p' :
  _search_and_update pattern p = Ok tt p' ->
  exists ms rs, modes_get (mode_state p) (modes p) = Some ms /\
                search_results pattern ms = Some rs /\
                p' = show_results rs p.
Proof.
  intros R.
  destruct (modes_get (mode_state p) (modes p)) as [ms|] eqn:A.
  - destruct (search_results pattern ms) as [rs|] eqn:E.
    + rewrite (search_and_update_shows pattern p A E) in R. injection R as <-.
      exists ms, rs. auto.
    + unfold search_results in E.
      destruct (String.eqb pattern "") eqn:P; [|discriminate].
      apply String.eqb_eq in P. subst pattern.
      destruct (emptyMode (config ms)) eqn:EM; try discriminate.
      rewrite (search_and_update_invalid p A EM) in R. discriminate.
  - unfold _search_and_update in R. unfold bind at 1 in R. unfold the_mode_state in R.
    rewrite A in R. discriminate.
Qed.

(** X1. Whatever the selection was, a search that returns has stored
    the results it found in the active mode and left the selection on
    them: cleared ([idx = -1], no id) when there are none, else on the
    first ([idx = 0], its id); the element and the active mode are as
    before. *)
Theorem search_selects_first {RT : Runtime} (pattern : string) (p p' : Palette)
  (returns : _search_and_update pattern p = Ok tt p') :
  exists ms rs,
    modes_get (mode_state p) (modes p) = Some ms /\
    search_results pattern ms = Some rs /\
    mode_state p' = mode_state p /\
    modes_get (mode_state p') (modes p') = Some (with_results rs ms) /\
    selection_on rs (selected p') /\
    idx (selected p') = (if Nat.eqb (List.length rs) 0 then -1 else 0) /\
    el (selected p') = el (selected p).
Proof.
  destruct (search_and_update_shown _ _ returns) as (ms & rs & A & E & ->).
  exists ms, rs. split; [exact A|]. split; [exact E|]. split; [reflexivity|].
  split; [apply (modes_get_show_results rs p A)|].
  cbn. split; [apply selection_on_first|].
  destruct rs; split; reflexivity.
Qed.

Lemma search_selects_first_witness :
  let after := state_of (@_search_and_update Scenario.runtime "" Scenario.cleared) in
  option_map results (modes_get "commands" (modes after)) = Some Scenario.abc /\
  selection_on Scenario.abc (selected after) /\ idx (selected after) = 0.
Proof.
  cbv zeta.
  destruct (@search_selects_first Scenario.runtime "" Scenario.cleared
              (state_of (@_search_and_update Scenario.runtime "" Scenario.cleared))
              eq_refl) as (ms & rs & A & E & _ & A' & S & I & _).
  cbn in A. injection A as <-. cbn in E. injection E as <-.
  split; [reflexivity|]. split; [exact S|exact I].
Defined.

Lemma with_selected_same p : with_selected (selected p) p = p.
Proof. destruct p. reflexivity. Qed.

Lemma selected_eta s : {| el := el s; sel_id := sel_id s; idx := idx s |} = s.
Proof. destruct s. reflexivity. Qed.

(** One move of the cursor from a selection on the results: the palette
    after it differs in the selection only, which is on the results again. *)
Lemma cursor_move (c : M unit) p ms :
  modes_get (mode_state p) (modes p) = Some ms ->
  (exists s', c p = Ok tt (with_selected s' p) /\ selection_on (results ms) s') ->
  exists p', c p = Ok tt p' /\ selection_ok p' /\
             modes p' = modes p /\ mode_state p' = mode_state p.
Proof.
  intros A (s' & R & S). exists (with_selected s' p). split; [exact R|].
  split; [|split; reflexivity]. exists ms. split; [exact A|exact S].
Qed.

(** X2. From a selection that is on the results of the active mode, the
    next and the previous result are selected without an exception, the
    selection is on the results again, and nothing but the selection is
    written. *)
Theorem cursor_stays_on_results (p : Palette) (ok : selection_ok p) :
  (exists p', _select_next_result p = Ok tt p' /\ selection_ok p' /\
              modes p' = modes p /\ mode_state p' = mode_state p) /\
  (exists p', _select_previous_result p = Ok tt p' /\ selection_ok p' /\
              modes p' = modes p /\ mode_state p' = mode_state p).
Proof.
  destruct ok as (ms & A & S).
  destruct (results ms) as [|r0 rest] eqn:E.
  - rewrite (select_next_empty p A E), (select_previous_empty p A E).
    split; exists p; (split; [reflexivity|]); (split; [|split; reflexivity]);
      exists ms; rewrite E; auto.
  - assert (Hne : results ms <> []) by (rewrite E; discriminate).
    rewrite <- E in S.
    destruct S as [[Hi _]|(it & Hit & _)].
    + split; apply (@cursor_move _ p ms A).
      * eexists. split; [apply (select_next_cleared p A E Hi)|].
        right. exists r0. rewrite E. split; reflexivity.
      * destruct (@array_get_nth _ (results ms) (Z.of_nat (List.length (results ms)) - 1))
          as [l Hl]; [rewrite E; cbn [List.length]; lia|].
        eexists. split; [apply (select_previous_cleared p A Hne Hl Hi)|].
        right. exists l. split; [exact Hl|reflexivity].
    + apply array_get_inside in Hit. destruct Hit as [H0 _].
      split; apply (@cursor_move _ p ms A).
      * destruct (select_next_from p A Hne H0 eq_refl) as (it' & G & R).
        eexists. split; [exact R|]. right. exists it'. split; [exact G|reflexivity].
      * destruct (select_previous_from p A Hne H0 eq_refl) as (it' & G & R).
        eexists. split; [exact R|]. right. exists it'. split; [exact G|reflexivity].
Qed.

Lemma cursor_stays_on_results_witness :
  exists p', _select_next_result Scenario.on_first = Ok tt p' /\ selection_ok p'.
Proof.
  assert (ok : selection_ok Scenario.on_first).
  { exists Scenario.commands. split; [reflexivity|]. right.
    exists (Scenario.item 1 "a"). split; reflexivity. }
  destruct (proj1 (cursor_stays_on_results ok)) as (p' & R & S & _).
  exists p'. split; [exact R|exact S].
Defined.

Lemma with_selected_twice s s' p :
  with_selected s (with_selected s' p) = with_selected s p.
Proof. reflexivity. Qed.

(** X3. From a selection on a result, selecting the next result and then
    the previous one, or the previous and then the next, leaves the
    palette exactly as it was. *)
Theorem next_previous_round_trip (p : Palette) (ms : PaletteModeState) (it : HyperItem)
  (active : modes_get (mode_state p) (modes p) = Some ms)
  (placed : array_get (results ms) (idx (selected p)) = Some it)
  (named : sel_id (selected p) = Some (id it)) :
  (_select_next_result ;; _select_previous_result) p = Ok tt p /\
  (_select_previous_result ;; _select_next_result) p = Ok tt p.
Proof.
  pose proof (array_get_inside _ _ placed) as [H0 Hn].
  set (n := Z.of_nat (List.length (results ms))) in *.
  assert (Hne : results ms <> []).
  { intros E. unfold n in Hn. rewrite E in Hn. cbn in Hn. lia. }
  assert (Back : forall s1 j (c : M unit),
             0 <= j ->
             (forall q, modes_get (mode_state q) (modes q) = Some ms ->
                        idx (selected q) = j ->
                        exists it', array_get (results ms) (idx (selected p)) = Some it' /\
                          c q = Ok tt (with_selected
                                         {| el := el (selected q); sel_id := Some (id it');
                                            idx := idx (selected p) |} q)) ->
             el s1 = el (selected p) -> idx s1 = j ->
             c (with_selected s1 p) = Ok tt p).
  { intros s1 j c Hj Hc He Hi.
    destruct (Hc (with_selected s1 p) active Hi) as (it' & G & R).
    rewrite R. rewrite placed in G. injection G as <-.
    rewrite with_selected_twice. change (selected (with_selected s1 p)) with s1.
    rewrite He, <- named, selected_eta. now rewrite with_selected_same. }
  split.
  - destruct (select_next_from p active Hne H0 eq_refl) as (it1 & G1 & R1).
    unfold bind. rewrite R1. fold n.
    apply (@Back _ ((idx (selected p) + 1) mod n)); [apply Z.mod_pos_bound; lia| |reflexivity..].
    intros q Aq Iq.
    destruct (select_previous_from q Aq Hne (i := (idx (selected p) + 1) mod n)) as (it' & G & R);
      [apply Z.mod_pos_bound; lia|exact Iq|].
    fold n in G, R.
    assert (E : ((idx (selected p) + 1) mod n - 1 + n) mod n = idx (selected p)).
    { destruct (Z.eq_dec (idx (selected p) + 1) n) as [En|En].
      - rewrite En, Z_mod_same_full, Z.mod_small; lia.
      - rewrite (Z.mod_small (idx (selected p) + 1)) by lia.
        replace (idx (selected p) + 1 - 1 + n) with (idx (selected p) + 1 * n) by lia.
        rewrite Z_mod_plus_full. apply Z.mod_small. lia. }
    rewrite E in G, R. exists it'. split; [exact G|exact R].
  - destruct (select_previous_from p active Hne H0 eq_refl) as (it1 & G1 & R1).
    unfold bind. rewrite R1. fold n.
    apply (@Back _ ((idx (selected p) - 1 + n) mod n));
      [apply Z.mod_pos_bound; lia| |reflexivity..].
    intros q Aq Iq.
    destruct (select_next_from q Aq Hne (i := (idx (selected p) - 1 + n) mod n))
      as (it' & G & R); [apply Z.mod_pos_bound; lia|exact Iq|].
    fold n in G, R.
    assert (E : ((idx (selected p) - 1 + n) mod n + 1) mod n = idx (selected p)).
    { destruct (Z.eq_dec (idx (selected p)) 0) as [En|En].
      - rewrite En. replace (0 - 1 + n) with (n - 1) by lia.
        rewrite (Z.mod_small (n - 1)) by lia.
        replace (n - 1 + 1) with n by lia. apply Z_mod_same_full.
      - replace (idx (selected p) - 1 + n) with (idx (selected p) - 1 + 1 * n) by lia.
        rewrite Z_mod_plus_full, (Z.mod_small (idx (selected p) - 1)) by lia.
        replace (idx (selected p) - 1 + 1) with (idx (selected p)) by lia.
        apply Z.mod_small. lia. }
    rewrite E in G, R. exists it'. split; [exact G|exact R].
Qed.

Lemma next_previous_round_trip_witness :
  (_select_next_result ;; _select_previous_result) Scenario.on_first
  = Ok tt Scenario.on_first.
Proof.
  exact (proj1 (@next_previous_round_trip Scenario.on_first Scenario.commands
                  (Scenario.item 1 "a") eq_refl eq_refl eq_refl)).
Defined.

(** [k] moves of a cursor that steps by [d] places, from a selection on
    a result. *)
Lemma times_shift (c : M unit) (ms : PaletteModeState) (d : Z) :
  let n := Z.of_nat (List.length (results ms)) in
  (forall q i, modes_get (mode_state q) (modes q) = Some ms ->
     0 <= i -> idx (selected q) = i ->
     exists it, array_get (results ms) ((i + d) mod n) = Some it /\
       c q = Ok tt (with_selected {| el := el (selected q); sel_id := Some (id it);
                                     idx := (i + d) mod n |} q)) ->
  forall k p it0,
    modes_get (mode_state p) (modes p) = Some ms ->
    array_get (results ms) (idx (selected p)) = Some it0 ->
    sel_id (selected p) = Some (id it0) ->
    exists it,
      array_get (results ms) ((idx (selected p) + Z.of_nat k * d) mod n) = Some it /\
      times k c p
      = Ok tt (with_selected {| el := el (selected p); sel_id := Some (id it);
                                idx := (idx (selected p) + Z.of_nat k * d) mod n |} p).
Proof.
  intros n Step. induction k as [|k IH]; intros p it0 A P N.
  - pose proof (array_get_inside _ _ P) as B. fold n in B.
    replace (idx (selected p) + Z.of_nat 0 * d) with (idx (selected p)) by lia.
    rewrite Z.mod_small by exact B. exists it0. split; [exact P|].
    cbn [times]. unfold ret. now rewrite <- N, selected_eta, with_selected_same.
  - pose proof (array_get_inside _ _ P) as B. fold n in B.
    destruct (Step p _ A (proj1 B) eq_refl) as (it1 & G1 & R1).
    cbn [times]. unfold bind. rewrite R1.
    destruct (IH (with_selected {| el := el (selected p); sel_id := Some (id it1);
                                   idx := (idx (selected p) + d) mod n |} p) it1 A G1 eq_refl)
      as (it & G & R).
    change (idx (selected (with_selected ?s p))) with (idx s) in G, R.
    cbn [idx] in G, R.
    assert (E : ((idx (selected p) + d) mod n + Z.of_nat k * d) mod n
                = (idx (selected p) + Z.of_nat (S k) * d) mod n).
    { rewrite Z.add_mod_idemp_l by lia. f_equal. lia. }
    rewrite E in G, R. exists it. split; [exact G|]. rewrite R. reflexivity.
Qed.

(** X4. From a selection on a result, selecting the next result as many
    times as there are results, or the previous one as many times, ends on
    the same selection: the palette is exactly as it was. *)
Theorem cursor_full_turn (p : Palette) (ms : PaletteModeState) (it : HyperItem)
  (active : modes_get (mode_state p) (modes p) = Some ms)
  (placed : array_get (results ms) (idx (selected p)) = Some it)
  (named : sel_id (selected p) = Some (id it)) :
  times (List.length (results ms)) _select_next_result p = Ok tt p /\
  times (List.length (results ms)) _select_previous_result p = Ok tt p.
Proof.
  pose proof (array_get_inside _ _ placed) as B.
  set (n := Z.of_nat (List.length (results ms))) in *.
  assert (Hne : results ms <> []).
  { intros E. unfold n in B. rewrite E in B. cbn in B. lia. }
  assert (Turn : forall c d,
             (forall q i, modes_get (mode_state q) (modes q) = Some ms ->
                0 <= i -> idx (selected q) = i ->
                exists it, array_get (results ms) ((i + d) mod n) = Some it /\
                  c q = Ok tt (with_selected {| el := el (selected q);
                                                sel_id := Some (id it);
                                                idx := (i + d) mod n |} q)) ->
             times (List.length (results ms)) c p = Ok tt p).
  { intros c d Step.
    destruct (@times_shift c ms d Step (List.length (results ms)) p it active placed named)
      as (it' & G & R).
    fold n in G, R. replace (n * d) with (d * n) in G, R by lia.
    rewrite Z_mod_plus_full, Z.mod_small in G, R by exact B.
    rewrite placed in G. injection G as <-.
    rewrite R, <- named, selected_eta. now rewrite with_selected_same. }
  split.
  - apply (Turn _ 1). intros q i Aq Hi Iq. apply (select_next_from q Aq Hne Hi Iq).
  - apply (Turn _ (n - 1)). intros q i Aq Hi Iq.
    replace (i + (n - 1)) with (i - 1 + n) by lia.
    apply (select_previous_from q Aq Hne Hi Iq).
Qed.

Lemma cursor_full_turn_witness :
  times 3 _select_next_result Scenario.on_first = Ok tt Scenario.on_first.
Proof.
  exact (proj1 (@cursor_full_turn Scenario.on_first Scenario.commands
                  (Scenario.item 1 "a") eq_refl eq_refl eq_refl)).
Defined.

(** ** Searching twice, opening and closing *)

Lemma show_results_twice rs p : show_results rs (show_results rs p) = show_results rs p.
Proof.
  unfold show_results. cbn. rewrite modes_update_update.
  assert (S : select_first rs (select_first rs (selected p)) = select_first rs (selected p))
    by (destruct rs; reflexivity).
  rewrite S. reflexivity.
Qed.

(** A search that returned returns the same once more. *)
Lemma search_and_update_again {RT : Runtime} pattern p p' :
  _search_and_update pattern p = Ok tt p' -> _search_and_update pattern p' = Ok tt p'.
Proof.
  intros R. destruct (search_and_update_shown _ _ R) as (ms & rs & A & E & ->).
  rewrite (@search_and_update_shows RT pattern (show_results rs p) (with_results rs ms) rs).
  - now rewrite show_results_twice.
  - apply (modes_get_show_results rs p A).
  - exact E.
Qed.

(** X5. Searching the same pattern twice in a row is searching it once:
    the outcome, the results and the selection do not depend on the
    results and the selection that were there. *)
Theorem search_twice_is_once {RT : Runtime} (pattern : string) (p : Palette) :
  (_search_and_update pattern ;; _search_and_update pattern) p
  = _search_and_update pattern p.
Proof.
  unfold bind at 1.
  destruct (_search_and_update pattern p) as [[] p'|e p'] eqn:R; [|reflexivity].
  exact (search_and_update_again _ _ R).
Qed.

Lemma search_results_lastInput {RT : Runtime} pattern v ms :
  search_results pattern (with_lastInput v ms) = search_results pattern ms.
Proof. reflexivity. Qed.

(** X6. Closing a closed palette does nothing.  Closing an open one
    remembers the search text in [lastInput] of the active mode; with
    [RESET] or [RESET_CLOSE] the search text becomes the prefix and the
    results those of the empty query, else text, results and selection
    stay; and [open] ends [false] with [NO_ACTION] or [RESET] but [true]
    again with [KEEP_CLOSE] or [RESET_CLOSE], whose branch sets it back
    once it is [false]. *)
Theorem close_palette_outcome {RT : Runtime} (p : Palette) (ms : PaletteModeState)
  (active : modes_get (mode_state p) (modes p) = Some ms)
  (valid : should_reset (closeAction p) = false \/
           valid_empty_mode (emptyMode (config ms))) :
  (open p = false -> _close_palette p = Ok tt p) /\
  (open p = true ->
   exists p' m',
     _close_palette p = Ok tt p' /\
     open p' = should_close (closeAction p) /\
     mode_state p' = mode_state p /\
     modes_get (mode_state p') (modes p') = Some m' /\
     lastInput m' = searchText p /\
     (should_reset (closeAction p) = false ->
        searchText p' = searchText p /\ results m' = results ms /\
        selected p' = selected p) /\
     (should_reset (closeAction p) = true ->
        searchText p' = prefix (config ms) /\
        search_results "" ms = Some (results m') /\
        selected p' = select_first (results m') (selected p))).
Proof.
  split; intros O; unfold _close_palette; unfold bind at 1; unfold get; cbn beta iota;
    rewrite O; cbn [negb]; [reflexivity|].
  unfold bind, modify. cbn beta iota.
  set (p0 := with_open false p).
  assert (A0 : modes_get (mode_state p0) (modes p0) = Some ms) by exact active.
  rewrite (resolve_close_action_eq p0 A0).
  change (closeAction p0) with (closeAction p).
  pose proof (modes_get_remember_input p0 A0) as AR.
  change (searchText p0) with (searchText p) in AR.
  destruct (should_reset (closeAction p)) eqn:SR.
  - destruct valid as [V|V]; [discriminate|].
    set (q := with_searchText (prefix (config ms)) (remember_input p0)) in *.
    assert (Aq : modes_get (mode_state q) (modes q)
                 = Some (with_lastInput (searchText p) ms)) by exact AR.
    destruct (@search_and_update_returns RT "" q _ Aq V) as [rs R]. rewrite R.
    destruct (search_and_update_shown _ _ R) as (mq & rs' & Aq' & E & Sh).
    rewrite Aq in Aq'. injection Aq' as <-. rewrite search_results_lastInput in E.
    assert (rs' = rs) as ->.
    { assert (G : option_map results (modes_get (mode_state q) (modes (show_results rs q)))
                  = option_map results (modes_get (mode_state q) (modes (show_results rs' q))))
        by (now rewrite Sh).
      rewrite !(modes_get_show_results _ q Aq) in G. cbn in G. congruence. }
    eexists. exists (with_results rs (with_lastInput (searchText p) ms)).
    split; [reflexivity|]. unfold reopen.
    change (open (show_results rs q)) with false. rewrite andb_true_r.
    split; [destruct (should_close (closeAction p)); reflexivity|].
    split; [destruct (should_close (closeAction p)); reflexivity|].
    split; [destruct (should_close (closeAction p)); apply (modes_get_show_results rs q Aq)|].
    split; [reflexivity|]. split; [discriminate|]. intros _.
    split; [destruct (should_close (closeAction p)); reflexivity|].
    split; [exact E|destruct (should_close (closeAction p)); reflexivity].
  - eexists. exists (with_lastInput (searchText p) ms).
    split; [reflexivity|]. unfold reopen.
    change (open (remember_input p0)) with false. rewrite andb_true_r.
    split; [destruct (should_close (closeAction p)); reflexivity|].
    split; [destruct (should_close (closeAction p)); reflexivity|].
    split; [destruct (should_close (closeAction p)); exact AR|].
    split; [reflexivity|]. split; [|discriminate]. intros _.
    split; [destruct (should_close (closeAction p)); reflexivity|].
    split; [reflexivity|destruct (should_close (closeAction p)); reflexivity].
Qed.

Lemma close_palette_outcome_witness :
  let keep :=
    {| modes := modes Scenario.on_first; mode_state := "commands"; open := true;
       searchText := ">b"; paletteMode := "commands"; closeAction := KEEP_CLOSE;
       debounce := 150; resetOnOpen := false; error := None;
       selected := selected Scenario.on_first; debounce_id := None;
       shorcuts_cleanup := []; calls := [] |} in
  open (state_of (@_close_palette Scenario.runtime keep)) = true /\
  searchText (state_of (@_close_palette Scenario.runtime keep)) = ">b" /\
  open (state_of (@_close_palette Scenario.runtime Scenario.on_first)) = false.
Proof.
  intros keep. split; [|split].
  - destruct (proj2 (@close_palette_outcome Scenario.runtime keep
                       Scenario.commands eq_refl (or_introl eq_refl)) eq_refl)
      as (p' & m' & R & O & _).
    rewrite R. exact O.
  - destruct (proj2 (@close_palette_outcome Scenario.runtime keep
                       Scenario.commands eq_refl (or_introl eq_refl)) eq_refl)
      as (p' & m' & R & _ & _ & _ & _ & K & _).
    rewrite R. exact (proj1 (K eq_refl)).
  - destruct (proj2 (@close_palette_outcome Scenario.runtime Scenario.on_first
                       Scenario.commands eq_refl (or_intror I)) eq_refl)
      as (p' & m' & R & O & _).
    rewrite R. exact O.
Defined.

Lemma substring_none n s : substring n 0 s = "".
Proof.
  revert n. induction s as [|c s IH]; intros [|n]; cbn; auto.
Qed.

(** [s.slice(s.length)] is empty. *)
Lemma slice_all s : slice (String.length s) s = "".
Proof. unfold slice. rewrite Nat.sub_diag. apply substring_none. Qed.

Lemma update_results_prefix {RT : Runtime} q mq :
  modes_get (mode_state q) (modes q) = Some mq ->
  searchText q = prefix (config mq) ->
  _update_results q = _search_and_update "" q.
Proof.
  intros A T. unfold _update_results. unfold bind at 1. unfold get. cbn beta iota.
  unfold bind at 1. unfold the_mode_state at 1. rewrite A. cbn beta iota.
  now rewrite T, slice_all.
Qed.

(** X7. Opening the palette on [mname] does not check the name.  Without
    [resetOnOpen] it points the active mode and the mode store at
    [mname], sets [open] and leaves all else as it is, whether or not
    such a mode exists.  With [resetOnOpen] and a mode of that name, the
    mode's current item is cleared, the search text becomes its prefix
    and its results those of the empty query, with the selection on the
    first; with no mode of that name a [TypeError] is thrown once [open]
    is set. *)
Theorem open_palette_outcome {RT : Runtime} (p : Palette) (mname : string) :
  let opened := with_open true (with_paletteMode mname (with_mode_state mname p)) in
  (resetOnOpen p = false -> _open_palette mname p = Ok tt opened) /\
  (resetOnOpen p = true ->
   forall m rs, modes_get mname (modes p) = Some m ->
     search_results "" m = Some rs ->
     exists p',
       _open_palette mname p = Ok tt p' /\
       open p' = true /\ mode_state p' = mname /\ paletteMode p' = mname /\
       searchText p' = prefix (config m) /\
       modes_get mname (modes p') = Some (with_results rs (with_current None m)) /\
       selected p' = select_first rs (selected p)) /\
  (resetOnOpen p = true -> modes_get mname (modes p) = None ->
   _open_palette mname p = Throw (TypeError "_mode_state is undefined") opened).
Proof.
  intros opened. split; [|split].
  - intros Rs. unfold _open_palette. run_monad.
    change (resetOnOpen (with_open true (with_paletteMode mname (with_mode_state mname p))))
      with (resetOnOpen p).
    rewrite Rs. reflexivity.
  - intros Rs m rs G E.
    set (q := with_searchText (prefix (config m))
                (with_modes (modes_update mname (with_current None) (modes p)) opened)).
    assert (Aq : modes_get (mode_state q) (modes q) = Some (with_current None m)).
    { cbn. rewrite modes_get_update_same, G. reflexivity. }
    assert (Run : _open_palette mname p = _search_and_update "" q).
    { rewrite <- (update_results_prefix q Aq eq_refl).
      unfold _open_palette. run_monad.
      change (resetOnOpen (with_open true (with_paletteMode mname (with_mode_state mname p))))
        with (resetOnOpen p).
      rewrite Rs. cbn [negb]. fold opened.
      change (modes_get (mode_state opened) (modes opened)) with (modes_get mname (modes p)).
      rewrite G. cbn beta iota.
      change (modes_get
                (mode_state (with_modes (modes_update (mode_state opened)
                                           (with_current None) (modes opened)) opened))
                (modes (with_modes (modes_update (mode_state opened)
                                      (with_current None) (modes opened)) opened)))
        with (modes_get mname (modes_update mname (with_current None) (modes p))).
      rewrite modes_get_update_same, G. reflexivity. }
    rewrite Run. rewrite (search_and_update_shows "" q Aq (rs := rs)) by exact E.
    eexists. split; [reflexivity|]. repeat (split; [reflexivity|]).
    split; [|reflexivity]. apply (modes_get_show_results rs q Aq).
  - intros Rs G. unfold _open_palette. run_monad.
    change (resetOnOpen (with_open true (with_paletteMode mname (with_mode_state mname p))))
      with (resetOnOpen p).
    rewrite Rs. cbn [negb]. fold opened.
    change (modes_get (mode_state opened) (modes opened)) with (modes_get mname (modes p)).
    rewrite G. reflexivity.
Qed.

Lemma open_palette_outcome_witness :
  let reset :=
    {| modes := modes Scenario.on_first; mode_state := "default"; open := false;
       searchText := "x"; paletteMode := "default"; closeAction := RESET;
       debounce := 150; resetOnOpen := true; error := None;
       selected := selected Scenario.cleared; debounce_id := None;
       shorcuts_cleanup := []; calls := [] |} in
  let after := state_of (@_open_palette Scenario.runtime "commands" reset) in
  open after = true /\ mode_state after = "commands" /\ searchText after = ">" /\
  selected after = {| el := None; sel_id := Some "a"; idx := 0 |}.
Proof.
  intros reset after.
  destruct (proj1 (proj2 (@open_palette_outcome Scenario.runtime reset "commands"))
              eq_refl Scenario.commands Scenario.abc eq_refl eq_refl)
    as (p' & R & O & M & _ & T & _ & S).
  unfold after. rewrite R. cbn [state_of]. rewrite O, M, T, S. repeat split.
Defined.

(** ** What a registration leaves *)

(** A refresh that returned returns the same once more. *)
Lemma refresh_again {RT : Runtime} mname p p' :
  refresh_if_active mname p = Ok tt p' -> refresh_if_active mname p' = Ok tt p'.
Proof.
  unfold refresh_if_active. unfold bind at 1 3. unfold get. cbn beta iota.
  destruct (open p) eqn:O.
  - unfold bind at 1. unfold the_mode_state at 1.
    destruct (modes_get (mode_state p) (modes p)) as [ma|] eqn:A; [|discriminate].
    cbn beta iota. destruct (String.eqb (mode ma) mname) eqn:E; cbn [when].
    + unfold _update_results at 1. unfold bind at 1. unfold get. cbn beta iota.
      unfold bind at 1. unfold the_mode_state at 1. rewrite A. cbn beta iota.
      intros R. pose proof (search_and_update_again _ _ R) as R'.
      destruct (search_and_update_shown _ _ R) as (ms & rs & A' & _ & ->).
      rewrite A in A'. injection A' as <-.
      change (open (show_results rs p)) with (open p). rewrite O.
      unfold bind at 1. unfold the_mode_state at 1.
      change (mode_state (show_results rs p)) with (mode_state p).
      rewrite (modes_get_show_results rs p A). cbn beta iota.
      change (mode (with_results rs ma)) with (mode ma). rewrite E. cbn [when].
      unfold _update_results. unfold bind at 1. unfold get. cbn beta iota.
      unfold bind at 1. unfold the_mode_state at 1.
      change (mode_state (show_results rs p)) with (mode_state p).
      rewrite (modes_get_show_results rs p A). cbn beta iota. exact R'.
    + intros R. injection R as <-. rewrite O. unfold bind at 1. unfold the_mode_state.
      rewrite A. cbn beta iota. now rewrite E.
  - intros R. injection R as <-. now rewrite O.
Qed.

(** A call of [registerItem] that returns: the loop had a result, and the
    mode holds it with [rawAllSorted] computed anew. *)
Lemma registerItem_returns {RT : Runtime} mname item override silent p m news p' :
  modes_get mname (modes p) = Some m ->
  registerItem mname item override silent p = Ok news p' ->
  exists c' m',
    registered_by (sort m) override silent item (registry_of m) [] = Some (c', news) /\
    modes_get mname (modes p') = Some m' /\
    static_of m' = static_of m /\
    registry_of m' = resorted (static_of m) c' /\
    control p' = control p /\
    refresh_if_active mname p' = Ok tt p'.
Proof.
  intros G R.
  pose proof (@registerItem_spec RT mname item override silent p m G) as S.
  destruct (registered_by (sort m) override silent item (registry_of m) [])
    as [[c' news']|]; [|destruct S as (e & q & E); rewrite E in R; discriminate].
  destruct S as [(pS & CS & VS & E)|(_ & e & q & E)]; [|rewrite E in R; discriminate].
  rewrite E in R.
  destruct (refresh_views mname mname pS) as [VR CR].
  destruct (refresh_if_active mname pS) as [[] pR|] eqn:Rf; [|discriminate].
  injection R as <- <-. cbn [state_of] in VR, CR. rewrite VS in VR.
  destruct (registry_view_mode mname pR VR) as (m' & G' & S' & R').
  exists c', m'. repeat split; auto; [congruence|exact (refresh_again _ _ Rf)].
Qed.

Lemma refresh_safe_returns {RT : Runtime} mname p :
  refresh_safe p -> returned (refresh_if_active mname p) = true.
Proof.
  intros [O|(ma & A & V)]; unfold refresh_if_active; unfold bind at 1; unfold get;
    cbn beta iota.
  - now rewrite O.
  - destruct (open p); [|reflexivity].
    unfold bind at 1. unfold the_mode_state. rewrite A. cbn beta iota.
    destruct (String.eqb (mode ma) mname); [|reflexivity]. cbn [when].
    unfold _update_results. unfold bind at 1. unfold get. cbn beta iota.
    unfold bind at 1. unfold the_mode_state. rewrite A. cbn beta iota.
    destruct (@search_and_update_returns RT
                (slice (String.length (prefix (config ma))) (searchText p)) p ma A V)
      as [rs R].
    now rewrite R.
Qed.




Lemma find_index_find A (f : A -> bool) l k :
  find_index f l = Some k -> nth_error l k = find f l.
Proof.
  revert k. induction l as [|x r IH]; intros k; cbn; [discriminate|].
  destruct (f x); [intros H; injection H as <-; reflexivity|].
  destruct (find_index f r) as [j|]; [|discriminate].
  intros H. injection H as <-. cbn. now apply IH.
Qed.


Section FreshPrefix.
Context {RT : Runtime}.
Variable mname : string.

End FreshPrefix.



(** X10. Without [override], a call of [registerItem] that returns has
    only appended: [rawAll], [items] and the searcher are what they were,
    followed by the new items in the order of the batch; the new items
    have ids that were not registered, distinct from one another, and
    each is an item of the batch. *)
Theorem registration_only_appends {RT : Runtime} (p : Palette) (mname : string)
  (m : PaletteModeState) (item : list HyperItem) (silent : bool)
  (new_items : list HyperItem) (p' : Palette)
  (registered : modes_get mname (modes p) = Some m)
  (called : registerItem mname item false silent p = Ok new_items p') :
  exists m',
    modes_get mname (modes p') = Some m' /\
    rawAll m' = rawAll m ++ new_items /\
    items m' = items m ++ new_items /\
    searcher m' = searcher m ++ new_items /\
    fresh_over (rawAll m) new_items /\
    Forall (from_batch item) new_items.
Proof.
  destruct (@registerItem_returns RT mname item false silent p m _ _ registered called)
    as (c' & m' & Reg & G' & S' & R' & _ & _).
  assert (Reg' : registered_by (sort m) false silent item
                   (rawAll m ++ [], items m ++ [], searcher m ++ [], rawAllSorted m) []
                 = Some (c', new_items)) by (now rewrite !app_nil_r).
  assert (F0 : fresh_over (rawAll m) []) by (split; constructor).
  destruct (@registered_by_appends RT (sort m) silent item item _ _ _ _ [] c' new_items
              Reg' (incl_refl item) F0 (Forall_nil _)) as (-> & Fr & Fb).
  unfold static_of in R'. cbn [resorted registry_of] in R'.
  injection R' as Er Ei Es _.
  exists m'. auto 7.
Qed.

Lemma registration_only_appends_witness :
  let r := @registerItem Scenario.runtime "commands"
             [Scenario.item 4 "d"; Scenario.item 2 "b"; Scenario.item 6 "e"] false true
             Scenario.on_first in
  option_map (fun m => map id (rawAll m)) (modes_get "commands" (modes (state_of r)))
  = Some ["a"; "b"; "c"; "d"; "e"].
Proof.
  intros r.
  assert (E : r = Ok (value_of [] r) (state_of r)) by (vm_compute; reflexivity).
  destruct (@registration_only_appends Scenario.runtime Scenario.on_first "commands"
              Scenario.commands _ true (value_of [] r) (state_of r) eq_refl E)
    as (m' & G & Raw & _).
  rewrite G. cbn [option_map]. rewrite Raw. vm_compute. reflexivity.
Defined.

(** *** The collections stay in step *)

Lemma NoDup_map_eq A B (f : A -> B) l a b :
  NoDup (map f l) -> In a l -> In b l -> f a = f b -> a = b.
Proof.
  induction l as [|x r IH]; cbn; [tauto|]. intros ND Ha Hb E.
  inversion ND as [|? ? Hn ND']; subst.
  destruct Ha as [<-|Ha], Hb as [<-|Hb]; auto.
  - exfalso. apply Hn. rewrite E. now apply in_map.
  - exfalso. apply Hn. rewrite <- E. now apply in_map.
Qed.

(** Distinct ids, with one id per object, are distinct objects. *)
Lemma NoDup_oids raw :
  NoDup (map id raw) -> one_id_per_object raw -> NoDup (map oid raw).
Proof.
  induction raw as [|x r IH]; cbn; intros ND One; [constructor|].
  inversion ND as [|? ? Hn ND']; subst. constructor.
  - intros Hin. apply in_map_iff in Hin. destruct Hin as (y & E & Hy).
    apply Hn. rewrite <- (One y x); [now apply in_map|now right|now left|exact E].
  - apply IH; [exact ND'|]. intros a b Ha Hb. apply One; now right.
Qed.

Lemma searcher_remove_first old se :
  In old se -> NoDup (map oid se) ->
  exists S1 S2, se = S1 ++ old :: S2 /\ searcher_remove old se = S1 ++ S2.
Proof.
  induction se as [|y r IH]; cbn; [tauto|]. intros Hin ND.
  inversion ND as [|? ? Hn ND']; subst.
  destruct (Nat.eqb (oid y) (oid old)) eqn:E.
  - apply Nat.eqb_eq in E. destruct Hin as [->|Hin].
    + exists [], r. auto.
    + exfalso. apply Hn. rewrite E. now apply in_map.
  - destruct Hin as [->|Hin]; [rewrite Nat.eqb_refl in E; discriminate|].
    destruct (IH Hin ND') as (S1 & S2 & -> & ->). exists (y :: S1), S2. auto.
Qed.






(** ** Taking items away *)

Lemma splice1_split A (l : list A) i y :
  nth_error l i = Some y ->
  exists L R, l = L ++ y :: R /\ List.length L = i /\ splice1 i l = L ++ R.
Proof.
  revert i. induction l as [|x r IH]; intros [|i]; cbn; try discriminate.
  - intros H. injection H as ->. exists [], r. auto.
  - intros H. destruct (IH i H) as (L & R & -> & <- & ->). exists (x :: L), R. auto.
Qed.

Lemma splice1_ids_incl i (l : list HyperItem) : incl (map id (splice1 i l)) (map id l).
Proof.
  revert i. induction l as [|x r IH]; intros [|i]; cbn; intros k Hk; auto.
  - now right.
  - destruct Hk as [<-|Hk]; [now left|right; eapply IH; eauto].
Qed.

(** Once an item is taken away its id is gone, when ids are distinct. *)
Lemma remove_new_gone x c :
  NoDup (map id (fst (fst (fst c)))) ->
  ~ In (id x) (map id (fst (fst (fst (remove_new x c))))) /\
  NoDup (map id (fst (fst (fst (remove_new x c))))) /\
  incl (map id (fst (fst (fst (remove_new x c))))) (map id (fst (fst (fst c)))).
Proof.
  destruct c as [[[raw its] se] so]. cbn [fst remove_new]. intros ND.
  destruct (find_index (has_id (id x)) raw) as [i|] eqn:F; cbn [fst].
  - destruct (find_index_some _ _ F) as (y & N & Hy & _).
    unfold has_id in Hy. apply String.eqb_eq in Hy.
    destruct (splice1_split _ _ N) as (L & R & -> & _ & E).
    split; [|split; [now apply NoDup_ids_splice1|apply splice1_ids_incl]].
    rewrite E. rewrite map_app in *. cbn [map] in ND.
    apply NoDup_remove_2 in ND. now rewrite <- Hy.
  - split; [now apply find_index_id_none|]. split; [exact ND|apply incl_refl].
Qed.

Lemma reversed_by_gone news :
  forall c, NoDup (map id (fst (fst (fst c)))) ->
    Forall (fun x => ~ In (id x) (map id (fst (fst (fst (reversed_by news c)))))) news /\
    NoDup (map id (fst (fst (fst (reversed_by news c))))) /\
    incl (map id (fst (fst (fst (reversed_by news c))))) (map id (fst (fst (fst c)))).
Proof.
  induction news as [|x rest IH]; intros c ND; cbn [reversed_by fold_left].
  - split; [constructor|]. split; [exact ND|apply incl_refl].
  - destruct (remove_new_gone x c ND) as (G1 & ND1 & I1).
    destruct (IH _ ND1) as (G & ND' & I).
    split; [|split; [exact ND'|eapply incl_tran; eauto]].
    constructor; [|exact G]. intros Hin. apply G1. now apply I.
Qed.

Section TakingAway.
Context {RT : Runtime}.
Variable mname : string.

(** The loop of the callback finds nothing to take away. *)
Lemma unregister_new_items_absent news :
  forall p m, modes_get mname (modes p) = Some m ->
    Forall (fun x => ~ In (id x) (map id (rawAll m))) news ->
    unregister_new_items mname news p = Ok tt p.
Proof.
  induction news as [|x rest IH]; intros p m G F; cbn [unregister_new_items];
    [reflexivity|].
  inversion F as [|? ? Hx F']; subst.
  unfold bind at 1. unfold unregister_new_item. unfold bind at 1. unfold the_mode.
  rewrite G. cbn beta iota.
  apply find_index_id_none in Hx. rewrite Hx. cbn [ret]. eapply IH; eauto.
Qed.
End TakingAway.

(** X12. Calling the callback returned by [registerItem] a second time
    changes nothing: in a mode with distinct ids, when the callback has
    returned, calling it again returns and leaves the palette exactly as
    it is. *)
Theorem reversal_twice {RT : Runtime} (p : Palette) (mname : string)
  (m : PaletteModeState) (new_items : list HyperItem) (p2 : Palette)
  (registered : modes_get mname (modes p) = Some m)
  (unique : NoDup (map id (rawAll m)))
  (undone : reversal mname new_items p = Ok tt p2) :
  reversal mname new_items p2 = Ok tt p2.
Proof.
  assert (V : registry_view mname p = Some (static_of m, registry_of m)).
  { unfold registry_view. now rewrite registered. }
  destruct (@unregister_new_items_registry mname _ new_items p _ V)
    as [(pU & RU & VU & _)|(_ & e & q & L)].
  2:{ exfalso. unfold reversal in undone. unfold bind at 1 in undone.
      unfold get in undone. cbn beta iota in undone. rewrite registered in undone.
      unfold bind at 1 in undone. rewrite L in undone. discriminate undone. }
  unfold reversal in undone. unfold bind at 1 in undone. unfold get in undone.
  cbn beta iota in undone. rewrite registered in undone.
  unfold bind at 1 in undone. rewrite RU in undone. cbn beta iota in undone.
  destruct (refresh_views mname mname pU) as [V2 _]. rewrite undone in V2.
  cbn [state_of] in V2. rewrite VU in V2.
  destruct (registry_view_mode mname p2 V2) as (m2 & G2 & _ & E2).
  destruct (@reversed_by_gone new_items (registry_of m) unique) as (Gone & _).
  rewrite <- E2 in Gone. cbn [registry_of fst] in Gone.
  unfold reversal. unfold bind at 1. unfold get. cbn beta iota. rewrite G2.
  unfold bind at 1. rewrite (@unregister_new_items_absent mname new_items p2 m2 G2 Gone).
  cbn beta iota. exact (@refresh_again RT mname pU p2 undone).
Qed.

Lemma reversal_twice_witness :
  let r := @registerItem Scenario.runtime "commands" [Scenario.item 4 "d"] false true
             Scenario.on_first in
  let once := state_of (@reversal Scenario.runtime "commands" (value_of [] r) (state_of r)) in
  @reversal Scenario.runtime "commands" (value_of [] r) once = Ok tt once.
Proof.
  intros r once.
  assert (E : @reversal Scenario.runtime "commands" (value_of [] r) (state_of r)
              = Ok tt once) by (vm_compute; reflexivity).
  assert (G : exists m, modes_get "commands" (modes (state_of r)) = Some m /\
                        map id (rawAll m) = ["a"; "b"; "c"; "d"]).
  { eexists. split; vm_compute; reflexivity. }
  destruct G as (m & G & Ids).
  apply (@reversal_twice Scenario.runtime (state_of r) "commands" m (value_of [] r) once G);
    [|exact E].
  rewrite Ids. repeat (constructor; [cbn; intuition discriminate|]); constructor.
Defined.

Section Unregistration.
Context {RT : Runtime}.
Variable mname : string.

Lemma unregister_loop_nothing selectors :
  forall p m k, modes_get mname (modes p) = Some m ->
    Forall (fun sel => to_remove sel (rawAll m) = []) selectors ->
    unregister_loop mname selectors k p = Ok k p.
Proof.
  induction selectors as [|sel rest IH]; intros p m k G F; cbn [unregister_loop];
    [reflexivity|].
  inversion F as [|? ? Hs F']; subst.
  unfold bind at 1. unfold the_mode. rewrite G. cbn beta iota. rewrite Hs.
  cbn [rev unregister_indices List.length]. unfold bind at 1. cbn [ret].
  rewrite Nat.add_0_r. eapply IH; eauto.
Qed.

(** The body of the loop of [_unregister_item] does to the mode what
    [remove_at] computes, when the [onUnregister] of the item comes
    back. *)
Lemma unregister_at_registry st k :
  forall p c c',
    registry_view mname p = Some (st, c) ->
    (forall x, nth_error (fst (fst (fst c))) k = Some x -> unregisters_quietly x) ->
    remove_at k c = Some c' ->
    exists p',
      unregister_at mname k p = Ok tt p' /\
      registry_view mname p' = Some (st, c') /\
      control p' = control p.
Proof.
  intros p c c' V Q H.
  destruct (registry_view_mode mname p V) as (m & G & S & R).
  unfold unregister_at. unfold bind at 1. unfold the_mode. rewrite G. cbn beta iota.
  rewrite <- R in H, Q. cbn [registry_of remove_at fst] in H, Q.
  destruct (nth_error (rawAll m) k) as [x|]; [|discriminate]. injection H as <-.
  specialize (Q x eq_refl).
  destruct (@update_mode_registry mname
              (fun m => with_rawAll (splice1 k (rawAll m)) m)
              (fun _ '(raw, its, se, so) => (splice1 k raw, its, se, so))
              p _ _ ltac:(reflexivity) ltac:(reflexivity) V)
    as (p1 & R1 & V1 & C1).
  destruct (@update_mode_registry mname
              (fun m => with_items (splice1 k (items m)) m)
              (fun _ '(raw, its, se, so) => (raw, splice1 k its, se, so))
              p1 _ _ ltac:(reflexivity) ltac:(reflexivity) V1)
    as (p2 & R2 & V2 & C2).
  destruct (@update_mode_registry mname
              (fun m => with_searcher (searcher_remove x (searcher m)) m)
              (fun _ '(raw, its, se, so) => (raw, its, searcher_remove x se, so))
              p2 _ _ ltac:(reflexivity) ltac:(reflexivity) V2)
    as (p3 & R3 & V3 & C3).
  destruct (quiet_views mname p3 (quiet_teardown x Q)) as (p4 & R4 & V4 & C4).
  rewrite V3 in V4.
  destruct (@update_mode_registry mname
              (fun m => with_rawAllSorted (remove_by_id (id x) (rawAllSorted m)) m)
              (fun _ '(raw, its, se, so) => (raw, its, se, remove_by_id (id x) so))
              p4 _ _ ltac:(reflexivity) ltac:(reflexivity) V4)
    as (p5 & R5 & V5 & C5).
  exists p5. unfold bind. rewrite R1, R2, R3, R4, R5.
  split; [reflexivity|]. split; [|congruence].
  rewrite V5, <- R. reflexivity.
Qed.
End Unregistration.

(** X13. Unregistering what is not registered is no error and no change:
    when no selector of the call matches an item of the mode,
    [unregisterItem] returns and leaves the palette exactly as it is, the
    results included. *)
Theorem unregister_nothing {RT : Runtime} (p : Palette) (mname : string)
  (m : PaletteModeState) (selectors : list ItemMatcher)
  (registered : modes_get mname (modes p) = Some m)
  (absent : Forall (fun sel => to_remove sel (rawAll m) = []) selectors) :
  unregisterItem mname selectors p = Ok tt p.
Proof.
  unfold unregisterItem. unfold bind at 1. unfold get. cbn beta iota. rewrite registered.
  unfold _unregister_item. unfold bind at 1.
  rewrite (@unregister_loop_nothing mname selectors p m 0%nat registered absent).
  reflexivity.
Qed.

Lemma unregister_nothing_witness :
  @unregisterItem Scenario.runtime "commands"
    [MatchId "zz"; MatchItem (Scenario.item 9 "a"); MatchPredicate (fun _ => false)]
    Scenario.on_first
  = Ok tt Scenario.on_first.
Proof.
  apply (@unregister_nothing Scenario.runtime Scenario.on_first "commands"
           Scenario.commands _ eq_refl).
  repeat constructor.
Defined.

(** The body of the loop of [_unregister_item] when the [onUnregister]
    of the item throws: the item is out of [rawAll], of [items] and of
    the searcher, and still in [rawAllSorted]. *)
Lemma unregister_at_thrown {RT : Runtime} mname k p m x e :
  modes_get mname (modes p) = Some m ->
  nth_error (rawAll m) k = Some x ->
  onUnregister x = Some (Throws e) ->
  exists p' m',
    unregister_at mname k p = Throw e p' /\
    modes_get mname (modes p') = Some m' /\
    registry_of m' = (splice1 k (rawAll m), splice1 k (items m),
                      searcher_remove x (searcher m), rawAllSorted m) /\
    calls p' = calls p ++ [CallOnUnregister (id x)].
Proof.
  intros G N T.
  assert (V : registry_view mname p = Some (static_of m, registry_of m)).
  { unfold registry_view. now rewrite G. }
  destruct (@update_mode_registry mname
              (fun m => with_rawAll (splice1 k (rawAll m)) m)
              (fun _ '(raw, its, se, so) => (splice1 k raw, its, se, so))
              p _ _ ltac:(reflexivity) ltac:(reflexivity) V)
    as (p1 & R1 & V1 & _).
  destruct (@update_mode_registry mname
              (fun m => with_items (splice1 k (items m)) m)
              (fun _ '(raw, its, se, so) => (raw, splice1 k its, se, so))
              p1 _ _ ltac:(reflexivity) ltac:(reflexivity) V1)
    as (p2 & R2 & V2 & _).
  destruct (@update_mode_registry mname
              (fun m => with_searcher (searcher_remove x (searcher m)) m)
              (fun _ '(raw, its, se, so) => (raw, its, searcher_remove x se, so))
              p2 _ _ ltac:(reflexivity) ltac:(reflexivity) V2)
    as (p3 & R3 & V3 & _).
  assert (K : calls p3 = calls p).
  { pose proof (@keeps_update_mode_field _ calls mname
                  (fun m => with_rawAll (splice1 k (rawAll m)) m)
                  ltac:(reflexivity) p) as K1.
    pose proof (@keeps_update_mode_field _ calls mname
                  (fun m => with_items (splice1 k (items m)) m)
                  ltac:(reflexivity) p1) as K2.
    pose proof (@keeps_update_mode_field _ calls mname
                  (fun m => with_searcher (searcher_remove x (searcher m)) m)
                  ltac:(reflexivity) p2) as K3.
    rewrite R1 in K1. rewrite R2 in K2. rewrite R3 in K3. cbn [state_of] in *. congruence. }
  destruct (quiet_views mname p3
              (quiet_when (match shortcut x with Some _ => true | None => false end)
                 (quiet_unregister_shortcut x))) as (p4 & R4 & V4 & _).
  assert (K4 : calls p4 = calls p3).
  { destruct (shortcut x); cbn [when] in R4; [|unfold ret in R4; now injection R4 as <-].
    unfold _unregister_shortcut, modify in R4. now injection R4 as <-. }
  rewrite V3 in V4.
  destruct (registry_view_mode mname p4 V4) as (m4 & G4 & _ & E4).
  exists (with_calls (calls p4 ++ [CallOnUnregister (id x)]) p4), m4.
  split; [|split; [exact G4|split; [exact E4|cbn; congruence]]].
  unfold unregister_at. unfold bind at 1. unfold the_mode. rewrite G. cbn beta iota.
  rewrite N. unfold bind at 1. rewrite R1. cbn beta iota.
  unfold bind at 1. rewrite R2. cbn beta iota.
  unfold bind at 1. rewrite R3. cbn beta iota.
  unfold bind at 1. unfold teardown. unfold bind at 1. rewrite R4. cbn beta iota.
  unfold call_onUnregister. rewrite T. reflexivity.
Qed.

(** X14. Unregistering by id reaches the first item of [rawAll] that
    bears the id.  When the [onUnregister] of that item comes back (or
    it has none) and the refresh has nothing to throw, [unregisterItem]
    returns: the item is taken out of [rawAll], the entry at the same
    index out of [items], that very object out of the searcher and the
    first entry with the id out of [rawAllSorted]; everything else stays
    in order, and with distinct ids the id is no longer registered.
    When the [onUnregister] of the item throws, [unregisterItem] throws
    the same: the item is out of [rawAll], [items] and the searcher, but
    [rawAllSorted] still holds it, and the call is logged. *)
Theorem unregister_by_id {RT : Runtime} (p : Palette) (mname : string)
  (m : PaletteModeState) (i : string)
  (registered : modes_get mname (modes p) = Some m)
  (present : In i (map id (rawAll m))) :
  exists k x,
    find_index (has_id i) (rawAll m) = Some k /\
    nth_error (rawAll m) k = Some x /\ id x = i /\
    (unregisters_quietly x -> refresh_safe p ->
     exists p' m',
       unregisterItem mname [MatchId i] p = Ok tt p' /\
       modes_get mname (modes p') = Some m' /\
       rawAll m' = splice1 k (rawAll m) /\
       items m' = splice1 k (items m) /\
       searcher m' = searcher_remove x (searcher m) /\
       rawAllSorted m' = remove_by_id i (rawAllSorted m) /\
       (NoDup (map id (rawAll m)) -> ~ In i (map id (rawAll m')))) /\
    (forall e, onUnregister x = Some (Throws e) ->
     exists p' m',
       unregisterItem mname [MatchId i] p = Throw e p' /\
       modes_get mname (modes p') = Some m' /\
       rawAll m' = splice1 k (rawAll m) /\
       items m' = splice1 k (items m) /\
       searcher m' = searcher_remove x (searcher m) /\
       rawAllSorted m' = rawAllSorted m /\
       calls p' = calls p ++ [CallOnUnregister i]).
Proof.
  destruct (find_index (has_id i) (rawAll m)) as [k|] eqn:F;
    [|apply find_index_id_none in F; contradiction].
  destruct (find_index_some _ _ F) as (x & N & Hx & _).
  unfold has_id in Hx. apply String.eqb_eq in Hx.
  assert (Call : unregisterItem mname [MatchId i] p
                 = match unregister_at mname k p with
                   | Ok _ pA => refresh_if_active mname pA
                   | Throw e pA => Throw e pA
                   end).
  { unfold unregisterItem. unfold bind at 1. unfold get. cbn beta iota.
    rewrite registered.
    unfold _unregister_item. unfold bind at 1. cbn [unregister_loop].
    unfold bind at 1. unfold the_mode. rewrite registered. cbn beta iota.
    cbn [to_remove]. rewrite F. cbn [rev app unregister_indices List.length].
    unfold bind at 1. unfold bind at 1.
    destruct (unregister_at mname k p) as [[] pA|e pA]; reflexivity. }
  exists k, x. split; [reflexivity|]. split; [exact N|]. split; [exact Hx|]. split.
  - intros quietly safe.
    assert (V : registry_view mname p = Some (static_of m, registry_of m)).
    { unfold registry_view. now rewrite registered. }
    assert (H : remove_at k (registry_of m)
                = Some (splice1 k (rawAll m), splice1 k (items m),
                        searcher_remove x (searcher m), remove_by_id i (rawAllSorted m))).
    { cbn [registry_of remove_at]. now rewrite N, Hx. }
    assert (Q : forall y, nth_error (fst (fst (fst (registry_of m)))) k = Some y ->
                          unregisters_quietly y).
    { cbn [registry_of fst]. rewrite N. intros y Hy. now injection Hy as <-. }
    destruct (@unregister_at_registry mname _ k p _ _ V Q H) as (pA & RA & VA & CA).
    assert (Ret : returned (refresh_if_active mname pA) = true).
    { rewrite (@refresh_returned_control RT mname pA p CA).
      now apply refresh_safe_returns. }
    destruct (returned_ok _ Ret) as ([] & p' & R').
    destruct (refresh_views mname mname pA) as [V' _]. rewrite R' in V'.
    cbn [state_of] in V'. rewrite VA in V'.
    destruct (registry_view_mode mname p' V') as (m' & G' & _ & E').
    cbn [registry_of] in E'. injection E' as Er Ei Es Eso.
    exists p', m'. split; [now rewrite Call, RA|].
    repeat (split; [assumption|]). intros ND. rewrite Er.
    destruct (splice1_split _ _ N) as (L & R & EL & _ & ES). rewrite ES.
    rewrite EL, map_app in ND. cbn [map] in ND. apply NoDup_remove_2 in ND.
    now rewrite <- Hx, map_app.
  - intros e T.
    destruct (@unregister_at_thrown RT mname k p m x e registered N T)
      as (p' & m' & R & G' & E' & K).
    unfold registry_of in E'. injection E' as Er Ei Es Eso.
    exists p', m'. split; [now rewrite Call, R|].
    repeat (split; [assumption|]). now rewrite <- Hx.
Qed.

Lemma unregister_by_id_witness :
  let after := state_of (@unregisterItem Scenario.runtime "commands" [MatchId "b"]
                           Scenario.on_first) in
  let stuck := @unregisterItem Scenario.runtime "commands" [MatchId "k"] Scenario.sticky in
  option_map (fun m => (map id (rawAll m), map id (rawAllSorted m)))
    (modes_get "commands" (modes after))
  = Some (["a"; "c"], ["a"; "c"]) /\
  returned stuck = false /\
  option_map (fun m => (map id (rawAll m), map id (rawAllSorted m)))
    (modes_get "commands" (modes (state_of stuck)))
  = Some (["b"], ["k"; "b"]).
Proof.
  intros after stuck. split.
  - destruct (@unregister_by_id Scenario.runtime Scenario.on_first "commands"
                Scenario.commands "b" eq_refl (or_intror (or_introl eq_refl)))
      as (k & x & F & N & _ & Quiet & _).
    cbn in F. injection F as <-. cbn in N. injection N as <-.
    destruct (Quiet I (or_intror (ex_intro _ Scenario.commands (conj eq_refl I))))
      as (p' & m' & R & G & Er & _ & _ & Eso & _).
    unfold after. rewrite R. cbn [state_of]. rewrite G. cbn [option_map].
    rewrite Er, Eso. reflexivity.
  - destruct (@unregister_by_id Scenario.runtime Scenario.sticky "commands"
                Scenario.clung "k" eq_refl (or_introl eq_refl))
      as (k & x & F & N & _ & _ & Loud).
    cbn in F. injection F as <-. cbn in N. injection N as <-.
    destruct (Loud (Thrown "stay") eq_refl) as (p' & m' & R & G & Er & _ & _ & Eso & _).
    unfold stuck. rewrite R. cbn [returned state_of]. rewrite G. cbn [option_map].
    rewrite Er, Eso. split; reflexivity.
Defined.

(** X15. Registering one item under an id that was not registered and
    then unregistering that id restores the mode: in a mode whose
    collections agree with one another, [rawAll], [items], the content
    of the searcher and [rawAllSorted] are exactly what they were, order
    included.  (The [onUnregister] of the item, if it has one, comes
    back.) *)
Theorem register_unregister_round_trip {RT : Runtime} (p : Palette) (mname : string)
  (m : PaletteModeState) (x : HyperItem) (override silent : bool)
  (new_items : list HyperItem) (p1 : Palette)
  (registered : modes_get mname (modes p) = Some m)
  (synced : in_sync m)
  (stable : sortMode (config m) = UNSORTED \/ removal_stable (sorter (sort m)))
  (objects : one_id_per_object (rawAll m ++ [x]))
  (fresh : ~ In (id x) (map id (rawAll m)))
  (quietly : unregisters_quietly x)
  (called : registerItem mname [x] override silent p = Ok new_items p1) :
  exists p2 m2,
    unregisterItem mname [MatchId (id x)] p1 = Ok tt p2 /\
    modes_get mname (modes p2) = Some m2 /\
    registry_of m2 = registry_of m.
Proof.
  destruct synced as (Len & Pse & Sorted).
  destruct (@registerItem_returns RT mname [x] override silent p m _ _ registered called)
    as (c' & m1 & Reg & G1 & S1 & R1 & C1 & Rf).
  pose proof fresh as F. apply find_index_id_none in F.
  cbn [registered_by registry_of fst] in Reg. rewrite F in Reg. cbn [app] in Reg.
  injection Reg as <- <-. cbn [add_new resorted static_of] in R1. unfold searcher_add in R1.
  set (x' := set_hcache_sort (sort_key (sort m) x) x) in *.
  set (v := sorted_view (sort m) (sortMode (config m))) in *.
  assert (V : view_stable v) by (now apply sorted_view_stable).
  assert (V1 : registry_view mname p1 = Some (static_of m1, registry_of m1)).
  { unfold registry_view. now rewrite G1. }
  assert (Fx : find_index (has_id (id x)) (rawAll m ++ [x']) = Some (List.length (rawAll m)))
    by (exact (find_index_app_fresh x' (rawAll m) [] fresh)).
  assert (Nx : nth_error (rawAll m ++ [x']) (List.length (rawAll m)) = Some x').
  { rewrite nth_error_app2 by lia. now rewrite Nat.sub_diag. }
  assert (Ose : Forall (fun y => oid y <> oid x') (searcher m)).
  { apply Forall_forall. intros y Hy E. apply fresh.
    assert (Hr : In y (rawAll m)) by (eapply Permutation_in; eauto).
    rewrite <- (objects y x); [now apply in_map| | |exact E];
      apply in_or_app; [now left|right; now left]. }
  assert (H : remove_at (List.length (rawAll m)) (registry_of m1) = Some (registry_of m)).
  { rewrite R1. cbn [remove_at]. rewrite Nx. f_equal.
    rewrite splice1_app, (splice1_app_length (items m) (rawAll m) x' [] Len),
      (searcher_remove_app x' [] Ose), !app_nil_r.
    rewrite (@remove_by_id_view v x' (rawAll m) [] V fresh (fun H => H)), app_nil_r.
    unfold registry_of. now rewrite Sorted. }
  assert (Q : forall y, nth_error (fst (fst (fst (registry_of m1))))
                          (List.length (rawAll m)) = Some y ->
                        unregisters_quietly y).
  { rewrite R1. cbn [fst]. rewrite Nx. intros y Hy. injection Hy as <-. exact quietly. }
  destruct (@unregister_at_registry mname _ _ p1 _ _ V1 Q H) as (pA & RA & VA & CA).
  assert (Ret : returned (refresh_if_active mname pA) = true).
  { rewrite (@refresh_returned_control RT mname pA p1 CA). now rewrite Rf. }
  destruct (returned_ok _ Ret) as ([] & p2 & R2).
  destruct (refresh_views mname mname pA) as [V2 _]. rewrite R2 in V2. cbn [state_of] in V2.
  rewrite VA in V2. destruct (registry_view_mode mname p2 V2) as (m2 & G2 & _ & E2).
  exists p2, m2. split; [|split; assumption].
  unfold unregisterItem. unfold bind at 1. unfold get. cbn beta iota. rewrite G1.
  unfold _unregister_item. unfold bind at 1. cbn [unregister_loop].
  unfold bind at 1. unfold the_mode. rewrite G1. cbn beta iota.
  cbn [to_remove].
  assert (Er : rawAll m1 = rawAll m ++ [x']).
  { unfold registry_of in R1. injection R1 as Er _ _ _. exact Er. }
  rewrite Er, Fx. cbn [rev app unregister_indices List.length].
  unfold bind at 1. unfold bind at 1. rewrite RA. cbn beta iota. cbn [ret Nat.add Nat.eqb].
  exact R2.
Qed.

Lemma register_unregister_round_trip_witness :
  let r := @registerItem Scenario.runtime "commands" [Scenario.item 4 "d"] false false
             Scenario.on_first in
  exists p2 m2,
    @unregisterItem Scenario.runtime "commands" [MatchId "d"] (state_of r) = Ok tt p2 /\
    modes_get "commands" (modes p2) = Some m2 /\
    registry_of m2 = registry_of Scenario.commands.
Proof.
  intros r.
  assert (E : r = Ok (value_of [] r) (state_of r)) by (vm_compute; reflexivity).
  refine (@register_unregister_round_trip Scenario.runtime Scenario.on_first "commands"
            Scenario.commands (Scenario.item 4 "d") false false _ _ eq_refl _ _ _ _ I E).
  - split; [reflexivity|]. split; [apply Permutation_refl|vm_compute; reflexivity].
  - right. apply (@defaultItemSorter_removal_stable Scenario.runtime).
    apply scenario_compare_orders.
  - intros a b Ha Hb. cbn in Ha, Hb.
    repeat (destruct Ha as [<-|Ha]; [|]); try contradiction;
      repeat (destruct Hb as [<-|Hb]; [|]); try contradiction;
      cbn; intros Eo; try reflexivity; discriminate Eo.
  - cbn. intuition discriminate.
Defined.

(** ** Typing within a mode *)

(** A text is the prefix it starts with, followed by its slice from the
    length of the prefix. *)
Lemma prefix_slice pre text :
  startsWith text pre = true -> (pre ++ slice (String.length pre) text)%string = text.
Proof.
  unfold startsWith, slice. revert text.
  induction pre as [|c pre IH]; intros text H.
  - cbn. rewrite Nat.sub_0_r.
    clear H. induction text as [|d t IHt]; [reflexivity|]. cbn. now rewrite IHt.
  - destruct text as [|d t]; [discriminate|]. cbn in H.
    destruct (Ascii.ascii_dec c d) as [<-|]; [|discriminate].
    cbn. f_equal. apply IH, H.
Qed.

Lemma nonempty_not_falsy s : s <> "" -> falsy s = false.
Proof. destruct s; [congruence|reflexivity]. Qed.

(** [on_input] when the text starts with the prefix of the active mode,
    which is not empty: no scan. *)
Lemma on_input_within {RT : Runtime} text p ms :
  modes_get (mode_state p) (modes p) = Some ms ->
  startsWith text (prefix (config ms)) = true ->
  prefix (config ms) <> "" ->
  on_input text p = on_input_search text (debounce p <=? 0) (with_searchText text p).
Proof.
  intros A S N. unfold on_input. run_monad. cbn. rewrite A. cbn beta iota.
  rewrite S, (nonempty_not_falsy N). cbn [negb orb]. rewrite String.eqb_refl. reflexivity.
Qed.

(** X16. While the text starts with the prefix of the active mode, and
    that prefix is not empty, [on_input] never leaves the mode: the query
    is the text without the prefix; it is searched at once when
    [debounce] is not positive, else it is scheduled, replacing what was
    pending, and nothing but the search text and the pending query is
    written. *)
Theorem input_within_mode {RT : Runtime} (p : Palette) (ms : PaletteModeState)
  (text : string)
  (active : modes_get (mode_state p) (modes p) = Some ms)
  (starts : startsWith text (prefix (config ms)) = true)
  (nonempty : prefix (config ms) <> "") :
  let query := slice (String.length (prefix (config ms))) text in
  (prefix (config ms) ++ query)%string = text /\
  (debounce p <= 0 ->
   on_input text p
   = _search_and_update query (with_debounce_id None (with_searchText text p))) /\
  (0 < debounce p ->
   on_input text p = Ok tt (with_debounce_id (Some query) (with_searchText text p))) /\
  mode_state (state_of (on_input text p)) = mode_state p /\
  paletteMode (state_of (on_input text p)) = paletteMode p.
Proof.
  intros query. rewrite (on_input_within text p active starts nonempty).
  assert (A' : modes_get (mode_state (with_searchText text p))
                 (modes (with_searchText text p)) = Some ms) by exact active.
  split; [now apply prefix_slice|].
  destruct (debounce p <=? 0) eqn:D.
  - rewrite (on_input_search_forced text _ A').
    apply Z.leb_le in D. split; [reflexivity|]. split; [lia|].
    pose proof (@keeps_search_and_update_field RT _
                  (fun p => (mode_state p, paletteMode p)) query
                  ltac:(reflexivity) ltac:(reflexivity)
                  (with_debounce_id None (with_searchText text p))) as K.
    unfold query. injection K as K1 K2. split; assumption.
  - rewrite (on_input_search_deferred text _ A').
    apply Z.leb_gt in D. split; [lia|]. split; [reflexivity|]. split; reflexivity.
Qed.

Lemma input_within_mode_witness :
  @on_input Scenario.runtime ">b" Scenario.on_first
  = Ok tt (with_debounce_id (Some "b") (with_searchText ">b" Scenario.on_first)).
Proof.
  apply (proj1 (proj2 (proj2 (@input_within_mode Scenario.runtime Scenario.on_first
                                Scenario.commands ">b" eq_refl eq_refl
                                ltac:(discriminate))))).
  reflexivity.
Defined.

Lemma with_debounce_id_last a b p :
  with_debounce_id a (with_debounce_id b p) = with_debounce_id a p.
Proof. reflexivity. Qed.

Lemma with_searchText_over a b c p :
  with_searchText a (with_debounce_id b (with_searchText c p))
  = with_debounce_id b (with_searchText a p).
Proof. reflexivity. Qed.

(** X17. Only the last text is searched: with a positive [debounce],
    two texts typed within the active mode and then the timer firing come
    to one search, for the query of the second text; the query of the
    first is never searched.  A timer with nothing pending does nothing. *)
Theorem debounce_last_wins {RT : Runtime} (p : Palette) (ms : PaletteModeState)
  (t1 t2 : string)
  (active : modes_get (mode_state p) (modes p) = Some ms)
  (starts1 : startsWith t1 (prefix (config ms)) = true)
  (starts2 : startsWith t2 (prefix (config ms)) = true)
  (nonempty : prefix (config ms) <> "")
  (delayed : 0 < debounce p) :
  (on_input t1 ;; on_input t2 ;; on_timeout) p
  = _search_and_update (slice (String.length (prefix (config ms))) t2)
      (with_debounce_id None (with_searchText t2 p)) /\
  (debounce_id p = None -> on_timeout p = Ok tt p).
Proof.
  assert (D : (debounce p <=? 0) = false) by (apply Z.leb_gt; exact delayed).
  split.
  - unfold bind at 1. rewrite (on_input_within t1 p active starts1 nonempty), D.
    assert (A1 : modes_get (mode_state (with_searchText t1 p))
                   (modes (with_searchText t1 p)) = Some ms) by exact active.
    rewrite (on_input_search_deferred t1 _ A1).
    set (p1 := with_debounce_id _ (with_searchText t1 p)).
    assert (Ap1 : modes_get (mode_state p1) (modes p1) = Some ms) by exact active.
    unfold bind at 1. rewrite (on_input_within t2 p1 Ap1 starts2 nonempty).
    change (debounce p1) with (debounce p). rewrite D.
    assert (A2 : modes_get (mode_state (with_searchText t2 p1))
                   (modes (with_searchText t2 p1)) = Some ms) by exact active.
    rewrite (on_input_search_deferred t2 _ A2).
    unfold on_timeout. unfold bind at 1. unfold get. cbn beta iota.
    cbn [debounce_id with_debounce_id]. unfold bind, modify. reflexivity.
  - intros N. unfold on_timeout. unfold bind, get. now rewrite N.
Qed.

Lemma debounce_last_wins_witness :
  let typed := (@on_input Scenario.runtime ">a" ;; @on_input Scenario.runtime ">b" ;;
                @on_timeout Scenario.runtime) Scenario.on_first in
  option_map (fun m => map id (results m)) (modes_get "commands" (modes (state_of typed)))
  = Some ["b"] /\
  searchText (state_of typed) = ">b".
Proof.
  intros typed. unfold typed.
  rewrite (proj1 (@debounce_last_wins Scenario.runtime Scenario.on_first
                    Scenario.commands ">a" ">b" eq_refl eq_refl eq_refl
                    ltac:(discriminate) eq_refl)).
  split; vm_compute; reflexivity.
Defined.

(** ** Submitting and clicking *)

Lemma detached_returns (m : M unit) p : returned (detached m p) = true.
Proof. unfold detached. destruct (m p); reflexivity. Qed.

(** X18. Submitting the form, with the selection on the results of the
    active mode, raises nothing: with no results it does nothing; with
    the selection on a result it resolves that result, by its type; with
    the selection cleared it first selects the first result and resolves
    it.  With results but an index that is none of theirs it throws the
    invalid-index error and writes nothing. *)
Theorem submit_resolves_selection {RT : Runtime} (p : Palette) (ms : PaletteModeState)
  (active : modes_get (mode_state p) (modes p) = Some ms) :
  (results ms = [] -> on_submit p = Ok tt p) /\
  (forall it, array_get (results ms) (idx (selected p)) = Some it ->
     on_submit p = detached (resolve_item it SrcSubmit) p) /\
  (forall r0 rest, results ms = r0 :: rest -> idx (selected p) < 0 ->
     on_submit p
     = detached (resolve_item r0 SrcSubmit)
         (with_selected {| el := el (selected p); sel_id := Some (id r0); idx := 0 |} p)) /\
  (selection_on (results ms) (selected p) -> returned (on_submit p) = true) /\
  (results ms <> [] -> Z.of_nat (List.length (results ms)) <= idx (selected p) ->
     on_submit p
     = Throw (HyperPaletteError
                ("Invalid selected index: " ++ number_text (idx (selected p))
                 ++ " for [object Object]")%string) p).
Proof.
  assert (Empty : results ms = [] -> on_submit p = Ok tt p).
  { intros E. unfold on_submit. unfold bind at 1. unfold the_mode_state. rewrite active.
    cbn beta iota. now rewrite E. }
  assert (Placed : forall it, array_get (results ms) (idx (selected p)) = Some it ->
                     on_submit p = detached (resolve_item it SrcSubmit) p).
  { intros it G. pose proof (array_get_inside _ _ G) as [H0 Hn].
    unfold on_submit. unfold bind at 1. unfold the_mode_state. rewrite active.
    cbn beta iota.
    destruct (Nat.eqb (List.length (results ms)) 0) eqn:E;
      [apply Nat.eqb_eq in E; lia|].
    unfold bind at 1. unfold get. cbn beta iota.
    destruct (idx (selected p) <? 0) eqn:L; [apply Z.ltb_lt in L; lia|].
    unfold bind at 1. unfold ret at 1. cbn beta iota. cbn [snd]. now rewrite G. }
  assert (Cleared : forall r0 rest, results ms = r0 :: rest -> idx (selected p) < 0 ->
                      on_submit p
                      = detached (resolve_item r0 SrcSubmit)
                          (with_selected {| el := el (selected p); sel_id := Some (id r0);
                                            idx := 0 |} p)).
  { intros r0 rest E L.
    unfold on_submit. unfold bind at 1. unfold the_mode_state. rewrite active.
    cbn beta iota. rewrite E. cbn [List.length Nat.eqb].
    unfold bind at 1. unfold get. cbn beta iota.
    apply Z.ltb_lt in L. rewrite L. cbn [array_get Z.ltb Z.compare Z.to_nat nth_error].
    unfold bind, modify, ret. reflexivity. }
  split; [exact Empty|]. split; [exact Placed|]. split; [exact Cleared|]. split.
  - intros [[Hi _]|(it & G & _)].
    + destruct (results ms) as [|r0 rest] eqn:E; [now rewrite Empty|].
      rewrite (Cleared r0 rest eq_refl) by lia. apply detached_returns.
    + rewrite (Placed it G). apply detached_returns.
  - intros Hne Hi.
    unfold on_submit. unfold bind at 1. unfold the_mode_state. rewrite active.
    cbn beta iota.
    destruct (Nat.eqb (List.length (results ms)) 0) eqn:E.
    { apply Nat.eqb_eq in E. destruct (results ms); [congruence|discriminate]. }
    unfold bind at 1. unfold get. cbn beta iota.
    destruct (idx (selected p) <? 0) eqn:L; [apply Z.ltb_lt in L; lia|].
    unfold bind at 1. unfold ret at 1. cbn beta iota. cbn [snd fst].
    destruct (array_get (results ms) (idx (selected p))) as [it|] eqn:G; [|reflexivity].
    apply array_get_inside in G. lia.
Qed.

Lemma submit_resolves_selection_witness :
  let submitted := state_of (@on_submit Scenario.runtime Scenario.cleared) in
  returned (@on_submit Scenario.runtime Scenario.cleared) = true /\
  option_map history (modes_get "commands" (modes submitted)) = Some ["a"].
Proof.
  intros submitted.
  destruct (@submit_resolves_selection Scenario.runtime Scenario.cleared
              Scenario.commands eq_refl) as (_ & _ & C & R & _).
  split.
  - apply R. left. split; reflexivity.
  - unfold submitted.
    rewrite (C (Scenario.item 1 "a") [Scenario.item 2 "b"; Scenario.item 3 "c"] eq_refl
               eq_refl).
    vm_compute. reflexivity.
Defined.

(** X19. A click resolves by id, not by place: it resolves the first
    result of the active mode that bears the id of the clicked element,
    by its type, and raises nothing; when no result bears the id, or the
    element has none, it throws the invalid-id error and writes
    nothing. *)
Theorem click_resolves_by_id {RT : Runtime} (p : Palette) (ms : PaletteModeState)
  (active : modes_get (mode_state p) (modes p) = Some ms) :
  (forall i it, find (has_id i) (results ms) = Some it ->
     on_click (Some i) p = detached (resolve_item it SrcClick) p /\
     returned (on_click (Some i) p) = true) /\
  (forall i, ~ In i (map id (results ms)) ->
     on_click (Some i) p = Throw (HyperPaletteError ("Invalid item id: " ++ i)%string) p) /\
  on_click None p = Throw (HyperPaletteError "Invalid item id: null") p.
Proof.
  split; [|split].
  - intros i it F.
    assert (R : on_click (Some i) p = detached (resolve_item it SrcClick) p).
    { unfold on_click. unfold bind at 1. unfold the_mode_state. rewrite active.
      cbn beta iota.
      destruct (find_index (has_id i) (results ms)) as [k|] eqn:Fi.
      - rewrite (find_index_find _ _ Fi), F. reflexivity.
      - exfalso. apply find_some in F. destruct F as [Hin Hid].
        pose proof (proj1 (find_index_none _ _) Fi it Hin). congruence. }
    split; [exact R|]. rewrite R. apply detached_returns.
  - intros i Hn. unfold on_click. unfold bind at 1. unfold the_mode_state. rewrite active.
    cbn beta iota. apply find_index_id_none in Hn. now rewrite Hn.
  - unfold on_click. unfold bind at 1. unfold the_mode_state. rewrite active. reflexivity.
Qed.

Lemma click_resolves_by_id_witness :
  @on_click Scenario.runtime (Some "zz") Scenario.on_first
  = Throw (HyperPaletteError "Invalid item id: zz") Scenario.on_first /\
  option_map history
    (modes_get "commands"
       (modes (state_of (@on_click Scenario.runtime (Some "b") Scenario.on_first))))
  = Some ["b"].
Proof.
  destruct (@click_resolves_by_id Scenario.runtime Scenario.on_first Scenario.commands
              eq_refl) as (K & U & _).
  split.
  - apply U. cbn. intuition discriminate.
  - rewrite (proj1 (K "b" (Scenario.item 2 "b") eq_refl)). vm_compute. reflexivity.
Defined.

(** ** Before the action *)





(** ** Construction *)

Lemma modes_get_none_iff key ms : modes_get key ms = None <-> ~ In key (map fst ms).
Proof.
  induction ms as [|[k m] r IH]; cbn; [tauto|].
  destruct (String.eqb k key) eqn:E.
  - apply String.eqb_eq in E. split; [discriminate|]. intros H. exfalso. apply H. now left.
  - apply String.eqb_neq in E. rewrite IH. tauto.
Qed.

Lemma existsb_eqb_false s l : existsb (String.eqb s) l = false <-> ~ In s l.
Proof.
  induction l as [|x r IH]; cbn; [tauto|].
  rewrite orb_false_iff, IH. split.
  - intros [E H] [->|Hin]; [rewrite String.eqb_refl in E; discriminate|tauto].
  - intros H. split; [|tauto]. apply String.eqb_neq. intros ->. apply H. now left.
Qed.

Lemma mode_config_of_prefix {BR : Browser} options cfg :
  mode_config_of options = inr cfg ->
  prefix cfg = opt_prefix options /\
  emptyMode cfg = nullish (opt_emptyMode options) EMPTY_ALL /\
  sortMode cfg = nullish (opt_sortMode options) SORTED /\
  inl (cfg_type cfg) = opt_type options.
Proof.
  unfold mode_config_of. destruct (opt_type options) as [[]|]; intros H;
    try discriminate; injection H as <-; auto.
Qed.

(** The loop of [getModes] keeps names and prefixes distinct, and adds
    one mode for each entry, in order. *)
Lemma getModes_loop_inv {BR : Browser} entries :
  forall modes prefixes result,
    getModes_loop entries modes prefixes = inr result ->
    NoDup (map fst modes) -> NoDup prefixes ->
    prefixes = map (fun km => prefix (config (snd km))) modes ->
    Forall brand_new modes ->
    exists built,
      result = modes ++ built /\
      NoDup (map fst result) /\
      NoDup (map (fun km => prefix (config (snd km))) result) /\
      Forall brand_new result /\
      Forall2 (fun km e =>
                 fst km = fst e /\
                 prefix (config (snd km)) = opt_prefix (snd e) /\
                 emptyMode (config (snd km)) = nullish (opt_emptyMode (snd e)) EMPTY_ALL /\
                 sortMode (config (snd km)) = nullish (opt_sortMode (snd e)) SORTED /\
                 inl (cfg_type (config (snd km))) = opt_type (snd e))
        built entries.
Proof.
  induction entries as [|[name options] rest IH]; intros modes prefixes result H NDn NDp Ep Fb;
    cbn [getModes_loop] in H.
  - injection H as <-. exists []. rewrite app_nil_r, <- Ep. repeat split; auto.
  - destruct (modes_get name modes) eqn:G; [discriminate|].
    destruct (existsb (String.eqb (opt_prefix options)) prefixes) eqn:P; [discriminate|].
    destruct (mode_config_of options) as [|cfg] eqn:C; [discriminate|].
    destruct (mode_sort_of options) as [|s]; [discriminate|].
    apply modes_get_none_iff in G. apply existsb_eqb_false in P.
    destruct (mode_config_of_prefix _ C) as (Cp & Ce & Cs & Ct).
    apply IH in H.
    + destruct H as (built & -> & N1 & N2 & B & F2).
      exists ((name, new_mode name s cfg) :: built). rewrite <- app_assoc in *.
      split; [reflexivity|]. repeat (split; [assumption|]).
      constructor; [|exact F2]. cbn. auto.
    + rewrite map_app. cbn. apply NoDup_app; [exact NDn|repeat constructor; intros []|].
      intros a Ha [<-|[]]. contradiction.
    + apply NoDup_app; [exact NDp|repeat constructor; intros []|].
      intros a Ha [<-|[]]. contradiction.
    + rewrite map_app. cbn. now rewrite Ep, Cp.
    + apply Forall_app. split; [exact Fb|]. repeat constructor.
Qed.

(** X22. [getModes] returns only for entries whose names are distinct
    and whose prefixes are distinct (any repetition throws); it then
    holds one mode for each entry, in the order of the entries, stored
    under the name of the entry, with that entry's prefix and type, with
    [emptyMode] and [sortMode] defaulting to [ALL] and [SORTED], and with
    every collection empty. *)
Theorem getModes_outcome {BR : Browser} (entries : list (string * ModeOptions))
  (ms : list (string * PaletteModeState))
  (built : getModes entries = inr ms) :
  NoDup (map fst entries) /\
  NoDup (map (fun e => opt_prefix (snd e)) entries) /\
  map fst ms = map fst entries /\
  modes_wf ms /\
  Forall brand_new ms /\
  Forall2 (fun km e =>
             prefix (config (snd km)) = opt_prefix (snd e) /\
             emptyMode (config (snd km)) = nullish (opt_emptyMode (snd e)) EMPTY_ALL /\
             sortMode (config (snd km)) = nullish (opt_sortMode (snd e)) SORTED /\
             inl (cfg_type (config (snd km))) = opt_type (snd e))
    ms entries.
Proof.
  destruct (@getModes_loop_inv BR entries [] [] ms built (NoDup_nil _) (NoDup_nil _)
              eq_refl (Forall_nil _)) as (b & -> & N1 & N2 & B & F2).
  cbn [app] in *.
  assert (Names : map fst b = map fst entries).
  { clear - F2. induction F2 as [|km e l l' H F IH]; [reflexivity|]. cbn.
    destruct H as (-> & _). now rewrite IH. }
  assert (Prefixes : map (fun km => prefix (config (snd km))) b
                     = map (fun e => opt_prefix (snd e)) entries).
  { clear - F2. induction F2 as [|km e l l' H F IH]; [reflexivity|]. cbn.
    destruct H as (_ & -> & _). now rewrite IH. }
  split; [now rewrite <- Names|]. split; [now rewrite <- Prefixes|].
  split; [exact Names|]. split; [|split; [exact B|]].
  - split; [exact N1|]. eapply Forall_impl; [|exact B]. intros km H. apply H.
  - eapply Forall2_impl; [|exact F2]. cbn beta. tauto.
Qed.

Lemma getModes_outcome_witness :
  let options pre :=
    {| opt_type := inl ACTIONABLE; opt_prefix := pre; opt_mapToSearch := name;
       opt_emptyMode := None; opt_shortcut := None; opt_sortBy := SortByNone;
       opt_sortMode := None; opt_onExternal := None; opt_onLocal := None;
       opt_onNavigation := None; opt_onError := None |} in
  let browser :=
    {| trim := fun s => s; item_field := fun _ _ => None;
       window_open := fun _ => Returns tt; location_assign := fun _ => Returns tt |} in
  (exists ms, @getModes browser [("commands", options ">"); ("default", options "")]
              = inr ms /\ modes_wf ms /\ map fst ms = ["commands"; "default"]) /\
  @getModes browser [("commands", options ">"); ("other", options ">")]
  = inl (HyperPaletteError "Duplicate prefix: '>'").
Proof.
  intros options browser. split; [|reflexivity].
  eexists. split; [reflexivity|].
  destruct (@getModes_outcome browser [("commands", options ">"); ("default", options "")]
              _ eq_refl) as (_ & _ & N & W & _).
  split; [exact W|exact N].
Defined.

Lemma modes_get_of_In k m ms :
  NoDup (map fst ms) -> In (k, m) ms -> modes_get k ms = Some m.
Proof.
  induction ms as [|[k' m'] r IH]; cbn; [tauto|]. intros ND [E|Hin].
  - injection E as -> ->. now rewrite String.eqb_refl.
  - inversion ND as [|? ? Hn ND']; subst.
    destruct (String.eqb k' k) eqn:E; [|auto].
    apply String.eqb_eq in E. subst k'. exfalso. apply Hn.
    change k with (fst (k, m)). now apply in_map.
Qed.

Lemma scan_modes_In text ms m : scan_modes text ms = Some m -> In m (map snd ms).
Proof.
  unfold scan_modes. destruct (find _ ms) as [km|] eqn:F; [|discriminate].
  cbn. intros H. injection H as <-. apply find_some in F. apply in_map, F.
Qed.

Lemma modes_get_snd k m ms : modes_get k ms = Some m -> In m (map snd ms).
Proof.
  intros H. apply modes_get_In in H. change m with (snd (k, m)). now apply in_map.
Qed.

(** What [getInitialMode] returns is a mode of the map. *)
Lemma getInitialMode_member modes search initial m :
  getInitialMode modes search initial = inr m -> In m (map snd modes).
Proof.
  unfold getInitialMode.
  assert (First : match modes with
                  | [] => inl (HyperPaletteError
                                 ("Initial mode couldn't be resolved from default search '"
                                  ++ search ++ "' and default mode '"
                                  ++ nullish initial "undefined" ++ "'")%string)
                  | (_, m0) :: _ => inr m0
                  end = inr m -> In m (map snd modes)).
  { destruct modes as [|[k m'] r]; [discriminate|]. intros H. injection H as <-.
    now left. }
  destruct (negb (falsy search)).
  - destruct (scan_modes search modes) as [m'|] eqn:S; [|exact First].
    intros H. injection H as <-. now apply scan_modes_In in S.
  - destruct initial as [name|]; [|exact First].
    destruct (falsy name); [exact First|].
    destruct (modes_get name modes) as [m'|] eqn:G; [|discriminate].
    intros H. injection H as <-. now apply modes_get_snd in G.
Qed.

(** X23. [getInitialMode] returns a mode of the map or throws.  With a
    default search that is not empty the initial mode name is not looked
    at: the result is the first mode whose prefix starts the search, or
    the first mode of the map when there is none, and nothing is thrown
    unless the map is empty.  With an empty search, a name that is given
    is looked up, and an unknown one throws. *)
Theorem getInitialMode_outcome (modes : list (string * PaletteModeState))
  (search : string) (initial : option string) :
  (forall m, getInitialMode modes search initial = inr m -> In m (map snd modes)) /\
  (search <> "" -> forall k0 m0 rest, modes = (k0, m0) :: rest ->
     getInitialMode modes search initial
     = inr (match scan_modes search modes with Some m => m | None => m0 end)) /\
  (search = "" -> forall name, initial = Some name -> name <> "" ->
     match modes_get name modes with
     | Some m => getInitialMode modes search initial = inr m
     | None => exists e, getInitialMode modes search initial = inl e
     end).
Proof.
  split; [|split].
  - intros m. apply getInitialMode_member.
  - intros Hs k0 m0 rest ->. unfold getInitialMode.
    rewrite (nonempty_not_falsy Hs). cbn [negb].
    destruct (scan_modes search ((k0, m0) :: rest)); reflexivity.
  - intros -> name -> Hn. unfold getInitialMode. cbn [falsy negb].
    rewrite (nonempty_not_falsy Hn).
    destruct (modes_get name modes); [reflexivity|eauto].
Qed.

Lemma getInitialMode_outcome_witness :
  getInitialMode (modes Scenario.on_first) ">x" (Some "nowhere") = inr Scenario.commands /\
  exists e, getInitialMode (modes Scenario.on_first) "" (Some "nowhere") = inl e.
Proof.
  destruct (getInitialMode_outcome (modes Scenario.on_first) ">x" (Some "nowhere"))
    as (_ & S & _).
  destruct (getInitialMode_outcome (modes Scenario.on_first) "" (Some "nowhere"))
    as (_ & _ & I).
  split.
  - apply (S ltac:(discriminate) "commands" Scenario.commands [("default", Scenario.pages)]
             eq_refl).
  - apply (I eq_refl "nowhere" eq_refl ltac:(discriminate)).
Defined.

(** X24. The state [createPalette] starts from, when it does not throw,
    has what the engine relies on afterwards: the modes are stored under
    their own distinct names, with distinct prefixes and empty
    collections; the active mode is one of them and the mode store names
    it; no id is registered twice; and the selection is cleared, so on
    the (empty) results. *)
Theorem createPalette_starts_well {BR : Browser} (o : PaletteOptions) (p : Palette)
  (created : createPalette o = inr p) :
  modes_wf (modes p) /\
  NoDup (map (fun km => prefix (config (snd km))) (modes p)) /\
  Forall brand_new (modes p) /\
  (exists ms, modes_get (mode_state p) (modes p) = Some ms /\ mode ms = mode_state p) /\
  paletteMode p = mode_state p /\
  ids_unique_within_modes p /\
  selection_ok p /\
  error p = None /\ debounce_id p = None.
Proof.
  unfold createPalette in created.
  destruct (getModes (o_modes o)) as [|ms] eqn:GM; [discriminate|].
  destruct (getInitialMode ms (nullish (o_default_search o) "") (o_default_mode o))
    as [|m] eqn:GI; [discriminate|].
  injection created as <-. cbn.
  destruct (@getModes_loop_inv BR (o_modes o) [] [] ms GM (NoDup_nil _) (NoDup_nil _)
              eq_refl (Forall_nil _)) as (b & Eb & N1 & N2 & B & _).
  assert (W : modes_wf ms).
  { split; [exact N1|]. eapply Forall_impl; [|exact B]. intros km H. apply H. }
  pose proof (getInitialMode_member _ _ _ GI) as Hin.
  apply in_map_iff in Hin. destruct Hin as ([k m'] & E & Hin). cbn in E. subst m'.
  assert (Hk : mode m = k).
  { rewrite Forall_forall in B. apply (B (k, m) Hin). }
  assert (A : modes_get (mode m) ms = Some m).
  { rewrite Hk. apply modes_get_of_In; [apply W|exact Hin]. }
  split; [exact W|]. split; [exact N2|]. split; [exact B|].
  split; [eauto|]. split; [reflexivity|]. split; [|split; [|auto]].
  - unfold ids_unique_within_modes. cbn. eapply Forall_impl; [|exact B].
    intros km H. destruct H as (_ & _ & _ & _ & _ & _ & -> & _). constructor.
  - exists m. split; [exact A|]. left. split; reflexivity.
Qed.

Lemma createPalette_starts_well_witness :
  let options pre :=
    {| opt_type := inl ACTIONABLE; opt_prefix := pre; opt_mapToSearch := name;
       opt_emptyMode := None; opt_shortcut := None; opt_sortBy := SortByNone;
       opt_sortMode := None; opt_onExternal := None; opt_onLocal := None;
       opt_onNavigation := None; opt_onError := None |} in
  let browser :=
    {| trim := fun s => s; item_field := fun _ _ => None;
       window_open := fun _ => Returns tt; location_assign := fun _ => Returns tt |} in
  let o :=
    {| o_modes := [("commands", options ">"); ("default", options "")];
       o_closeAction := None; o_debounce := None; o_resetOnOpen := None;
       o_open := None; o_default_open := None; o_default_search := None;
       o_default_mode := Some "default" |} in
  exists p, @createPalette browser o = inr p /\ mode_state p = "default" /\
            modes_wf (modes p) /\ selection_ok p.
Proof.
  intros options browser o. eexists. split; [reflexivity|]. split; [reflexivity|].
  destruct (@createPalette_starts_well browser o _ eq_refl) as (W & _ & _ & _ & _ & _ & S & _).
  split; [exact W|exact S].
Defined.

(** ** Unregistration keeps the collections in step *)

Lemma remove_keeps_permutation (x : HyperItem) k se raw :
  Permutation se raw -> NoDup (map oid raw) -> nth_error raw k = Some x ->
  Permutation (searcher_remove x se) (splice1 k raw).
Proof.
  intros P ND N.
  destruct (splice1_split _ _ N) as (L & R & -> & _ & ->).
  assert (Hin : In x se).
  { apply (Permutation_in x (Permutation_sym P)). apply in_or_app. right. now left. }
  assert (NDs : NoDup (map oid se)).
  { apply (Permutation_NoDup (l := map oid (L ++ x :: R))); [|exact ND].
    apply Permutation_map, Permutation_sym, P. }
  destruct (searcher_remove_first _ _ Hin NDs) as (S1 & S2 & -> & ->).
  eapply Permutation_app_inv; eauto.
Qed.

Lemma splice1_length A (l : list A) k x :
  nth_error l k = Some x -> S (List.length (splice1 k l)) = List.length l.
Proof.
  intros N. destruct (splice1_split _ _ N) as (L & R & -> & _ & ->).
  rewrite !length_app. cbn. lia.
Qed.

Lemma splice1_In A (l : list A) k z : In z (splice1 k l) -> In z l.
Proof.
  revert k. induction l as [|y r IH]; intros [|k]; cbn; auto.
  intros [E|H]; [now left|right; eauto].
Qed.

(** X25. Unregistering a registered id keeps the collections of the mode
    in step: when they agreed with one another (under a sort that is
    stable under removal), ids were distinct and no object bore two of
    them, [unregisterItem] returns and the same holds afterwards.  (The
    [onUnregister] of the item, if it has one, comes back, and the
    refresh has nothing to throw.) *)
Theorem unregistration_keeps_sync {RT : Runtime} (p : Palette) (mname : string)
  (m : PaletteModeState) (i : string)
  (registered : modes_get mname (modes p) = Some m)
  (synced : in_sync m)
  (stable : sortMode (config m) = UNSORTED \/ removal_stable (sorter (sort m)))
  (unique : NoDup (map id (rawAll m)))
  (objects : one_id_per_object (rawAll m))
  (present : In i (map id (rawAll m)))
  (quietly : forall x, In x (rawAll m) -> id x = i -> unregisters_quietly x)
  (safe : refresh_safe p) :
  exists p' m',
    unregisterItem mname [MatchId i] p = Ok tt p' /\
    modes_get mname (modes p') = Some m' /\
    in_sync m' /\ NoDup (map id (rawAll m')) /\ one_id_per_object (rawAll m') /\
    ~ In i (map id (rawAll m')).
Proof.
  destruct synced as (Len & Pse & Sorted).
  destruct (find_index (has_id i) (rawAll m)) as [k|] eqn:F;
    [|apply find_index_id_none in F; contradiction].
  destruct (find_index_some _ _ F) as (x & N & Hx & _).
  unfold has_id in Hx. apply String.eqb_eq in Hx.
  assert (V : registry_view mname p = Some (static_of m, registry_of m)).
  { unfold registry_view. now rewrite registered. }
  set (v := sorted_view (sort m) (sortMode (config m))) in *.
  assert (Vs : view_stable v) by (now apply sorted_view_stable).
  assert (So : remove_by_id i (v (rawAll m)) = v (splice1 k (rawAll m))).
  { destruct Vs as [L Fl].
    rewrite remove_by_id_filter by (rewrite Fl, L; now apply count_ids_NoDup).
    rewrite Fl. f_equal.
    rewrite <- remove_by_id_filter by (now apply count_ids_NoDup).
    unfold remove_by_id. now rewrite F. }
  assert (H : remove_at k (registry_of m)
              = Some (splice1 k (rawAll m), splice1 k (items m),
                      searcher_remove x (searcher m), v (splice1 k (rawAll m)))).
  { cbn [registry_of remove_at]. now rewrite N, Hx, Sorted, So. }
  assert (Q : forall y, nth_error (fst (fst (fst (registry_of m)))) k = Some y ->
                        unregisters_quietly y).
  { cbn [registry_of fst]. rewrite N. intros y Hy. injection Hy as <-.
    apply quietly; [exact (nth_error_In _ _ N)|exact Hx]. }
  destruct (@unregister_at_registry mname _ k p _ _ V Q H) as (pA & RA & VA & CA).
  assert (Ret : returned (refresh_if_active mname pA) = true).
  { rewrite (@refresh_returned_control RT mname pA p CA). now apply refresh_safe_returns. }
  destruct (returned_ok _ Ret) as ([] & p' & R').
  destruct (refresh_views mname mname pA) as [V' _]. rewrite R' in V'. cbn [state_of] in V'.
  rewrite VA in V'. destruct (registry_view_mode mname p' V') as (m' & G' & S' & E').
  cbn [registry_of] in E'. injection E' as Er Ei Es Eso.
  unfold static_of in S'. injection S' as _ Ss Sc.
  exists p', m'. split; [|split; [exact G'|]].
  - unfold unregisterItem. unfold bind at 1. unfold get. cbn beta iota. rewrite registered.
    unfold _unregister_item. unfold bind at 1. cbn [unregister_loop].
    unfold bind at 1. unfold the_mode. rewrite registered. cbn beta iota.
    cbn [to_remove]. rewrite F. cbn [rev app unregister_indices List.length].
    unfold bind at 1. unfold bind at 1. rewrite RA. cbn beta iota. cbn [ret Nat.add Nat.eqb].
    exact R'.
  - assert (NDo : NoDup (map oid (rawAll m))) by (now apply NoDup_oids).
    split; [|split; [|split]].
    + unfold in_sync. rewrite Ss, Sc, Er, Ei, Es, Eso. split; [|split; [|reflexivity]].
      * assert (Ni : exists y, nth_error (items m) k = Some y).
        { destruct (nth_error (items m) k) eqn:E; [eauto|].
          apply nth_error_None in E. assert (k < List.length (rawAll m))%nat
            by (apply nth_error_Some; congruence). lia. }
        destruct Ni as [y Ny].
        pose proof (splice1_length _ _ N). pose proof (splice1_length _ _ Ny). lia.
      * now apply remove_keeps_permutation.
    + rewrite Er. now apply NoDup_ids_splice1.
    + rewrite Er. intros a b Ha Hb. apply objects; eapply splice1_In; eauto.
    + rewrite Er. destruct (splice1_split _ _ N) as (L & R & EL & _ & ES). rewrite ES.
      rewrite EL, map_app in unique. cbn [map] in unique. apply NoDup_remove_2 in unique.
      now rewrite <- Hx, map_app.
Qed.

Lemma unregistration_keeps_sync_witness :
  exists p' m',
    @unregisterItem Scenario.runtime "commands" [MatchId "b"] Scenario.on_first = Ok tt p' /\
    modes_get "commands" (modes p') = Some m' /\ @in_sync Scenario.runtime m'.
Proof.
  destruct (@unregistration_keeps_sync Scenario.runtime Scenario.on_first "commands"
              Scenario.commands "b" eq_refl) as (p' & m' & R & G & S & _).
  - split; [reflexivity|]. split; [apply Permutation_refl|vm_compute; reflexivity].
  - right. apply (@defaultItemSorter_removal_stable Scenario.runtime).
    apply scenario_compare_orders.
  - repeat (constructor; [cbn; intuition discriminate|]); constructor.
  - intros a b Ha Hb. cbn in Ha, Hb.
    repeat (destruct Ha as [<-|Ha]; [|]); try contradiction;
      repeat (destruct Hb as [<-|Hb]; [|]); try contradiction;
      cbn; intros Eo; try reflexivity; discriminate Eo.
  - right. left. reflexivity.
  - intros x Hx _. cbn in Hx. now repeat (destruct Hx as [<-|Hx]; [exact I|]).
  - right. exists Scenario.commands. split; [reflexivity|exact I].
  - exists p', m'. auto.
Defined.

(** ** Unregistering by predicate *)

Lemma find_indices_shift A (f : A -> bool) n l :
  find_indices f (S n) l = map S (find_indices f n l).
Proof.
  revert n. induction l as [|x r IH]; intros n; cbn; [reflexivity|].
  destruct (f x); cbn; now rewrite IH.
Qed.

Lemma splice_all_app A ks ks' (l : list A) :
  splice_all (ks ++ ks') l = splice_all ks' (splice_all ks l).
Proof. unfold splice_all. apply fold_left_app. Qed.

Lemma in_range_app A ks ks' (l : list A) :
  in_range (ks ++ ks') l = in_range ks l && in_range ks' (splice_all ks l).
Proof.
  revert l. induction ks as [|k r IH]; intros l; cbn; [reflexivity|].
  now rewrite IH, andb_assoc.
Qed.

Lemma splice_all_under A ks (x : A) l :
  splice_all (map S ks) (x :: l) = x :: splice_all ks l.
Proof. revert l. induction ks as [|k r IH]; intros l; cbn; [reflexivity|apply IH]. Qed.

Lemma in_range_under A ks (x : A) l :
  in_range (map S ks) (x :: l) = in_range ks l.
Proof.
  revert l. induction ks as [|k r IH]; intros l; cbn [map in_range]; [reflexivity|].
  cbn [splice1 List.length]. now rewrite IH.
Qed.

(** Splicing out the places where [f] holds, from the last to the first,
    leaves the entries where it does not. *)
Lemma splice_all_filter A (f : A -> bool) l :
  in_range (rev (find_indices f 0 l)) l = true /\
  splice_all (rev (find_indices f 0 l)) l = filter (fun x => negb (f x)) l.
Proof.
  induction l as [|x r [IHr IHs]]; [split; reflexivity|].
  cbn [find_indices filter]. rewrite find_indices_shift.
  destruct (f x); cbn [negb rev].
  - rewrite in_range_app, splice_all_app, <- map_rev, in_range_under, splice_all_under.
    rewrite IHr, IHs. split; reflexivity.
  - rewrite <- map_rev, in_range_under, splice_all_under. rewrite IHs. auto.
Qed.

(** The same splices on two lists of one length. *)
Lemma removed_at_splices ks :
  forall raw its se so,
    in_range ks raw = true ->
    exists se' so',
      removed_at ks (raw, its, se, so) = Some (splice_all ks raw, splice_all ks its, se', so').
Proof.
  induction ks as [|k rest IH]; intros raw its se so H; cbn [removed_at]; [eauto|].
  cbn [in_range] in H. apply andb_true_iff in H. destruct H as [Hk Hr].
  apply Nat.ltb_lt in Hk. cbn [remove_at].
  destruct (nth_error raw k) as [x|] eqn:N; [|apply nth_error_None in N; lia].
  apply (IH _ (splice1 k its) (searcher_remove x se) (remove_by_id (id x) so)) in Hr.
  exact Hr.
Qed.

Lemma removed_quietly_app ks ks' l :
  removed_quietly (ks ++ ks') l
  <-> removed_quietly ks l /\ removed_quietly ks' (splice_all ks l).
Proof.
  revert l. induction ks as [|k r IH]; intros l; cbn [app removed_quietly splice_all fold_left].
  - tauto.
  - rewrite IH. unfold splice_all. tauto.
Qed.

Lemma removed_quietly_under ks (x : HyperItem) l :
  removed_quietly (map S ks) (x :: l) <-> removed_quietly ks l.
Proof.
  revert l. induction ks as [|k r IH]; intros l; cbn [map removed_quietly]; [tauto|].
  cbn [nth_error splice1]. now rewrite IH.
Qed.

(** The items a predicate selects are those taken away at its indices. *)
Lemma removed_quietly_selected (f : HyperItem -> bool) l :
  (forall x, In x l -> f x = true -> unregisters_quietly x) ->
  removed_quietly (rev (find_indices f 0 l)) l.
Proof.
  induction l as [|x r IH]; intros Q; [exact I|].
  assert (Qr : forall y, In y r -> f y = true -> unregisters_quietly y)
    by (intros y Hy; apply Q; now right).
  cbn [find_indices]. rewrite find_indices_shift.
  destruct (f x) eqn:Fx; cbn [rev].
  - apply removed_quietly_app. rewrite <- map_rev. split.
    + apply removed_quietly_under. auto.
    + rewrite splice_all_under. cbn [removed_quietly nth_error]. split; [|exact I].
      intros y Hy. injection Hy as <-. apply Q; [now left|exact Fx].
  - rewrite <- map_rev. apply removed_quietly_under. auto.
Qed.

Lemma remove_at_raw k c c' :
  remove_at k c = Some c' -> fst (fst (fst c')) = splice1 k (fst (fst (fst c))).
Proof.
  destruct c as [[[raw its] se] so]. cbn [remove_at fst].
  destruct (nth_error raw k); [|discriminate]. intros H. now injection H as <-.
Qed.

Lemma unregister_indices_registry mname st ks :
  forall p c c',
    registry_view mname p = Some (st, c) ->
    removed_quietly ks (fst (fst (fst c))) ->
    removed_at ks c = Some c' ->
    exists p',
      unregister_indices mname ks p = Ok tt p' /\
      registry_view mname p' = Some (st, c') /\
      control p' = control p.
Proof.
  induction ks as [|k rest IH]; intros p c c' V Q H;
    cbn [removed_at unregister_indices removed_quietly] in *.
  - injection H as <-. exists p. auto.
  - destruct Q as [Qk Qr].
    destruct (remove_at k c) as [c1|] eqn:R; [|discriminate].
    destruct (@unregister_at_registry mname st k p c c1 V Qk R) as (p1 & R1 & V1 & C1).
    rewrite <- (remove_at_raw _ _ R) in Qr.
    destruct (IH p1 c1 c' V1 Qr H) as (p' & R' & V' & C').
    exists p'. unfold bind. rewrite R1. split; [exact R'|]. split; [exact V'|congruence].
Qed.

(** X26. Unregistering by predicate takes away exactly the items the
    predicate selects: [unregisterItem] returns, [rawAll] is what it was
    without those items, the others in their order, and [items], when it
    was [rawAll], still is.  (The [onUnregister] of the selected items
    comes back, and the refresh has nothing to throw.) *)
Theorem unregister_by_predicate {RT : Runtime} (p : Palette) (mname : string)
  (m : PaletteModeState) (f : HyperItem -> bool)
  (registered : modes_get mname (modes p) = Some m)
  (quietly : forall x, In x (rawAll m) -> f x = true -> unregisters_quietly x)
  (safe : refresh_safe p) :
  exists p' m',
    unregisterItem mname [MatchPredicate f] p = Ok tt p' /\
    modes_get mname (modes p') = Some m' /\
    rawAll m' = filter (fun x => negb (f x)) (rawAll m) /\
    (items m = rawAll m -> items m' = rawAll m') /\
    Forall (fun x => f x = false) (rawAll m').
Proof.
  set (ks := rev (find_indices f 0 (rawAll m))).
  destruct (splice_all_filter f (rawAll m)) as [Range Filter]. fold ks in Range, Filter.
  assert (V : registry_view mname p = Some (static_of m, registry_of m)).
  { unfold registry_view. now rewrite registered. }
  destruct (@removed_at_splices ks (rawAll m) (items m) (searcher m) (rawAllSorted m) Range)
    as (se' & so' & H).
  destruct (@unregister_indices_registry mname _ ks p _ _ V
              (removed_quietly_selected f (rawAll m) quietly) H)
    as (pA & RA & VA & CA).
  assert (Loop : _unregister_item mname [MatchPredicate f] p
                 = if Nat.eqb (List.length (find_indices f 0 (rawAll m))) 0
                   then Ok tt pA else refresh_if_active mname pA).
  { unfold _unregister_item. unfold bind at 1. cbn [unregister_loop].
    unfold bind at 1. unfold the_mode. rewrite registered. cbn beta iota.
    cbn [to_remove]. fold ks. unfold bind at 1. rewrite RA. cbn beta iota.
    cbn [ret Nat.add]. destruct (Nat.eqb _ 0); reflexivity. }
  assert (Done : exists p', _unregister_item mname [MatchPredicate f] p = Ok tt p' /\
                            registry_view mname p' = registry_view mname pA).
  { rewrite Loop. destruct (Nat.eqb _ 0); [eauto|].
    assert (Ret : returned (refresh_if_active mname pA) = true).
    { rewrite (@refresh_returned_control RT mname pA p CA). now apply refresh_safe_returns. }
    destruct (returned_ok _ Ret) as ([] & p' & R').
    destruct (refresh_views mname mname pA) as [V' _]. rewrite R' in V'. eauto. }
  destruct Done as (p' & R' & V'). rewrite VA in V'.
  destruct (registry_view_mode mname p' V') as (m' & G' & _ & E').
  cbn [registry_of] in E'. injection E' as Er Ei _ _.
  exists p', m'. split; [|split; [exact G'|]].
  - unfold unregisterItem. unfold bind at 1. unfold get. cbn beta iota.
    now rewrite registered.
  - rewrite Er, Ei, Filter. split; [reflexivity|]. split.
    + intros ->. exact Filter.
    + apply Forall_forall. intros x Hx. apply filter_In in Hx.
      destruct Hx as [_ Hx]. now apply negb_true_iff.
Qed.

Lemma unregister_by_predicate_witness :
  let after := state_of (@unregisterItem Scenario.runtime "commands"
                           [MatchPredicate (fun x => negb (String.eqb (id x) "b"))]
                           Scenario.on_first) in
  option_map (fun m => map id (rawAll m)) (modes_get "commands" (modes after)) = Some ["b"].
Proof.
  intros after.
  destruct (@unregister_by_predicate Scenario.runtime Scenario.on_first "commands"
              Scenario.commands (fun x => negb (String.eqb (id x) "b")) eq_refl)
    as (p' & m' & R & G & Er & _).
  { intros x Hx _. cbn in Hx. now repeat (destruct Hx as [<-|Hx]; [exact I|]). }
  { right. exists Scenario.commands. split; [reflexivity|exact I]. }
  unfold after. rewrite R. cbn [state_of]. rewrite G. cbn [option_map]. rewrite Er.
  reflexivity.
Defined.
